(** * Usnea: dialog graphs, inference step, layered layout, serialization

    A shallow embedding of the traversal core of the Usnea dialog editor:
    - [common/interfaces.ts]        the graph data model,
    - [common/utils.ts]             graph queries, edge names, [dagLayout],
    - [services/inference/semantic_inference_service.ts]
                                    [checkSemanticMatchRule], [evaluate],
                                    [applyMutations],
    - [services/persistence/graph_serialization.ts]
                                    the wire format and both conversions,
    - [services/graph/graph_service.ts]
                                    [deleteNode], [deleteEdge],
    - [components/preview/dialog_preview.ts]
                                    the handlers of the dialog preview,
    - the node tester's [getBestCandidate].

    Conventions.  A JavaScript [number] that is finite is a rational; scores,
    thresholds and coordinates are values of [Q] and only compared, never
    computed with (NaN and the infinities are not represented).  Counters and
    array positions are [Z] or [nat].  A [Map<string,string>] on which only
    [has]/[get]/[set]/[delete] are used is a [gmap string string]; the one
    map whose iteration order is observed ([depthMap] of [dagLayout]) is an
    association list in insertion order.  An optional field [f?: T] is an
    [option T].  Nodes are compared by [id] throughout the source, so an edge
    holds its end points by value.  [async] functions are run to completion
    in sequence; a raised exception is the [Throw] case of [result]. *)

From Stdlib Require Import ZArith QArith Qround Lia Lqa.
From stdpp Require Import base option list strings gmap.

Local Open Scope string_scope.
Local Open Scope list_scope.
Local Open Scope Z_scope.

(** ** Exceptions *)

Inductive exn : Type :=
| TypeError
| Error (msg : string).

Inductive result (A : Type) : Type :=
| Ok (a : A)
| Throw (e : exn).
Arguments Ok {A} a.
Arguments Throw {A} e.

#[global] Instance result_ret : MRet result := fun _ a => Ok a.
#[global] Instance result_bind : MBind result := fun _ _ k r =>
  match r with
  | Ok a => k a
  | Throw e => Throw e
  end.

(** ** JavaScript comparisons on numbers *)

(** [a < b] on finite numbers. *)
Definition Qltb (a b : Q) : bool := negb (Qle_bool b a).

(** [a > b] where [a] may be [undefined] (an array read past its end):
    [undefined] converts to NaN and the comparison is false. *)
Definition jsGt (a : option Q) (b : Q) : bool :=
  match a with
  | Some x => Qltb b x
  | None => false
  end.

(** Truthiness of [number|null]: [null] and [0] are falsy. *)
Definition truthyNum (a : option Q) : bool :=
  match a with
  | Some x => negb (Qeq_bool x 0)
  | None => false
  end.

(** Truthiness of [boolean|undefined]. *)
Definition truthyBool (b : option bool) : bool :=
  match b with
  | Some true => true
  | _ => false
  end.

(** Truthiness of [string|undefined]: the empty string is falsy. *)
Definition truthyStr (s : option string) : bool :=
  match s with
  | Some s => negb (String.eqb s "")
  | None => false
  end.

Lemma Qltb_lt (a b : Q) : Qltb a b = true <-> (a < b)%Q.
Proof.
  unfold Qltb. rewrite negb_true_iff, <- not_true_iff_false, Qle_bool_iff.
  split; [apply Qnot_le_lt | apply Qlt_not_le].
Qed.

Lemma Qltb_ge (a b : Q) : Qltb a b = false <-> (b <= a)%Q.
Proof.
  unfold Qltb. rewrite negb_false_iff. apply Qle_bool_iff.
Qed.

(** ** Data model ([common/interfaces.ts]) *)

Abbreviation NodeID := string.

(** [fx?: number|null]: absent, [null], or a number. *)
Inductive coord : Type :=
| CUndefined
| CNull
| CNum (q : Q).

Record Node : Type := mkNode {
  id : NodeID;
  title : string;
  prompt : string;
  retryPrompt : string;
  autoAdvance : option bool;
  fx : coord;
  fy : coord
}.

Record EdgeLayout : Type := mkEdgeLayout {
  sourceX : option Q;
  sourceY : option Q;
  targetX : option Q;
  targetY : option Q;
  lineAnchorX : option Q;
  lineAnchorY : option Q;
  labelX : option Q;
  labelY : option Q;
  control : option (list Q)
}.

Inductive MutationType : Type := ADD | REMOVE.
Inductive ConditionType : Type := REQUIRE | FORBID.

Record Condition : Type := mkCondition {
  conditionType : ConditionType;
  ckey : string;
  cvalue : string
}.

Record Mutation : Type := mkMutation {
  mutationType : MutationType;
  mkey : string;
  mvalue : string
}.

Record MatchCandidate : Type := mkMatchCandidate {
  text : string;
  antiExample : option bool
}.

Record SemanticMatchRule : Type := mkSemanticMatchRule {
  matchCandidates : list MatchCandidate
}.

Record RepeatedFailRule : Type := mkRepeatedFailRule {
  failMessage : option string;
  failCount : Z
}.

(** [EdgeRule] is a [type] tag with [data] cast according to the tag. *)
Inductive EdgeRule : Type :=
| SEMANTIC_MATCH (data : SemanticMatchRule)
| REPEATED_FAIL (data : RepeatedFailRule).

Record Edge : Type := mkEdge {
  source : Node;
  target : Node;
  rules : list EdgeRule;
  conditions : option (list Condition);
  mutations : option (list Mutation);
  layout : option EdgeLayout
}.

Record Graph : Type := mkGraph {
  gid : string;
  contentId : option string;
  name : string;
  start : NodeID;
  nodes : list Node;
  edges : list Edge
}.

Abbreviation World := (gmap string string).

(** ** Graph queries ([common/utils.ts]) *)

(** [isRepeatedFail]: at least one rule and every rule is a repeated-fail
    rule. *)
Fixpoint isRepeatedFail_loop (rs : list EdgeRule) (hasRepeatedFail : bool) : bool :=
  match rs with
  | [] => hasRepeatedFail
  | REPEATED_FAIL _ :: rest => isRepeatedFail_loop rest true
  | SEMANTIC_MATCH _ :: _ => false
  end.

Definition isRepeatedFail (edge : Edge) : bool :=
  isRepeatedFail_loop (rules edge) false.

(** The first semantic-match rule of a rule list (the first loop of
    [getEdgeName]). *)
Fixpoint firstSemanticRule (rs : list EdgeRule) : option SemanticMatchRule :=
  match rs with
  | [] => None
  | SEMANTIC_MATCH d :: _ => Some d
  | REPEATED_FAIL _ :: rest => firstSemanticRule rest
  end.

(** The second loop of [getEdgeName]: text of the first candidate that is
    not an anti-example. *)
Fixpoint firstPositiveExample (cs : list MatchCandidate) : option string :=
  match cs with
  | [] => None
  | c :: rest =>
      if negb (truthyBool (antiExample c)) then Some (text c)
      else firstPositiveExample rest
  end.

(** [getEdgeName]: [null] is [None]. *)
Definition getEdgeName (edge : Edge) : option string :=
  match firstSemanticRule (rules edge) with
  | None => None
  | Some r =>
      let fpe := firstPositiveExample (matchCandidates r) in
      (* firstPositiveExample || '' *)
      Some (if truthyStr fpe then default "" fpe else "")
  end.

(** One condition of the loop in [getOutEdges]: [true] when the condition
    makes the edge fail. *)
Definition conditionFails (world : World) (c : Condition) : bool :=
  match conditionType c with
  | REQUIRE =>
      (* !world.has(key) || world.get(key) !== value *)
      negb (bool_decide (is_Some (world !! ckey c)))
      || negb (bool_decide (world !! ckey c = Some (cvalue c)))
  | FORBID =>
      (* world.has(key) || world.get(key) === value *)
      bool_decide (is_Some (world !! ckey c))
      || bool_decide (world !! ckey c = Some (cvalue c))
  end.

Fixpoint passedConditions_loop (world : World) (cs : list Condition) : bool :=
  match cs with
  | [] => true
  | c :: rest =>
      if conditionFails world c then false
      else passedConditions_loop world rest
  end.

(** [passedConditions] after the inner loop; the loop runs only when both
    [world] and [edge.conditions] are present. *)
Definition passedConditions (world : option World) (edge : Edge) : bool :=
  match world, conditions edge with
  | Some w, Some cs => passedConditions_loop w cs
  | _, _ => true
  end.

Definition getOutEdges (node : Node) (graph : Graph) (world : option World)
  : list Edge :=
  filter (fun edge => String.eqb (id (source edge)) (id node) = true
                      /\ passedConditions world edge = true)
         (edges graph).

Definition getInEdges (node : Node) (graph : Graph) : list Edge :=
  filter (fun edge => String.eqb (id (target edge)) (id node) = true)
         (edges graph).

Definition getRepeatedFailEdges (node : Node) (graph : Graph) : list Edge :=
  filter (fun edge => isRepeatedFail edge = true)
         (getOutEdges node graph None).

(** ** Inference ([services/inference]) *)

(** The scorer ([SemanticMatchService]).  Every call of
    [semanticSimilarity] is taken to resolve with an array of scores: a
    call that rejects, which [evaluate] would pass on to its caller, is not
    represented. *)
Record SemanticMatchService : Type := mkSemanticMatchService {
  ready : bool;
  getThreshold : Q;
  semanticSimilarity : string -> list string -> list Q
}.

Record InferenceState : Type := mkInferenceState {
  attemptNumber : Z;
  node : Node;
  world : option World
}.

Record ScoredCandidate : Type := mkScoredCandidate {
  candidate : MatchCandidate;
  score : option Q;
  topScore : bool
}.

Record ScoredSemanticMatchRule : Type := mkScoredSemanticMatchRule {
  ssmr_rule : SemanticMatchRule;
  ssmr_scoredCandidates : list ScoredCandidate;
  chosen : bool
}.

Record InferenceResult : Type := mkInferenceResult {
  state : InferenceState;
  edge : option Edge;
  rule : option EdgeRule;
  scoredSemanticMatchRules : list ScoredSemanticMatchRule
}.

Record SemanticMatchResult : Type := mkSemanticMatchResult {
  maxScore : option Q;
  scoredCandidates : list ScoredCandidate
}.

(** A [for (const a of l)] loop whose body may raise. *)
Fixpoint forEach {A S : Type} (body : A -> S -> result S) (l : list A) (s : S)
  : result S :=
  match l with
  | [] => Ok s
  | a :: rest => s' ← body a s; forEach body rest s'
  end.

(** [arr[i].f = v] on an array of objects: raises [TypeError] when [arr[i]]
    is [undefined], that is when [i] is negative or past the end. *)
Definition updateAt {A : Type} (arr : list A) (i : Z) (upd : A -> A)
  : result (list A) :=
  if i <? 0 then Throw TypeError
  else match arr !! Z.to_nat i with
       | Some a => Ok (<[Z.to_nat i := upd a]> arr)
       | None => Throw TypeError
       end.

(** Local variables of the loop of [checkSemanticMatchRule]. *)
Record MatchLoop : Type := mkMatchLoop {
  l_maxIndex : Z;
  l_maxScore : Q;
  l_maxPositive : bool;
  l_scoredCandidates : list ScoredCandidate
}.

Definition setTopScore (sc : ScoredCandidate) : ScoredCandidate :=
  {| candidate := candidate sc; score := score sc; topScore := true |}.

(** The loop [for (let i = 0; i < rule.matchCandidates.length; i++)]; the
    list argument is the part of [matchCandidates] from position [i] on. *)
Fixpoint checkLoop (scores : list Q) (cands : list MatchCandidate) (i : nat)
    (st : MatchLoop) : MatchLoop :=
  match cands with
  | [] => st
  | c :: rest =>
      let sc := scores !! i in
      let pushed :=
        l_scoredCandidates st
          ++ [ {| candidate := c; score := sc; topScore := false |} ] in
      let st' :=
        if jsGt sc (l_maxScore st)
        then {| l_maxIndex := Z.of_nat i;
                l_maxScore := default (l_maxScore st) sc;
                l_maxPositive := negb (truthyBool (antiExample c));
                l_scoredCandidates := pushed |}
        else {| l_maxIndex := l_maxIndex st;
                l_maxScore := l_maxScore st;
                l_maxPositive := l_maxPositive st;
                l_scoredCandidates := pushed |} in
      checkLoop scores rest (S i) st'
  end.

Definition checkSemanticMatchRule (svc : SemanticMatchService)
    (utterance : string) (r : SemanticMatchRule) : result SemanticMatchResult :=
  match matchCandidates r with
  | [] => Ok {| maxScore := None; scoredCandidates := [] |}
  | _ :: _ =>
      let candidates := map text (matchCandidates r) in
      let scores := semanticSimilarity svc utterance candidates in
      let st := checkLoop scores (matchCandidates r) 0%nat
                  {| l_maxIndex := -1; l_maxScore := (-1)%Q;
                     l_maxPositive := false; l_scoredCandidates := [] |} in
      scs ← updateAt (l_scoredCandidates st) (l_maxIndex st) setTopScore;
      if l_maxPositive st
      then Ok {| maxScore := Some (l_maxScore st); scoredCandidates := scs |}
      else Ok {| maxScore := None; scoredCandidates := scs |}
  end.

(** [applyMutations]: the world after the edge's mutations, in list order. *)
Definition applyMutation (w : World) (m : Mutation) : World :=
  match mutationType m with
  | ADD => <[mkey m := mvalue m]> w
  | REMOVE => delete (mkey m) w
  end.

Definition applyMutations (w : World) (e : Edge) : World :=
  match mutations e with
  | Some ms => fold_left applyMutation ms w
  | None => w
  end.

(** Local variables of the first loop of [evaluate]. *)
Record EvalLoop : Type := mkEvalLoop {
  bestScore : Q;
  bestEdge : option Edge;
  bestRule : option EdgeRule;
  bestSemanticMatchRuleIndex : Z;
  l_scoredSemanticMatchRules : list ScoredSemanticMatchRule;
  semanticMatchRuleIndex : Z
}.

Definition evalInit : EvalLoop :=
  {| bestScore := 0%Q; bestEdge := None; bestRule := None;
     bestSemanticMatchRuleIndex := 0; l_scoredSemanticMatchRules := [];
     semanticMatchRuleIndex := -1 |}.

(** Body of [for (const rule of edge.rules)] in the first loop. *)
Definition scanRule (svc : SemanticMatchService) (utterance : string)
    (e : Edge) (r : EdgeRule) (st : EvalLoop) : result EvalLoop :=
  match r with
  | REPEATED_FAIL _ => Ok st
  | SEMANTIC_MATCH data =>
      let idx := semanticMatchRuleIndex st + 1 in
      res ← checkSemanticMatchRule svc utterance data;
      let top := maxScore res in
      let scored :=
        l_scoredSemanticMatchRules st
          ++ [ {| ssmr_rule := data;
                  ssmr_scoredCandidates := scoredCandidates res;
                  chosen := false |} ] in
      if truthyNum top && jsGt top (getThreshold svc) && jsGt top (bestScore st)
      then Ok {| bestScore := default (bestScore st) top;
                 bestEdge := Some e;
                 bestRule := Some r;
                 bestSemanticMatchRuleIndex := idx;
                 l_scoredSemanticMatchRules := scored;
                 semanticMatchRuleIndex := idx |}
      else Ok {| bestScore := bestScore st;
                 bestEdge := bestEdge st;
                 bestRule := bestRule st;
                 bestSemanticMatchRuleIndex := bestSemanticMatchRuleIndex st;
                 l_scoredSemanticMatchRules := scored;
                 semanticMatchRuleIndex := idx |}
  end.

Definition scanEdge (svc : SemanticMatchService) (utterance : string)
    (e : Edge) (st : EvalLoop) : result EvalLoop :=
  forEach (scanRule svc utterance e) (rules e) st.

(** The first loop of [evaluate], over the condition-filtered out-edges. *)
Definition semanticScan (svc : SemanticMatchService) (graph : Graph)
    (utterance : string) (st : InferenceState) : result EvalLoop :=
  forEach (scanEdge svc utterance)
          (getOutEdges (node st) graph (world st)) evalInit.

Definition setChosen (s : ScoredSemanticMatchRule) : ScoredSemanticMatchRule :=
  {| ssmr_rule := ssmr_rule s;
     ssmr_scoredCandidates := ssmr_scoredCandidates s;
     chosen := true |}.

(** Body of the repeated-fail loop: the test reads the result under
    construction, whose [attemptNumber] is already incremented. *)
Definition fallbackRule (e : Edge) (res : InferenceResult) (r : EdgeRule)
  : InferenceResult :=
  match r with
  | SEMANTIC_MATCH _ => res
  | REPEATED_FAIL ruleData =>
      if failCount ruleData <=? attemptNumber (state res)
      then {| state := {| attemptNumber := 0;
                          node := target e;
                          world := world (state res) |};
              edge := Some e;
              rule := Some r;
              scoredSemanticMatchRules := scoredSemanticMatchRules res |}
      else res
  end.

Definition fallbackEdge (res : InferenceResult) (e : Edge) : InferenceResult :=
  fold_left (fallbackRule e) (rules e) res.

Definition evaluate (svc : SemanticMatchService) (graph : Graph)
    (utterance : string) (st : InferenceState) : result InferenceResult :=
  if negb (ready svc)
  then Throw (Error "Semantic match serice not ready yet. Please wait...")
  else
    l ← semanticScan svc graph utterance st;
    (* Default output is that there is no transition. *)
    let result0 :=
      {| state := {| attemptNumber := attemptNumber st + 1;
                     node := node st;
                     world := world st |};
         edge := None;
         rule := None;
         scoredSemanticMatchRules := l_scoredSemanticMatchRules l |} in
    match bestEdge l with
    | Some be =>
        scored ← updateAt (l_scoredSemanticMatchRules l)
                          (bestSemanticMatchRuleIndex l) setChosen;
        Ok {| state := {| attemptNumber := 0;
                          node := target be;
                          world := (fun w => applyMutations w be) <$> world st |};
              edge := Some be;
              rule := bestRule l;
              scoredSemanticMatchRules := scored |}
    | None =>
        Ok (fold_left fallbackEdge
                      (getRepeatedFailEdges (node result0.(state)) graph)
                      result0)
    end.

(** ** Layered layout ([dagLayout] in [common/utils.ts]) *)

Record NodeDepth : Type := mkNodeDepth {
  nd_node : Node;
  depth : nat
}.

(** [Map.set] on a map whose iteration order is observed: an existing key
    keeps its position, a new key goes last. *)
Fixpoint ordSet (m : list (string * nat)) (k : string) (v : nat)
  : list (string * nat) :=
  match m with
  | [] => [(k, v)]
  | (k', v') :: rest =>
      if String.eqb k' k then (k', v) :: rest
      else (k', v') :: ordSet rest k v
  end.

(** Local variables of [dagLayout]. *)
Record DagState : Type := mkDagState {
  inDegree : gmap string Z;
  finished : gset string;
  depthMap : list (string * nat);
  maxDepth : nat;
  proc : list NodeDepth
}.

(** "Set up indegrees": one pass over the edge list. *)
Definition countTarget (inDeg : gmap string Z) (e : Edge) : gmap string Z :=
  match inDeg !! id (target e) with
  | Some d => <[id (target e) := d + 1]> inDeg
  | None => <[id (target e) := 1]> inDeg
  end.

Definition initInDegree (startNode : Node) (graph : Graph) : gmap string Z :=
  fold_left countTarget (edges graph) {[ id startNode := 1 ]}.

(** One iteration of the [while] loop, after [cur = proc.shift()].  A
    missing in-degree entry reads as [undefined], which is not [1] and
    turns into NaN when decremented; the entry is then left out, which no
    later test distinguishes from NaN. *)
Definition dagStep (graph : Graph) (cur : NodeDepth) (rest : list NodeDepth)
    (st : DagState) : DagState :=
  let cid := id (nd_node cur) in
  let remainingInDegree := inDegree st !! cid in
  let isOne := bool_decide (remainingInDegree = Some 1) in
  {| inDegree :=
       if isOne then inDegree st
       else match remainingInDegree with
            | Some r => <[cid := r - 1]> (inDegree st)
            | None => inDegree st
            end;
     finished := if isOne then {[ cid ]} ∪ finished st else finished st;
     depthMap := ordSet (depthMap st) cid (depth cur);
     maxDepth := if (maxDepth st <? depth cur)%nat then depth cur else maxDepth st;
     proc :=
       if isOne
       then rest ++ map (fun e => {| nd_node := target e; depth := S (depth cur) |})
                        (getOutEdges (nd_node cur) graph None)
       else rest |}.

(** The [while (proc.length > 0)] loop; [None] when [fuel] iterations did
    not empty the queue. *)
Fixpoint dagLoop (graph : Graph) (fuel : nat) (st : DagState) : option DagState :=
  match proc st with
  | [] => Some st
  | cur :: rest =>
      match fuel with
      | O => None
      | S fuel' => dagLoop graph fuel' (dagStep graph cur rest st)
      end
  end.

(** "Invert node->depth map": [depthToNode[d].push(k)] raises when
    [depthToNode[d]] is [undefined]. *)
Definition pushAtDepth (item : string * nat) (depthToNode : list (list string))
  : result (list (list string)) :=
  match depthToNode !! item.2 with
  | Some l => Ok (<[item.2 := l ++ [item.1]]> depthToNode)
  | None => Throw TypeError
  end.

Definition invertDepthMap (st : DagState) : result (list (list string)) :=
  forEach pushAtDepth (depthMap st) (replicate (S (maxDepth st)) []).

(** [dagLayout] with an explicit bound on the number of loop iterations.
    The outer [option] is [None] only when the bound is hit; inside,
    [Ok None] is the [null] return and [Throw] an exception ([startNode]
    is [undefined] when no node has the start id). *)
Definition dagLayoutWith (fuel : nat) (graph : Graph)
  : option (result (option (list (list string)))) :=
  match filter (fun n => String.eqb (id n) (start graph) = true) (nodes graph) with
  | [] => Some (Throw TypeError)
  | startNode :: _ =>
      let st0 := {| inDegree := initInDegree startNode graph;
                    finished := ∅;
                    depthMap := [];
                    maxDepth := 0%nat;
                    proc := [ {| nd_node := startNode; depth := 0%nat |} ] |} in
      match dagLoop graph fuel st0 with
      | None => None
      | Some st =>
          if bool_decide (size (finished st) ≠ length (nodes graph))
          then Some (Ok None)
          else Some (levels ← invertDepthMap st; Ok (Some levels))
      end
  end.

(** Every queue entry but the first is pushed for one edge of a node that
    just finished, so one more iteration than there are edges suffices
    ([dagLayout_total] below). *)
Definition dagLayout (graph : Graph) : option (result (option (list (list string)))) :=
  dagLayoutWith (S (length (edges graph))) graph.

(** ** Serialization ([services/persistence/graph_serialization.ts]) *)

Record SerializableNodeAnchor : Type := mkAnchor {
  x : Q;
  y : Q
}.

Record SerializableNode : Type := mkSerializableNode {
  sn_id : NodeID;
  sn_title : string;
  sn_prompt : string;
  sn_retryPrompt : string;
  sn_autoAdvance : option bool;
  anchor : option SerializableNodeAnchor
}.

(** A rule as the loader may be handed it.  The declared type is
    [EdgeRule]; the object comes from the store by a cast, and a store that
    keeps no empty arrays, nor the objects they leave empty, returns a
    semantic-match rule without candidates with no [data] at all.  A
    repeated-fail rule keeps its [data], which holds a number. *)
Inductive StoredEdgeRule : Type :=
| STORED_SEMANTIC_MATCH (data : option SemanticMatchRule)
| STORED_REPEATED_FAIL (data : RepeatedFailRule).

(** For the same reason each of the three arrays of an edge can be
    missing, and so can the edge list of a graph; the loader tests for
    each of them.  The node list is read without a test and is present. *)
Record SerializableEdge : Type := mkSerializableEdge {
  sourceIndex : nat;
  targetIndex : nat;
  se_rules : option (list StoredEdgeRule);
  se_mutations : option (list Mutation);
  se_conditions : option (list Condition)
}.

Record SerializableGraph : Type := mkSerializableGraph {
  sg_id : string;
  sg_contentId : option string;
  sg_name : string;
  sg_start : NodeID;
  sg_nodes : list SerializableNode;
  sg_edges : option (list SerializableEdge)
}.

(** [Number(v)] for [v : number|null]. *)
Definition toNumber (c : coord) : Q :=
  match c with
  | CNum q => q
  | _ => 0%Q
  end.

Definition purifyNode (n : Node) : SerializableNode :=
  {| sn_id := id n;
     sn_title := title n;
     sn_prompt := prompt n;
     sn_retryPrompt := retryPrompt n;
     sn_autoAdvance := autoAdvance n;
     anchor :=
       match fx n, fy n with
       | CUndefined, _ | _, CUndefined => None
       | a, b => Some {| x := toNumber a; y := toNumber b |}
       end |}.

Fixpoint findNodeIndex_from (i : nat) (ns : list Node) (tgt : Node) : result nat :=
  match ns with
  | [] => Throw (Error "Node not found by id.")
  | n :: rest =>
      if String.eqb (id n) (id tgt) then Ok i
      else findNodeIndex_from (S i) rest tgt
  end.

Definition findNodeIndex (ns : list Node) (tgt : Node) : result nat :=
  findNodeIndex_from 0%nat ns tgt.

Definition toNode (e : SerializableNode) : Node :=
  {| id := sn_id e;
     title := sn_title e;
     prompt := sn_prompt e;
     retryPrompt := sn_retryPrompt e;
     autoAdvance := sn_autoAdvance e;
     fx := match anchor e with Some a => CNum (x a) | None => CUndefined end;
     fy := match anchor e with Some a => CNum (y a) | None => CUndefined end |}.

(** [graph.nodes[i]] as an edge end point.  Past the end the read gives
    [undefined], which is no [Node].  The source stores it in the edge and
    returns; the first read of that end point's [id] then raises
    [TypeError], in [findNodeIndex] when the graph is saved (unless the node
    list is empty, where the search ends at once with 'Node not found by
    id.').  An [Edge] here has nodes for end points, so the embedding raises
    [TypeError] where the edge is built; statements about loading are made
    for indices inside the node list. *)
Definition nodeAt (ns : list Node) (i : nat) : result Node :=
  match ns !! i with
  | Some n => Ok n
  | None => Throw TypeError
  end.

(** A [for ... of] loop that pushes one element per input element. *)
Fixpoint mapM {A B : Type} (f : A -> result B) (l : list A) : result (list B) :=
  match l with
  | [] => Ok []
  | a :: rest => b ← f a; bs ← mapM f rest; Ok (b :: bs)
  end.

(** The repair of a semantic-match rule without [data]. *)
Definition repairRule (r : StoredEdgeRule) : EdgeRule :=
  match r with
  | STORED_SEMANTIC_MATCH (Some d) => SEMANTIC_MATCH d
  | STORED_SEMANTIC_MATCH None => SEMANTIC_MATCH {| matchCandidates := [] |}
  | STORED_REPEATED_FAIL d => REPEATED_FAIL d
  end.

(** One pass of the loop over [serializableGraph.edges].  The inner loop
    [for (const r of e.rules)] raises when [e.rules] is missing, so the
    default written for [rules] in the pushed edge is never used. *)
Definition toEdge (ns : list Node) (e : SerializableEdge) : result Edge :=
  rs ← match se_rules e with
       | Some rs => Ok (map repairRule rs)
       | None => Throw TypeError
       end;
  s ← nodeAt ns (sourceIndex e);
  t ← nodeAt ns (targetIndex e);
  Ok {| source := s; target := t;
        rules := rs;
        mutations := Some (default [] (se_mutations e));
        conditions := Some (default [] (se_conditions e));
        layout := None |}.

(** [serializableGraphToGraph]. *)
Definition serializableGraphToGraph (sg : SerializableGraph) : result Graph :=
  let ns := map toNode (sg_nodes sg) in
  es ← match sg_edges sg with
       | Some ses => mapM (toEdge ns) ses
       | None => Ok []
       end;
  Ok {| gid := sg_id sg;
        name := sg_name sg;
        start := sg_start sg;
        contentId := if truthyStr (sg_contentId sg) then sg_contentId sg else None;
        nodes := ns;
        edges := es |}.

(** A rule of the graph in memory, which has its [data], as the saver
    hands it on. *)
Definition storeRule (r : EdgeRule) : StoredEdgeRule :=
  match r with
  | SEMANTIC_MATCH d => STORED_SEMANTIC_MATCH (Some d)
  | REPEATED_FAIL d => STORED_REPEATED_FAIL d
  end.

Definition fromEdge (ns : list Node) (e : Edge) : result SerializableEdge :=
  si ← findNodeIndex ns (source e);
  ti ← findNodeIndex ns (target e);
  Ok {| sourceIndex := si; targetIndex := ti;
        se_rules := Some (map storeRule (rules e));
        se_mutations := Some (default [] (mutations e));
        se_conditions := Some (default [] (conditions e)) |}.

Definition graphToSerializableGraph (g : Graph) : result SerializableGraph :=
  let ns := map purifyNode (nodes g) in
  es ← mapM (fromEdge (nodes g)) (edges g);
  Ok {| sg_id := gid g;
        sg_name := name g;
        sg_start := start g;
        sg_contentId := if truthyStr (contentId g) then contentId g else None;
        sg_nodes := ns;
        sg_edges := Some es |}.

(** Load then save. *)
Definition roundTrip (sg : SerializableGraph) : result SerializableGraph :=
  g ← serializableGraphToGraph sg; graphToSerializableGraph g.

(** [submitUtterance] called once per utterance: every call evaluates in
    the state the previous call returned. *)
Fixpoint steps (svc : SemanticMatchService) (graph : Graph)
    (utterances : list string) (st : InferenceState)
  : result (list InferenceResult) :=
  match utterances with
  | [] => Ok []
  | u :: rest =>
      r ← evaluate svc graph u st;
      rs ← steps svc graph rest (state r);
      Ok (r :: rs)
  end.

(** ** Sample graphs *)

Module Sample.

Definition mkN (i : string) : Node :=
  {| id := i; title := i; prompt := "?"; retryPrompt := "again?";
     autoAdvance := None; fx := CUndefined; fy := CUndefined |}.

Definition mkE (a b : string) (rs : list EdgeRule)
    (cs : option (list Condition)) (ms : option (list Mutation)) : Edge :=
  {| source := mkN a; target := mkN b; rules := rs;
     conditions := cs; mutations := ms; layout := None |}.

Definition mkG (ns : list string) (es : list Edge) : Graph :=
  {| gid := "g"; contentId := None; name := "sample"; start := "start";
     nodes := map mkN ns; edges := es |}.

(** A scorer that answers every candidate with the same score. *)
Definition constScorer (threshold s : Q) : SemanticMatchService :=
  {| ready := true; getThreshold := threshold;
     semanticSimilarity := fun _ cs => map (fun _ => s) cs |}.

(** A scorer that answers with a fixed score list. *)
Definition listScorer (threshold : Q) (ss : list Q) : SemanticMatchService :=
  {| ready := true; getThreshold := threshold;
     semanticSimilarity := fun _ _ => ss |}.

Definition at0 (i : string) (w : World) : InferenceState :=
  {| attemptNumber := 0; node := mkN i; world := Some w |}.

Definition yes : MatchCandidate := {| text := "yes"; antiExample := None |}.
Definition no_anti : MatchCandidate := {| text := "no"; antiExample := Some true |}.

(** start -> A guarded by Forbid(k, v). *)
Definition forbidEdge : Edge :=
  mkE "start" "A" [SEMANTIC_MATCH {| matchCandidates := [yes] |}]
      (Some [ {| conditionType := FORBID; ckey := "k"; cvalue := "v" |} ]) None.
Definition forbidGraph : Graph := mkG ["start"; "A"] [forbidEdge].

(** start -> A, taken after three failures, adding k = 1. *)
Definition failEdge : Edge :=
  mkE "start" "A" [REPEATED_FAIL {| failMessage := None; failCount := 3 |}]
      None (Some [ {| mutationType := ADD; mkey := "k"; mvalue := "1" |} ]).
Definition failGraph : Graph := mkG ["start"; "A"] [failEdge].

(** The same edge with a semantic rule instead. *)
Definition yesEdge : Edge :=
  mkE "start" "A" [SEMANTIC_MATCH {| matchCandidates := [yes] |}]
      None (Some [ {| mutationType := ADD; mkey := "k"; mvalue := "1" |} ]).
Definition yesGraph : Graph := mkG ["start"; "A"] [yesEdge].

(** Local variables of the semantic scan of [yesGraph] at start when the
    candidate is scored 1. *)
Definition yesScan : EvalLoop :=
  {| bestScore := 1%Q; bestEdge := Some yesEdge;
     bestRule := Some (SEMANTIC_MATCH {| matchCandidates := [yes] |});
     bestSemanticMatchRuleIndex := 0;
     l_scoredSemanticMatchRules :=
       [ {| ssmr_rule := {| matchCandidates := [yes] |};
            ssmr_scoredCandidates :=
              [ {| candidate := yes; score := Some 1%Q; topScore := true |} ];
            chosen := false |} ];
     semanticMatchRuleIndex := 0 |}.

(** start -> A, a fallback guarded by Require(k, v). *)
Definition guardedFailEdge : Edge :=
  mkE "start" "A" [REPEATED_FAIL {| failMessage := None; failCount := 1 |}]
      (Some [ {| conditionType := REQUIRE; ckey := "k"; cvalue := "v" |} ]) None.
Definition guardedFailGraph : Graph := mkG ["start"; "A"] [guardedFailEdge].

(** An edge whose only semantic rule has anti-examples only. *)
Definition antiOnlyEdge : Edge :=
  mkE "start" "A" [SEMANTIC_MATCH {| matchCandidates := [no_anti] |}] None None.

(** The two layout graphs of the documentation, and one with a node the
    start node does not reach. *)
Definition plain (a b : string) : Edge := mkE a b [] None None.
Definition diamond : Graph :=
  mkG ["start"; "A"; "B"; "C"]
      [plain "start" "A"; plain "start" "B"; plain "A" "C"; plain "B" "C"].
Definition lasso : Graph :=
  mkG ["start"; "A"; "B"] [plain "start" "A"; plain "A" "B"; plain "B" "A"].
Definition island : Graph := mkG ["start"; "A"] [].

(** Two nodes sharing the start id, and an edge to a node that is not in
    the node list. *)
Definition twins : Graph := mkG ["start"; "start"] [].
Definition dangling : Graph := mkG ["start"] [plain "start" "X"].

Definition sN (i : string) : SerializableNode :=
  {| sn_id := i; sn_title := i; sn_prompt := "?"; sn_retryPrompt := "again?";
     sn_autoAdvance := Some false;
     anchor := Some {| x := (10 # 1)%Q; y := (-5 # 2)%Q |} |}.

Definition wire (cid : option string) : SerializableGraph :=
  {| sg_id := "g"; sg_contentId := cid; sg_name := "sample";
     sg_start := "start";
     sg_nodes := [sN "start"; sN "A"];
     sg_edges :=
       Some
       [ {| sourceIndex := 0; targetIndex := 1;
            se_rules :=
              Some [STORED_SEMANTIC_MATCH
                      (Some {| matchCandidates := [yes; no_anti] |})];
            se_mutations :=
              Some [ {| mutationType := REMOVE; mkey := "k"; mvalue := "" |} ];
            se_conditions := Some [] |} ] |}.

End Sample.

(** * Properties *)

(** ** Condition gating *)

Section Conditions.

Implicit Types (w : World) (c : Condition).

(** A Require condition lets the edge pass exactly when the key holds
    the value. *)
Lemma conditionFails_require w c :
  conditionType c = REQUIRE ->
  conditionFails w c = false <-> w !! ckey c = Some (cvalue c).
Proof.
  intros Hc. unfold conditionFails. rewrite Hc.
  rewrite orb_false_iff, !negb_false_iff, !bool_decide_eq_true.
  split; [tauto | intros H; split; [rewrite H; eauto | done]].
Qed.

(** A Forbid condition lets the edge pass exactly when the key is
    absent: the value is read only when [has] is already false. *)
Lemma conditionFails_forbid w c :
  conditionType c = FORBID ->
  conditionFails w c = false <-> w !! ckey c = None.
Proof.
  intros Hc. unfold conditionFails. rewrite Hc.
  rewrite orb_false_iff, !bool_decide_eq_false.
  rewrite <- eq_None_not_Some. split; [tauto | intros H; split; [done | by rewrite H]].
Qed.

End Conditions.

(** C1 (code at the failing input).  The edge start -> A carries
    Forbid(k, v).  In the world [{k: other}] the key does not hold the
    forbidden value, yet [getOutEdges] leaves the edge out; it is returned
    only when [k] is absent. *)
Theorem forbid_other_value_excluded :
  getOutEdges (Sample.mkN "start") Sample.forbidGraph (Some {[ "k" := "other" ]}) = []
  /\ getOutEdges (Sample.mkN "start") Sample.forbidGraph (Some {[ "k" := "v" ]}) = []
  /\ getOutEdges (Sample.mkN "start") Sample.forbidGraph (Some ∅) = [Sample.forbidEdge].
Proof. repeat split; vm_compute; reflexivity. Qed.

(** ** Edge names *)

Section EdgeName.

Definition isPositive (c : MatchCandidate) : Prop :=
  truthyBool (antiExample c) = false.

#[local] Instance isPositive_dec c : Decision (isPositive c).
Proof. unfold isPositive. apply _. Defined.

Lemma firstSemanticRule_spec pre r post :
  Forall (fun rl => exists d, rl = REPEATED_FAIL d) pre ->
  firstSemanticRule (pre ++ SEMANTIC_MATCH r :: post) = Some r.
Proof.
  induction 1 as [|rl pre [d ->] _ IH]; simpl; auto.
Qed.

Lemma firstPositiveExample_spec cs :
  firstPositiveExample cs = text <$> head (filter isPositive cs).
Proof.
  induction cs as [|c cs IH]; simpl; [done|].
  rewrite filter_cons.
  destruct (decide (isPositive c)) as [Hp|Hp]; unfold isPositive in Hp.
  - by rewrite Hp.
  - apply not_false_is_true in Hp. by rewrite Hp.
Qed.

End EdgeName.

(** C7 (as amended).  When the first semantic-match rule of an edge is
    [r], the edge's name is the text of the first candidate of [r] that is
    not an anti-example, and the empty string (not [null]) when [r] has no
    such candidate. *)
Theorem getEdgeName_first_positive (e : Edge) pre r post :
  rules e = pre ++ SEMANTIC_MATCH r :: post ->
  Forall (fun rl => exists d, rl = REPEATED_FAIL d) pre ->
  getEdgeName e =
    Some (default "" (text <$> head (filter isPositive (matchCandidates r)))).
Proof.
  intros He Hpre. unfold getEdgeName.
  rewrite He, (firstSemanticRule_spec _ _ _ Hpre), firstPositiveExample_spec.
  destruct (head _) as [c|]; simpl; [|done].
  destruct (String.eqb_spec (text c) "") as [->|]; done.
Qed.

Lemma getEdgeName_first_positive_witness :
  getEdgeName Sample.yesEdge = Some "yes".
Proof.
  apply (getEdgeName_first_positive Sample.yesEdge []
           {| matchCandidates := [Sample.yes] |} []).
  - reflexivity.
  - constructor.
Defined.

(** C7 (counterexample).  A rule whose candidates are all anti-examples
    names its edge with the empty string; [null] is not returned. *)
Lemma getEdgeName_anti_only_not_null :
  getEdgeName Sample.antiOnlyEdge = Some ""
  /\ getEdgeName Sample.antiOnlyEdge <> None.
Proof. split; [reflexivity | discriminate]. Qed.

(** ** The inference step *)

Section Evaluate.

Context (svc : SemanticMatchService) (graph : Graph) (utterance : string).

Definition onlyRepeatedFail (rs : list EdgeRule) : Prop :=
  Forall (fun rl => exists d, rl = REPEATED_FAIL d) rs.

(** Repeated-fail rules are skipped by the semantic scan. *)
Lemma scanEdge_onlyRepeatedFail e st :
  onlyRepeatedFail (rules e) -> scanEdge svc utterance e st = Ok st.
Proof.
  unfold scanEdge. generalize (rules e) as rs.
  induction 1 as [|rl rs [d ->] _ IH]; simpl; auto.
Qed.

Lemma forEach_scanEdge_onlyRepeatedFail es st :
  Forall (fun e => onlyRepeatedFail (rules e)) es ->
  forEach (scanEdge svc utterance) es st = Ok st.
Proof.
  induction 1 as [|e es He _ IH]; simpl; [done|].
  by rewrite (scanEdge_onlyRepeatedFail _ _ He).
Qed.

(** The filtered query returns part of the unfiltered one. *)
Lemma getOutEdges_world_subset n w e :
  e ∈ getOutEdges n graph w -> e ∈ getOutEdges n graph None.
Proof.
  unfold getOutEdges. rewrite !list_elem_of_filter. simpl. tauto.
Qed.

Lemma getOutEdges_None_spec n e :
  e ∈ getOutEdges n graph None <->
  e ∈ edges graph /\ id (source e) = id n.
Proof.
  unfold getOutEdges. rewrite list_elem_of_filter.
  unfold passedConditions. simpl. rewrite String.eqb_eq. tauto.
Qed.

Lemma isRepeatedFail_loop_true rs b :
  isRepeatedFail_loop rs b = true -> onlyRepeatedFail rs.
Proof.
  revert b. induction rs as [|[d|d] rs IH]; simpl; intros b H.
  - constructor.
  - discriminate.
  - constructor; [by exists d | by apply (IH true)].
Qed.

Lemma isRepeatedFail_onlyRepeatedFail e :
  isRepeatedFail e = true -> onlyRepeatedFail (rules e).
Proof. apply isRepeatedFail_loop_true. Qed.

(** What [evaluate] returns when the semantic scan found no winner. *)
Definition noMatch (st : InferenceState) (l : EvalLoop) : InferenceResult :=
  {| state := {| attemptNumber := attemptNumber st + 1;
                 node := node st; world := world st |};
     edge := None; rule := None;
     scoredSemanticMatchRules := l_scoredSemanticMatchRules l |}.

Lemma evaluate_no_winner st l :
  ready svc = true ->
  semanticScan svc graph utterance st = Ok l ->
  bestEdge l = None ->
  evaluate svc graph utterance st =
    Ok (fold_left fallbackEdge (getRepeatedFailEdges (node st) graph)
                  (noMatch st l)).
Proof.
  intros Hr Hs Hb. unfold evaluate. rewrite Hr, Hs. simpl.
  rewrite Hb. reflexivity.
Qed.

(** A node whose only out-edge carries one repeated-fail rule: the
    fallback is taken exactly when the incoming attempt number plus one
    reaches the fail count. *)
Lemma evaluate_single_fallback n e rf a w :
  ready svc = true ->
  getOutEdges n graph None = [e] ->
  rules e = [REPEATED_FAIL rf] ->
  exists r,
    evaluate svc graph utterance {| attemptNumber := a; node := n; world := w |} = Ok r
    /\ (failCount rf <= a + 1 ->
        edge r = Some e /\ rule r = Some (REPEATED_FAIL rf)
        /\ node (state r) = target e /\ attemptNumber (state r) = 0)
    /\ (a + 1 < failCount rf ->
        edge r = None /\ rule r = None
        /\ state r = {| attemptNumber := a + 1; node := n; world := w |}).
Proof.
  intros Hr Hout Hrules.
  set (st := {| attemptNumber := a; node := n; world := w |}).
  assert (Hscan : semanticScan svc graph utterance st = Ok evalInit).
  { unfold semanticScan. apply forEach_scanEdge_onlyRepeatedFail.
    apply Forall_forall. intros e' He'. simpl in He'.
    apply getOutEdges_world_subset in He'. rewrite Hout in He'.
    apply list_elem_of_singleton in He' as ->. rewrite Hrules.
    repeat constructor. eauto. }
  rewrite (evaluate_no_winner st evalInit Hr Hscan eq_refl).
  unfold getRepeatedFailEdges. simpl. rewrite Hout.
  assert (Hrf : isRepeatedFail e = true) by (unfold isRepeatedFail; by rewrite Hrules).
  rewrite filter_cons, decide_True by done. rewrite filter_nil. simpl.
  unfold fallbackEdge. rewrite Hrules. simpl.
  eexists. split; [reflexivity|].
  destruct (Z.leb_spec (failCount rf) (a + 1)); simpl; split; intros; try lia; auto.
Qed.

End Evaluate.

(** C4 (as amended).  From [attemptNumber = 0] at a node whose only
    out-edge carries a single repeated-fail rule with [failCount = 3], the
    first two calls make no transition (the attempt number becomes 1, then
    2) and the third call takes the fallback edge: the test compares the
    fail count with the attempt number already incremented for the current
    call, so the fallback fires exactly when the incoming attempt number
    plus one reaches the fail count. *)
Theorem repeated_fail_third_call svc graph n e rf w u1 u2 u3 :
  ready svc = true ->
  getOutEdges n graph None = [e] ->
  rules e = [REPEATED_FAIL rf] ->
  failCount rf = 3 ->
  (exists r1 r2 r3,
     steps svc graph [u1; u2; u3] {| attemptNumber := 0; node := n; world := w |}
       = Ok [r1; r2; r3]
     /\ edge r1 = None /\ node (state r1) = n /\ attemptNumber (state r1) = 1
     /\ edge r2 = None /\ node (state r2) = n /\ attemptNumber (state r2) = 2
     /\ edge r3 = Some e /\ rule r3 = Some (REPEATED_FAIL rf)
     /\ node (state r3) = target e /\ attemptNumber (state r3) = 0)
  /\ forall a u,
       exists r,
         evaluate svc graph u {| attemptNumber := a; node := n; world := w |} = Ok r
         /\ (edge r = Some e <-> failCount rf <= a + 1).
Proof.
  intros Hr Hout Hrules Hf. split.
  - destruct (evaluate_single_fallback svc graph u1 n e rf 0 w Hr Hout Hrules)
      as (r1 & E1 & _ & N1).
    destruct N1 as (H1e & _ & H1s); [lia|].
    destruct (evaluate_single_fallback svc graph u2 n e rf 1 w Hr Hout Hrules)
      as (r2 & E2 & _ & N2).
    destruct N2 as (H2e & _ & H2s); [lia|].
    destruct (evaluate_single_fallback svc graph u3 n e rf 2 w Hr Hout Hrules)
      as (r3 & E3 & Y3 & _).
    destruct Y3 as (H3e & H3r & H3n & H3a); [lia|].
    change (0 + 1) with 1 in H1s. change (1 + 1) with 2 in H2s.
    exists r1, r2, r3. simpl.
    rewrite E1. simpl. rewrite H1s. simpl. rewrite E2. simpl. rewrite H2s. simpl.
    rewrite E3. simpl.
    repeat split; auto.
  - intros a u.
    destruct (evaluate_single_fallback svc graph u n e rf a w Hr Hout Hrules)
      as (r & E & Hyes & Hno).
    exists r. split; [done|]. split.
    + intros He. destruct (Z.le_gt_cases (failCount rf) (a + 1)) as [|Hlt]; [done|].
      destruct (Hno Hlt) as (Hnone & _). congruence.
    + intros Hle. by destruct (Hyes Hle).
Qed.

Lemma repeated_fail_third_call_witness :
  (exists r1 r2 r3,
     steps (Sample.constScorer (3 # 4) (1 # 2)) Sample.failGraph ["a"; "b"; "c"]
           (Sample.at0 "start" ∅) = Ok [r1; r2; r3]
     /\ edge r1 = None /\ node (state r1) = Sample.mkN "start"
     /\ attemptNumber (state r1) = 1
     /\ edge r2 = None /\ node (state r2) = Sample.mkN "start"
     /\ attemptNumber (state r2) = 2
     /\ edge r3 = Some Sample.failEdge
     /\ rule r3 = Some (REPEATED_FAIL {| failMessage := None; failCount := 3 |})
     /\ node (state r3) = target Sample.failEdge
     /\ attemptNumber (state r3) = 0)
  /\ forall a u,
       exists r,
         evaluate (Sample.constScorer (3 # 4) (1 # 2)) Sample.failGraph u
                  {| attemptNumber := a; node := Sample.mkN "start"; world := Some ∅ |}
           = Ok r
         /\ (edge r = Some Sample.failEdge <-> 3 <= a + 1).
Proof.
  apply (repeated_fail_third_call (Sample.constScorer (3 # 4) (1 # 2))
           Sample.failGraph (Sample.mkN "start") Sample.failEdge
           {| failMessage := None; failCount := 3 |} (Some ∅) "a" "b" "c").
  - reflexivity.
  - vm_compute. reflexivity.
  - reflexivity.
  - reflexivity.
Defined.

(** C4 (counterexample).  With [failCount = 3] the third call already
    transitions; there is no run in which the first three calls all stay
    and the fourth one takes the fallback edge. *)
Lemma fourth_call_is_not_first_transition :
  ~ (exists r1 r2 r3 r4,
       steps (Sample.constScorer (3 # 4) (1 # 2)) Sample.failGraph
             ["a"; "b"; "c"; "d"] (Sample.at0 "start" ∅) = Ok [r1; r2; r3; r4]
       /\ edge r1 = None /\ edge r2 = None /\ edge r3 = None
       /\ attemptNumber (state r3) = 3
       /\ edge r4 = Some Sample.failEdge).
Proof.
  intros (r1 & r2 & r3 & r4 & Hs & _ & _ & H3 & _).
  vm_compute in Hs. injection Hs as _ _ <- _. discriminate H3.
Qed.

(** C2 (code at the failing input).  The fallback edge start -> A carries
    the mutation Add(k, 1).  Taken as a repeated-fail winner it moves to A
    and resets the attempt number, but the world is returned unchanged;
    the same edge taken by a semantic match yields the world [{k: 1}]. *)
Theorem fallback_skips_mutations :
  (exists r,
     evaluate (Sample.constScorer (3 # 4) (1 # 2)) Sample.failGraph "hm"
              {| attemptNumber := 2; node := Sample.mkN "start"; world := Some ∅ |}
       = Ok r
     /\ edge r = Some Sample.failEdge
     /\ node (state r) = Sample.mkN "A"
     /\ attemptNumber (state r) = 0
     /\ world (state r) = Some ∅)
  /\ (exists r,
     evaluate (Sample.constScorer (3 # 4) (1 # 1)) Sample.yesGraph "yes"
              {| attemptNumber := 2; node := Sample.mkN "start"; world := Some ∅ |}
       = Ok r
     /\ edge r = Some Sample.yesEdge
     /\ node (state r) = Sample.mkN "A"
     /\ attemptNumber (state r) = 0
     /\ world (state r) = Some {[ "k" := "1" ]})
  /\ applyMutations ∅ Sample.failEdge = {[ "k" := "1" ]}.
Proof.
  split; [|split].
  - eexists. split; [vm_compute; reflexivity|]. repeat split.
  - eexists. split; [vm_compute; reflexivity|]. repeat split.
  - vm_compute. reflexivity.
Qed.

(** ** The repeated-fail scan *)

Section Fallback.

Context (all : list Edge) (res0 : InferenceResult).

(** The result under construction is still the default one, or records
    a fallback edge of the scanned list. *)
Definition fallbackInv (res : InferenceResult) : Prop :=
  res = res0 \/
  exists e rf,
    e ∈ all /\ edge res = Some e /\ rule res = Some (REPEATED_FAIL rf)
    /\ REPEATED_FAIL rf ∈ rules e
    /\ node (state res) = target e /\ attemptNumber (state res) = 0.

Lemma fallbackRule_cases e res r :
  fallbackRule e res r = res \/
  exists rf, r = REPEATED_FAIL rf
    /\ failCount rf <= attemptNumber (state res)
    /\ edge (fallbackRule e res r) = Some e
    /\ rule (fallbackRule e res r) = Some r
    /\ node (state (fallbackRule e res r)) = target e
    /\ attemptNumber (state (fallbackRule e res r)) = 0.
Proof.
  destruct r as [d|rf]; simpl; [by left|].
  destruct (Z.leb_spec (failCount rf) (attemptNumber (state res))); [|by left].
  right. exists rf. simpl. repeat split; auto.
Qed.

Lemma fallbackRule_fires e res rf :
  failCount rf <= attemptNumber (state res) ->
  is_Some (edge (fallbackRule e res (REPEATED_FAIL rf))).
Proof.
  intros H. simpl. destruct (Z.leb_spec (failCount rf) (attemptNumber (state res)));
    [simpl; eauto | lia].
Qed.

Lemma fallbackRule_keeps e res r :
  is_Some (edge res) -> is_Some (edge (fallbackRule e res r)).
Proof.
  intros H. destruct (fallbackRule_cases e res r) as [->|(rf & _ & _ & -> & _)]; eauto.
Qed.

Lemma fallbackEdge_keeps e res :
  is_Some (edge res) -> is_Some (edge (fallbackEdge res e)).
Proof.
  unfold fallbackEdge. revert res.
  induction (rules e) as [|r rs IH]; simpl; intros res H; [done|].
  apply IH, fallbackRule_keeps, H.
Qed.

Lemma fallback_fold_keeps es res :
  is_Some (edge res) -> is_Some (edge (fold_left fallbackEdge es res)).
Proof.
  revert res. induction es as [|e es IH]; simpl; intros res H; [done|].
  apply IH, fallbackEdge_keeps, H.
Qed.

Lemma fallbackEdge_inv e res :
  e ∈ all -> fallbackInv res -> fallbackInv (fallbackEdge res e).
Proof.
  intros He. unfold fallbackEdge.
  assert (Hin : forall r, r ∈ rules e -> r ∈ rules e) by auto.
  revert res Hin. generalize (rules e) at 1 3 as rs.
  induction rs as [|r rs IH]; simpl; intros res Hin Hres; [done|].
  apply IH; [intros; apply Hin; by right|].
  destruct (fallbackRule_cases e res r) as [->|(rf & -> & _ & E1 & E2 & E3 & E4)];
    [done|].
  right. exists e, rf. repeat split; auto. apply Hin. by left.
Qed.

Lemma fallback_fold_inv es res :
  (forall e, e ∈ es -> e ∈ all) ->
  fallbackInv res -> fallbackInv (fold_left fallbackEdge es res).
Proof.
  revert res. induction es as [|e es IH]; simpl; intros res Hsub Hres; [done|].
  apply IH; [intros; apply Hsub; by right|].
  apply fallbackEdge_inv; [apply Hsub; by left | done].
Qed.

(** A rule whose fail count is reached fires unless an earlier one did. *)
Lemma fallbackEdge_complete e res rf :
  REPEATED_FAIL rf ∈ rules e ->
  failCount rf <= attemptNumber (state res) ->
  is_Some (edge (fallbackEdge res e)).
Proof.
  unfold fallbackEdge. revert res.
  induction (rules e) as [|r rs IH]; simpl; intros res Hin Hle.
  - by apply elem_of_nil in Hin.
  - apply elem_of_cons in Hin as [<-|Hin].
    + assert (H := fallbackRule_fires e res rf Hle).
      revert H. generalize (fallbackRule e res (REPEATED_FAIL rf)) as res'.
      clear. induction rs as [|r rs IH]; simpl; intros res' H; [done|].
      apply IH, fallbackRule_keeps, H.
    + destruct (fallbackRule_cases e res r) as [->|(rf' & _ & _ & E & _)]; [by apply IH|].
      assert (H : is_Some (edge (fallbackRule e res r))) by (rewrite E; eauto).
      revert H. generalize (fallbackRule e res r) as res'.
      clear. induction rs as [|r rs IH]; simpl; intros res' H; [done|].
      apply IH, fallbackRule_keeps, H.
Qed.

Lemma fallbackEdge_same_or_fired e res :
  fallbackEdge res e = res \/ is_Some (edge (fallbackEdge res e)).
Proof.
  unfold fallbackEdge. revert res.
  induction (rules e) as [|r rs IH]; simpl; intros res; [by left|].
  destruct (fallbackRule_cases e res r) as [->|(rf' & _ & _ & E & _)]; [apply IH|].
  right. assert (H : is_Some (edge (fallbackRule e res r))) by (rewrite E; eauto).
  revert H. generalize (fallbackRule e res r) as res'.
  clear. induction rs as [|r rs IH]; simpl; intros res' H; [done|].
  apply IH, fallbackRule_keeps, H.
Qed.

Lemma fallback_fold_complete es e rf :
  e ∈ es -> REPEATED_FAIL rf ∈ rules e ->
  failCount rf <= attemptNumber (state res0) ->
  forall res, res = res0 \/ is_Some (edge res) ->
  is_Some (edge (fold_left fallbackEdge es res)).
Proof.
  intros He Hrf Hle.
  induction es as [|e' es IH]; simpl; intros res Hres.
  - by apply elem_of_nil in He.
  - destruct Hres as [->|Hres]; [|by apply fallback_fold_keeps, fallbackEdge_keeps].
    apply elem_of_cons in He as [<-|He].
    + apply fallback_fold_keeps. by apply fallbackEdge_complete with rf.
    + apply IH; [done|].
      destruct (fallbackEdge_same_or_fired e' res0) as [->|H]; auto.
Qed.

End Fallback.

(** The fallback scan in general.  When the semantic scan has no winner,
    the fallback scan ranges over the out-edges of the node taken without
    any world (every edge of the graph leaving the node), restricted to
    edges whose rules are all repeated-fail rules: a fallback that is taken
    is such an edge, and such an edge with a rule whose fail count is
    reached makes the step transition, whatever its conditions and whatever
    the world. *)
Theorem fallback_scan_unfiltered svc graph utterance st l :
  ready svc = true ->
  semanticScan svc graph utterance st = Ok l ->
  bestEdge l = None ->
  exists r,
    evaluate svc graph utterance st = Ok r
    /\ (forall e, edge r = Some e ->
          e ∈ edges graph /\ id (source e) = id (node st)
          /\ isRepeatedFail e = true
          /\ exists rf, rule r = Some (REPEATED_FAIL rf)
                        /\ REPEATED_FAIL rf ∈ rules e)
    /\ (forall e rf,
          e ∈ edges graph -> id (source e) = id (node st) ->
          isRepeatedFail e = true ->
          REPEATED_FAIL rf ∈ rules e ->
          failCount rf <= attemptNumber st + 1 ->
          is_Some (edge r)).
Proof.
  intros Hr Hs Hb.
  rewrite (evaluate_no_winner svc graph utterance st l Hr Hs Hb).
  eexists. split; [reflexivity|].
  assert (Hmem : forall e, e ∈ getRepeatedFailEdges (node st) graph <->
                   (e ∈ edges graph /\ id (source e) = id (node st))
                   /\ isRepeatedFail e = true).
  { intros e. unfold getRepeatedFailEdges.
    rewrite list_elem_of_filter, getOutEdges_None_spec. tauto. }
  split.
  - intros e He.
    destruct (fallback_fold_inv (getRepeatedFailEdges (node st) graph)
                (noMatch st l)
                (getRepeatedFailEdges (node st) graph)
                (noMatch st l))
      as [E|(e' & rf & Hin & E1 & E2 & E3 & _)]; [auto | by left | |].
    + rewrite E in He. discriminate.
    + rewrite E1 in He. injection He as <-.
      apply Hmem in Hin as [[? ?] ?]. eauto 10.
  - intros e rf H1 H2 H3 H4 H5.
    apply (fallback_fold_complete (noMatch st l) _ e rf);
      [by apply Hmem | done | done | by left].
Qed.

Lemma fallback_scan_unfiltered_witness :
  exists r,
    evaluate (Sample.constScorer (3 # 4) (1 # 2)) Sample.guardedFailGraph "hm"
             (Sample.at0 "start" ∅) = Ok r
    /\ (forall e, edge r = Some e ->
          e ∈ edges Sample.guardedFailGraph
          /\ id (source e) = id (node (Sample.at0 "start" ∅))
          /\ isRepeatedFail e = true
          /\ exists rf, rule r = Some (REPEATED_FAIL rf)
                        /\ REPEATED_FAIL rf ∈ rules e)
    /\ (forall e rf,
          e ∈ edges Sample.guardedFailGraph ->
          id (source e) = id (node (Sample.at0 "start" ∅)) ->
          isRepeatedFail e = true ->
          REPEATED_FAIL rf ∈ rules e ->
          failCount rf <= attemptNumber (Sample.at0 "start" ∅) + 1 ->
          is_Some (edge r)).
Proof.
  apply (fallback_scan_unfiltered (Sample.constScorer (3 # 4) (1 # 2))
           Sample.guardedFailGraph "hm" (Sample.at0 "start" ∅) evalInit).
  - reflexivity.
  - vm_compute. reflexivity.
  - reflexivity.
Defined.

(** C3 (code at the failing input).  The only edge out of start requires
    [k = v]; in the empty world its conditions fail and the filtered
    out-edge query, which the semantic scan of the same call uses, returns
    nothing, yet the step takes the edge as a fallback:
    [getRepeatedFailEdges] passes no world on. *)
Theorem fallback_taken_despite_conditions :
  getOutEdges (Sample.mkN "start") Sample.guardedFailGraph (Some ∅) = []
  /\ passedConditions (Some ∅) Sample.guardedFailEdge = false
  /\ exists r,
       evaluate (Sample.constScorer (3 # 4) (1 # 2)) Sample.guardedFailGraph "hm"
                (Sample.at0 "start" ∅) = Ok r
       /\ edge r = Some Sample.guardedFailEdge.
Proof.
  split; [vm_compute; reflexivity|]. split; [vm_compute; reflexivity|].
  eexists. split; [vm_compute; reflexivity|]. reflexivity.
Qed.

(** ** Scoring one semantic-match rule *)

Section CheckRule.

Context (scores : list Q) (all : list MatchCandidate).

(** Among the first [n] scores, [m] at position [k] is the first
    largest one, and it exceeds the initial running maximum [-1]. *)
Definition isTop (n k : nat) (m : Q) : Prop :=
  (k < n)%nat /\ scores !! k = Some m /\ (-1 < m)%Q
  /\ (forall j s, (j < n)%nat -> scores !! j = Some s -> (s <= m)%Q)
  /\ (forall j s, (j < k)%nat -> scores !! j = Some s -> (s < m)%Q).

(** None of the first [n] scores exceeds [-1]. *)
Definition noTop (n : nat) : Prop :=
  forall j s, (j < n)%nat -> scores !! j = Some s -> (s <= -1)%Q.

(** Loop invariant of [checkLoop] after [n] candidates. *)
Definition checkInv (n : nat) (st : MatchLoop) : Prop :=
  (l_maxIndex st = -1 /\ l_maxScore st = (-1)%Q /\ noTop n)
  \/ exists k c,
       l_maxIndex st = Z.of_nat k /\ isTop n k (l_maxScore st)
       /\ all !! k = Some c
       /\ l_maxPositive st = negb (truthyBool (antiExample c)).

Definition unscored (i : nat) (j : nat) (c : MatchCandidate) : ScoredCandidate :=
  {| candidate := c; score := scores !! (i + j)%nat; topScore := false |}.

Lemma checkLoop_scored cands i st :
  l_scoredCandidates (checkLoop scores cands i st)
  = l_scoredCandidates st ++ imap (unscored i) cands.
Proof.
  revert i st. induction cands as [|c cands IH]; intros i st; simpl.
  - by rewrite app_nil_r.
  - rewrite IH. destruct (jsGt _ _); simpl; rewrite <- app_assoc; simpl;
      unfold unscored at 2; rewrite Nat.add_0_r; do 2 f_equal;
      apply imap_ext; intros j c' _; unfold unscored; simpl;
      by rewrite Nat.add_succ_r.
Qed.

Lemma checkInv_step n st c :
  all !! n = Some c ->
  checkInv n st ->
  checkInv (S n)
    (if jsGt (scores !! n) (l_maxScore st)
     then {| l_maxIndex := Z.of_nat n;
             l_maxScore := default (l_maxScore st) (scores !! n);
             l_maxPositive := negb (truthyBool (antiExample c));
             l_scoredCandidates := [] |}
     else {| l_maxIndex := l_maxIndex st;
             l_maxScore := l_maxScore st;
             l_maxPositive := l_maxPositive st;
             l_scoredCandidates := [] |}).
Proof.
  intros Hc Hinv.
  destruct (scores !! n) as [s|] eqn:Hs; simpl.
  - destruct (Qltb (l_maxScore st) s) eqn:Hlt.
    + apply Qltb_lt in Hlt. right. exists n, c. simpl.
      split; [done|]. split; [|done].
      destruct Hinv as [(_ & Hm & Hno)|(k & c' & _ & (Hk & Hsk & Hm1 & Hle & _) & _)].
      * rewrite Hm in Hlt. split_and!; [lia | done | done | |].
        -- intros j s' Hj Hs'. destruct (decide (j = n)) as [->|].
           ++ rewrite Hs in Hs'. injection Hs' as <-. lra.
           ++ assert (s' <= -1)%Q by (apply (Hno j); [lia | done]). lra.
        -- intros j s' Hj Hs'. assert (s' <= -1)%Q by (apply (Hno j); done). lra.
      * split_and!; [lia | done | lra | |].
        -- intros j s' Hj Hs'. destruct (decide (j = n)) as [->|].
           ++ rewrite Hs in Hs'. injection Hs' as <-. lra.
           ++ assert (s' <= l_maxScore st)%Q by (apply (Hle j); [lia | done]). lra.
        -- intros j s' Hj Hs'.
           assert (s' <= l_maxScore st)%Q by (apply (Hle j); [lia | done]). lra.
    + apply Qltb_ge in Hlt.
      destruct Hinv as [(Hi & Hm & Hno)|(k & c' & Hi & (Hk & Hsk & Hm1 & Hle & Hlt') & Hc' & Hp)].
      * left. simpl. split_and!; [done | done |].
        intros j s' Hj Hs'. destruct (decide (j = n)) as [->|].
        -- rewrite Hs in Hs'. injection Hs' as <-. rewrite Hm in Hlt. done.
        -- apply (Hno j); [lia | done].
      * right. exists k, c'. simpl. split; [done|]. split; [|done].
        split_and!; [lia | done | done | | done].
        intros j s' Hj Hs'. destruct (decide (j = n)) as [->|].
        -- rewrite Hs in Hs'. by injection Hs' as <-.
        -- apply (Hle j); [lia | done].
  - destruct Hinv as [(Hi & Hm & Hno)|(k & c' & Hi & (Hk & Hsk & Hm1 & Hle & Hlt') & Hc' & Hp)].
    + left. simpl. split_and!; [done | done |].
      intros j s' Hj Hs'. destruct (decide (j = n)) as [->|]; [congruence|].
      apply (Hno j); [lia | done].
    + right. exists k, c'. simpl. split; [done|]. split; [|done].
        split_and!; [lia | done | done | | done].
      intros j s' Hj Hs'. destruct (decide (j = n)) as [->|]; [congruence|].
      apply (Hle j); [lia | done].
Qed.

Lemma checkLoop_inv cands i st :
  (forall j c, cands !! j = Some c -> all !! (i + j)%nat = Some c) ->
  checkInv i st ->
  checkInv (i + length cands) (checkLoop scores cands i st).
Proof.
  revert i st. induction cands as [|c cands IH]; intros i st Hall Hinv; simpl.
  - by rewrite Nat.add_0_r.
  - rewrite Nat.add_succ_r, <- Nat.add_succ_l. apply IH.
    + intros j c' Hj. rewrite Nat.add_succ_l, <- Nat.add_succ_r. by apply Hall.
    + assert (Hc : all !! i = Some c).
      { specialize (Hall 0%nat c eq_refl). by rewrite Nat.add_0_r in Hall. }
      pose proof (checkInv_step i st c Hc Hinv) as Hstep.
      destruct (jsGt (scores !! i) (l_maxScore st)); exact Hstep.
Qed.

End CheckRule.

Section CheckRuleResult.

Context (svc : SemanticMatchService) (utterance : string).

(** The scores the scorer returns for a rule. *)
Definition scoresFor (r : SemanticMatchRule) : list Q :=
  semanticSimilarity svc utterance (map text (matchCandidates r)).

(** The reported list: every candidate with its score, the flag set at
    position [k] only. *)
Definition scoredWithTop (scores : list Q) (k : nat) (cs : list MatchCandidate)
  : list ScoredCandidate :=
  imap (fun j c => {| candidate := c; score := scores !! j;
                      topScore := bool_decide (j = k) |}) cs.

Lemma insert_top scores k c cs :
  cs !! k = Some c ->
  <[k := setTopScore (unscored scores 0 k c)]> (imap (unscored scores 0) cs)
  = scoredWithTop scores k cs.
Proof.
  intros Hc. apply list_eq. intros j. unfold scoredWithTop.
  destruct (decide (k = j)) as [<-|Hne].
  - rewrite list_lookup_insert_eq
      by (rewrite length_imap; by apply lookup_lt_Some with c).
    rewrite list_lookup_imap, Hc. simpl. by rewrite bool_decide_eq_true_2.
  - rewrite list_lookup_insert_ne by done. rewrite !list_lookup_imap.
    destruct (cs !! j); simpl; [|done].
    by rewrite bool_decide_eq_false_2 by congruence.
Qed.

(** The two outcomes of [checkSemanticMatchRule] on a rule that has
    candidates. *)
Lemma checkSemanticMatchRule_cases r :
  matchCandidates r <> [] ->
  (noTop (scoresFor r) (length (matchCandidates r))
   /\ checkSemanticMatchRule svc utterance r = Throw TypeError)
  \/ exists k c m,
       matchCandidates r !! k = Some c
       /\ isTop (scoresFor r) (length (matchCandidates r)) k m
       /\ checkSemanticMatchRule svc utterance r
          = Ok {| maxScore := if truthyBool (antiExample c) then None else Some m;
                  scoredCandidates :=
                    scoredWithTop (scoresFor r) k (matchCandidates r) |}.
Proof.
  intros Hne. unfold checkSemanticMatchRule.
  destruct (matchCandidates r) as [|c0 cs] eqn:E; [done|]. rewrite <- E.
  fold (scoresFor r).
  set (init := {| l_maxIndex := -1; l_maxScore := (-1)%Q;
                  l_maxPositive := false; l_scoredCandidates := [] |}).
  assert (Hinit : checkInv (scoresFor r) (matchCandidates r) 0 init).
  { left. repeat split. intros j s Hj. lia. }
  pose proof (checkLoop_inv (scoresFor r) (matchCandidates r)
                (matchCandidates r) 0 init (fun j c H => H) Hinit) as Hinv.
  pose proof (checkLoop_scored (scoresFor r) (matchCandidates r) 0 init) as Hsc.
  simpl in Hinv, Hsc.
  destruct Hinv as [(Hi & _ & Hno)|(k & c & Hi & Htop & Hc & Hp)].
  - left. split; [done|]. unfold updateAt. by rewrite Hi.
  - right. exists k, c, (l_maxScore (checkLoop (scoresFor r) (matchCandidates r) 0 init)).
    split; [done|]. split; [done|].
    unfold updateAt. rewrite Hi, Hsc.
    destruct (Z.ltb_spec (Z.of_nat k) 0) as [?|_]; [lia|].
    rewrite Nat2Z.id, list_lookup_imap, Hc. simpl.
    rewrite (insert_top _ _ _ _ Hc), Hp.
    by destruct (truthyBool (antiExample c)).
Qed.

Lemma checkSemanticMatchRule_throws_TypeError r e :
  checkSemanticMatchRule svc utterance r = Throw e -> e = TypeError.
Proof.
  destruct (matchCandidates r) as [|c0 cs] eqn:E.
  - unfold checkSemanticMatchRule. by rewrite E.
  - destruct (checkSemanticMatchRule_cases r) as [[_ ->]|(k & c & m & _ & _ & ->)];
      [by rewrite E | congruence | done].
Qed.

End CheckRuleResult.

(** C5 (as amended).  For a rule with candidates and scores among which
    one exceeds [-1], the top-score candidate is the one at the first
    position attaining the largest score; the rule's qualifying score is
    that score exactly when the candidate is not an anti-example, and is
    absent otherwise; the scored-candidate list is reported in both cases,
    flagged at that position. *)
Theorem top_candidate_first_max svc utterance r :
  (exists j s, (j < length (matchCandidates r))%nat
               /\ scoresFor svc utterance r !! j = Some s /\ (-1 < s)%Q) ->
  exists k c m res,
    checkSemanticMatchRule svc utterance r = Ok res
    /\ matchCandidates r !! k = Some c
    /\ isTop (scoresFor svc utterance r) (length (matchCandidates r)) k m
    /\ maxScore res = (if truthyBool (antiExample c) then None else Some m)
    /\ scoredCandidates res
       = scoredWithTop (scoresFor svc utterance r) k (matchCandidates r).
Proof.
  intros (j & s & Hj & Hs & Hgt).
  assert (Hne : matchCandidates r <> []).
  { intros E. rewrite E in Hj. simpl in Hj. lia. }
  destruct (checkSemanticMatchRule_cases svc utterance r Hne)
    as [[Hno _]|(k & c & m & Hc & Htop & ->)].
  - specialize (Hno j s Hj Hs). lra.
  - exists k, c, m. eexists. split; [reflexivity|]. simpl. auto.
Qed.

Lemma top_candidate_first_max_witness :
  exists k c m res,
    checkSemanticMatchRule (Sample.listScorer (1 # 2) [(7 # 8); (15 # 16)]%Q) "yes"
      {| matchCandidates := [Sample.yes; Sample.no_anti] |} = Ok res
    /\ [Sample.yes; Sample.no_anti] !! k = Some c
    /\ isTop [(7 # 8); (15 # 16)]%Q 2 k m
    /\ maxScore res = (if truthyBool (antiExample c) then None else Some m)
    /\ scoredCandidates res
       = scoredWithTop [(7 # 8); (15 # 16)]%Q k [Sample.yes; Sample.no_anti].
Proof.
  apply (top_candidate_first_max
           (Sample.listScorer (1 # 2) [(7 # 8); (15 # 16)]%Q) "yes"
           {| matchCandidates := [Sample.yes; Sample.no_anti] |}).
  exists 0%nat, (7 # 8)%Q. split; [simpl; lia|]. split; [reflexivity|].
  reflexivity.
Defined.

(** C5 (counterexample).  A single candidate scored [-1]: the score does
    not exceed the initial running maximum, no position is marked and no
    result is returned. *)
Lemma no_top_candidate_at_minus_one :
  ~ (exists res,
       checkSemanticMatchRule (Sample.listScorer (1 # 2) [(-1 # 1)%Q]) "yes"
         {| matchCandidates := [Sample.yes] |} = Ok res).
Proof. intros [res H]. vm_compute in H. discriminate H. Qed.

(** ** Exceptions of the semantic scan *)

Section ScanThrows.

Context (svc : SemanticMatchService) (utterance : string).

Lemma forEach_throws {A S : Type} (body : A -> S -> result S) (P : exn -> Prop)
    (l : list A) (a : A) :
  (forall b s e, body b s = Throw e -> P e) ->
  (forall s, exists e, body a s = Throw e) ->
  a ∈ l ->
  forall s, exists e, forEach body l s = Throw e /\ P e.
Proof.
  intros Hall Ha. induction l as [|b l IH]; intros Hin s.
  - by apply elem_of_nil in Hin.
  - simpl. destruct (body b s) as [s'|e] eqn:E; simpl.
    + apply elem_of_cons in Hin as [->|Hin]; [|by apply IH].
      destruct (Ha s) as [e' He']. congruence.
    + exists e. split; [done|]. by apply (Hall b s).
Qed.

Lemma scanRule_throws_TypeError e r st x :
  scanRule svc utterance e r st = Throw x -> x = TypeError.
Proof.
  destruct r as [d|d]; simpl; [|done].
  destruct (checkSemanticMatchRule svc utterance d) as [res|x'] eqn:E; simpl.
  - by destruct (_ && _).
  - intros [= <-]. by apply checkSemanticMatchRule_throws_TypeError in E.
Qed.

Lemma forEach_throws_TypeError {A S : Type} (body : A -> S -> result S) l s x :
  (forall b s e, body b s = Throw e -> e = TypeError) ->
  forEach body l s = Throw x -> x = TypeError.
Proof.
  intros Hall. revert s. induction l as [|b l IH]; simpl; intros s; [done|].
  destruct (body b s) as [s'|e] eqn:E; simpl; [apply IH|].
  intros [= <-]. by apply (Hall b s).
Qed.

Lemma scanEdge_throws_TypeError e st x :
  scanEdge svc utterance e st = Throw x -> x = TypeError.
Proof. apply forEach_throws_TypeError, scanRule_throws_TypeError. Qed.

(** A rule on which scoring raises makes the whole scan raise. *)
Lemma semanticScan_throws graph st e d :
  e ∈ getOutEdges (node st) graph (world st) ->
  SEMANTIC_MATCH d ∈ rules e ->
  checkSemanticMatchRule svc utterance d = Throw TypeError ->
  semanticScan svc graph utterance st = Throw TypeError.
Proof.
  intros He Hd Hthrow. unfold semanticScan.
  destruct (forEach_throws (scanEdge svc utterance) (fun x => x = TypeError)
              (getOutEdges (node st) graph (world st)) e) with (s := evalInit)
    as (x & -> & ->); auto.
  - intros b s x. apply scanEdge_throws_TypeError.
  - intros s. unfold scanEdge.
    destruct (forEach_throws (scanRule svc utterance e) (fun x => x = TypeError)
                (rules e) (SEMANTIC_MATCH d)) with (s := s)
      as (x & -> & _); eauto.
    + intros b s' x. apply scanRule_throws_TypeError.
    + intros s'. simpl. rewrite Hthrow. simpl. eauto.
Qed.

End ScanThrows.

(** C10.  For a rule with candidates, [checkSemanticMatchRule] raises
    (the read of [scoredCandidates[-1]]) exactly when none of the scores
    of its candidates exceeds [-1], and returns a result exactly when one
    does; when such a rule sits on an out-edge that passes its conditions,
    the whole [evaluate] call raises. *)
Theorem scores_at_most_minus_one_abort svc utterance r :
  matchCandidates r <> [] ->
  (checkSemanticMatchRule svc utterance r = Throw TypeError
   <-> noTop (scoresFor svc utterance r) (length (matchCandidates r)))
  /\ ((exists res, checkSemanticMatchRule svc utterance r = Ok res)
      <-> exists j s, (j < length (matchCandidates r))%nat
                      /\ scoresFor svc utterance r !! j = Some s /\ (-1 < s)%Q)
  /\ (forall graph st e,
        ready svc = true ->
        e ∈ getOutEdges (node st) graph (world st) ->
        SEMANTIC_MATCH r ∈ rules e ->
        noTop (scoresFor svc utterance r) (length (matchCandidates r)) ->
        evaluate svc graph utterance st = Throw TypeError).
Proof.
  intros Hne.
  assert (Hiff : checkSemanticMatchRule svc utterance r = Throw TypeError
                 <-> noTop (scoresFor svc utterance r) (length (matchCandidates r))).
  { destruct (checkSemanticMatchRule_cases svc utterance r Hne)
      as [[Hno E]|(k & c & m & Hc & (Hk & Hs & Hm & _) & E)].
    - tauto.
    - split; [rewrite E; discriminate|].
      intros Hno. specialize (Hno k m Hk Hs). lra. }
  split; [exact Hiff|]. split.
  - destruct (checkSemanticMatchRule_cases svc utterance r Hne)
      as [[Hno E]|(k & c & m & Hc & (Hk & Hs & Hm & _) & E)].
    + split.
      * intros [res H]. congruence.
      * intros (j & s & Hj & Hs & Hgt). specialize (Hno j s Hj Hs). lra.
    + split; [intros _; eauto | intros _; eauto].
  - intros graph st e Hr He Hin Hno. unfold evaluate. rewrite Hr. simpl.
    rewrite (semanticScan_throws svc utterance graph st e r He Hin); [done|].
    by apply Hiff.
Qed.

Lemma scores_at_most_minus_one_abort_witness :
  (checkSemanticMatchRule (Sample.constScorer (3 # 4) (-1 # 1)) "yes"
     {| matchCandidates := [Sample.yes] |} = Throw TypeError
   <-> noTop (scoresFor (Sample.constScorer (3 # 4) (-1 # 1)) "yes"
                {| matchCandidates := [Sample.yes] |}) 1)
  /\ ((exists res,
         checkSemanticMatchRule (Sample.constScorer (3 # 4) (-1 # 1)) "yes"
           {| matchCandidates := [Sample.yes] |} = Ok res)
      <-> exists j s, (j < 1)%nat
            /\ scoresFor (Sample.constScorer (3 # 4) (-1 # 1)) "yes"
                 {| matchCandidates := [Sample.yes] |} !! j = Some s
            /\ (-1 < s)%Q)
  /\ (forall graph st e,
        ready (Sample.constScorer (3 # 4) (-1 # 1)) = true ->
        e ∈ getOutEdges (node st) graph (world st) ->
        SEMANTIC_MATCH {| matchCandidates := [Sample.yes] |} ∈ rules e ->
        noTop (scoresFor (Sample.constScorer (3 # 4) (-1 # 1)) "yes"
                 {| matchCandidates := [Sample.yes] |}) 1 ->
        evaluate (Sample.constScorer (3 # 4) (-1 # 1)) graph "yes" st
          = Throw TypeError).
Proof.
  apply (scores_at_most_minus_one_abort (Sample.constScorer (3 # 4) (-1 # 1))
           "yes" {| matchCandidates := [Sample.yes] |}).
  discriminate.
Defined.

(** ** The winner of the semantic scan *)

Section Winner.

Context (svc : SemanticMatchService) (utterance : string).

(** A rule examined by the scan, with the edge and rule object it sits
    on. *)
Abbreviation Examined := (Edge * EdgeRule * SemanticMatchRule)%type.

Definition examinedRule (e : Edge) (r : EdgeRule) : list Examined :=
  match r with
  | SEMANTIC_MATCH d => [(e, r, d)]
  | REPEATED_FAIL _ => []
  end.

Definition examinedEdge (e : Edge) : list Examined :=
  flat_map (examinedRule e) (rules e).

(** Semantic-match rules in edge-list order, then rule-list order. *)
Definition examined (graph : Graph) (st : InferenceState) : list Examined :=
  flat_map examinedEdge (getOutEdges (node st) graph (world st)).

(** The qualifying score of a rule: its top score unless scoring raised,
    the rule has no candidate, or the top candidate is an
    anti-example. *)
Definition qualifyingScore (d : SemanticMatchRule) : option Q :=
  match checkSemanticMatchRule svc utterance d with
  | Ok res => maxScore res
  | Throw _ => None
  end.

(** A score that can win: above the threshold and above the initial
    best score [0]. *)
Definition eligible (q : Q) : Prop :=
  (getThreshold svc < q)%Q /\ (0 < q)%Q.

(** [k] is the first position among [ex] holding the largest
    qualifying score [q], and [q] is eligible. *)
Definition isWinner (ex : list Examined) (k : nat) (x : Examined) (q : Q) : Prop :=
  ex !! k = Some x /\ qualifyingScore x.2 = Some q /\ eligible q
  /\ (forall j y q', ex !! j = Some y -> qualifyingScore y.2 = Some q' -> (q' <= q)%Q)
  /\ (forall j y q', (j < k)%nat -> ex !! j = Some y ->
                     qualifyingScore y.2 = Some q' -> (q' < q)%Q).

Definition noWinner (ex : list Examined) : Prop :=
  forall j y q, ex !! j = Some y -> qualifyingScore y.2 = Some q -> ~ eligible q.

(** Loop invariant of the scan after the rules [ex] were examined. *)
Definition scanInv (ex : list Examined) (l : EvalLoop) : Prop :=
  semanticMatchRuleIndex l = Z.of_nat (length ex) - 1
  /\ length (l_scoredSemanticMatchRules l) = length ex
  /\ match bestEdge l with
     | None => (bestScore l <= 0)%Q /\ (0 <= bestScore l)%Q /\ noWinner ex
     | Some be =>
         exists k r d,
           bestRule l = Some r
           /\ bestSemanticMatchRuleIndex l = Z.of_nat k
           /\ isWinner ex k (be, r, d) (bestScore l)
     end.

Lemma forEach_inv {A S X : Type} (body : A -> S -> result S)
    (f : A -> list X) (I : list X -> S -> Prop) :
  (forall a pre s s', I pre s -> body a s = Ok s' -> I (pre ++ f a) s') ->
  forall l pre s s',
    I pre s -> forEach body l s = Ok s' -> I (pre ++ flat_map f l) s'.
Proof.
  intros Hstep. induction l as [|a l IH]; simpl; intros pre s s' HI Hrun.
  - injection Hrun as <-. by rewrite app_nil_r.
  - destruct (body a s) as [s1|] eqn:E; simpl in Hrun; [|done].
    rewrite app_assoc. eapply IH; [|exact Hrun]. by eapply Hstep.
Qed.

Lemma isWinner_snoc_keep ex k x q y :
  isWinner ex k x q ->
  (forall q', qualifyingScore y.2 = Some q' -> (q' <= q)%Q) ->
  isWinner (ex ++ [y]) k x q.
Proof.
  intros (Hk & Hq & He & Hle & Hlt) Hy.
  assert (Hlen : (k < length ex)%nat) by (by apply lookup_lt_Some with x).
  split_and!; [by rewrite lookup_app_l | done | done | |].
  - intros j z q' Hj Hz.
    destruct (decide (j < length ex)%nat) as [Hl|Hl].
    + rewrite lookup_app_l in Hj by done. by apply (Hle j z).
    + rewrite lookup_app_r in Hj by lia.
      destruct (j - length ex)%nat; simpl in Hj; [|done].
      injection Hj as <-. by apply Hy.
  - intros j z q' Hjk Hj Hz. rewrite lookup_app_l in Hj by lia.
    by apply (Hlt j z).
Qed.

Lemma noWinner_snoc ex y :
  noWinner ex ->
  (forall q', qualifyingScore y.2 = Some q' -> ~ eligible q') ->
  noWinner (ex ++ [y]).
Proof.
  intros Hno Hy j z q Hj Hz.
  destruct (decide (j < length ex)%nat) as [Hl|Hl].
  - rewrite lookup_app_l in Hj by done. by apply (Hno j z).
  - rewrite lookup_app_r in Hj by lia.
    destruct (j - length ex)%nat; simpl in Hj; [|done].
    injection Hj as <-. by apply Hy.
Qed.

Lemma scanRule_inv e r ex l l' :
  scanInv ex l ->
  scanRule svc utterance e r l = Ok l' ->
  scanInv (ex ++ examinedRule e r) l'.
Proof.
  intros (Hidx & Hlen & Hbest) Hrun.
  destruct r as [d|d]; simpl in *;
    [|injection Hrun as <-; rewrite app_nil_r; by split_and!].
  destruct (checkSemanticMatchRule svc utterance d) as [res|] eqn:E;
    simpl in Hrun; [|done].
  assert (Hq : qualifyingScore d = maxScore res)
    by (unfold qualifyingScore; by rewrite E).
  destruct (truthyNum (maxScore res) && jsGt (maxScore res) (getThreshold svc)
            && jsGt (maxScore res) (bestScore l)) eqn:Hcond;
    injection Hrun as <-; simpl;
    (split; [rewrite length_app; simpl; lia|]);
    (split; [simpl; rewrite !length_app; simpl; lia|]).
  - (* the rule becomes the best one *)
    apply andb_prop in Hcond as [Hcond Hgt]. apply andb_prop in Hcond as [_ Hthr].
    destruct (maxScore res) as [q|] eqn:Hmax; [|done]. simpl in *.
    apply Qltb_lt in Hgt, Hthr.
    exists (length ex), (SEMANTIC_MATCH d), d.
    split; [done|]. split; [lia|].
    assert (Hpos : (0 <= bestScore l)%Q).
    { destruct (bestEdge l); [|tauto].
      destruct Hbest as (k & r & d' & _ & _ & _ & _ & [_ ?] & _). lra. }
    assert (Hold : forall j y q', ex !! j = Some y ->
                     qualifyingScore y.2 = Some q' -> (q' < q)%Q).
    { intros j y q' Hj Hy. destruct (bestEdge l) as [be|].
      - destruct Hbest as (k & r & d' & _ & _ & _ & _ & _ & Hle & _).
        specialize (Hle j y q' Hj Hy). lra.
      - destruct Hbest as (Hz & _ & Hno).
        specialize (Hno j y q' Hj Hy). unfold eligible in Hno.
        destruct (Qlt_le_dec (getThreshold svc) q'); [|lra].
        destruct (Qlt_le_dec 0 q'); [tauto | lra]. }
    split_and!.
    + by rewrite lookup_app_r, Nat.sub_diag by lia.
    + done.
    + split; lra.
    + intros j y q' Hj Hy.
      destruct (decide (j < length ex)%nat) as [Hl|Hl].
      * rewrite lookup_app_l in Hj by done.
        specialize (Hold j y q' Hj Hy). lra.
      * rewrite lookup_app_r in Hj by lia.
        destruct (j - length ex)%nat; simpl in Hj; [|done].
        injection Hj as <-. simpl in Hy. rewrite Hq in Hy.
        injection Hy as <-. lra.
    + intros j y q' Hjk Hj Hy. rewrite lookup_app_l in Hj by lia.
      by apply (Hold j y q').
  - (* the best rule stays *)
    assert (Hnot : forall q, maxScore res = Some q ->
              (q == 0)%Q \/ (q <= getThreshold svc)%Q \/ (q <= bestScore l)%Q).
    { intros q Hmax. rewrite Hmax in Hcond. simpl in Hcond.
      apply andb_false_iff in Hcond as [Hcond|Hcond];
        [apply andb_false_iff in Hcond as [Hcond|Hcond]|].
      - left. apply negb_false_iff in Hcond. by apply Qeq_bool_iff.
      - right; left. by apply Qltb_ge.
      - right; right. by apply Qltb_ge. }
    destruct (bestEdge l) as [be|].
    + destruct Hbest as (k & r & d' & Hr & Hk & Hw).
      exists k, r, d'. split; [done|]. split; [done|].
      apply isWinner_snoc_keep; [done|].
      intros q' Hq'. simpl in Hq'. rewrite Hq in Hq'.
      destruct Hw as (_ & _ & [? ?] & _).
      unfold eligible in *. simpl.
      destruct (Hnot q' Hq') as [?|[?|?]]; lra.
    + destruct Hbest as (Hz & Hz' & Hno). split; [done|]. split; [done|].
      apply noWinner_snoc; [done|].
      intros q' Hq' [? ?]. simpl in *. rewrite Hq in Hq'.
      destruct (Hnot q' Hq') as [?|[?|?]]; lra.
Qed.

Lemma scanEdge_inv e ex l l' :
  scanInv ex l ->
  scanEdge svc utterance e l = Ok l' ->
  scanInv (ex ++ examinedEdge e) l'.
Proof.
  apply (forEach_inv (scanRule svc utterance e) (examinedRule e) scanInv).
  intros r pre s s'. apply scanRule_inv.
Qed.

Lemma semanticScan_inv graph st l :
  semanticScan svc graph utterance st = Ok l ->
  scanInv (examined graph st) l.
Proof.
  intros Hrun. unfold examined.
  apply (forEach_inv (scanEdge svc utterance) examinedEdge scanInv
           (fun e pre s s' => scanEdge_inv e pre s s') _ [] evalInit l);
    [|exact Hrun].
  unfold scanInv. simpl. split_and!; [lia | done | lra | lra |].
  intros j y q Hj. done.
Qed.

End Winner.

Section ScanTotal.

Context (svc : SemanticMatchService) (utterance : string).

Lemma forEach_ok {A S : Type} (body : A -> S -> result S) (l : list A) :
  (forall a s, a ∈ l -> exists s', body a s = Ok s') ->
  forall s, exists s', forEach body l s = Ok s'.
Proof.
  induction l as [|a l IH]; intros Hok s; simpl; [eauto|].
  destruct (Hok a s) as [s1 ->]; [by left|]. simpl.
  apply IH. intros b s' Hb. apply Hok. by right.
Qed.

Lemma examined_elem_of graph st e d :
  e ∈ getOutEdges (node st) graph (world st) ->
  SEMANTIC_MATCH d ∈ rules e ->
  (e, SEMANTIC_MATCH d, d) ∈ examined graph st.
Proof.
  intros He Hd. apply list_elem_of_In, in_flat_map. exists e.
  split; [by apply list_elem_of_In|]. apply in_flat_map. exists (SEMANTIC_MATCH d).
  split; [by apply list_elem_of_In | by left].
Qed.

(** The scan returns when scoring returns for every examined rule. *)
Lemma semanticScan_total graph st :
  (forall x, x ∈ examined graph st ->
             exists res, checkSemanticMatchRule svc utterance x.2 = Ok res) ->
  exists l, semanticScan svc graph utterance st = Ok l.
Proof.
  intros Hok. unfold semanticScan. apply forEach_ok. intros e l He.
  unfold scanEdge. apply forEach_ok. intros r l' Hr.
  destruct r as [d|d]; simpl; [|eauto].
  destruct (Hok _ (examined_elem_of graph st e d He Hr)) as [res Hres].
  simpl in Hres. rewrite Hres. simpl.
  destruct (_ && _); eauto.
Qed.

End ScanTotal.

(** C6 (as amended).  Over the semantic-match rules on the
    condition-filtered out-edges, in edge-list then rule-list order: the
    scan returns whenever scoring returns for each of these rules, and
    then the winner is the first rule holding the largest qualifying
    score, provided that score is strictly above the threshold and
    strictly above [0], the initial best score; [evaluate] then returns
    that edge and rule.  There is no winner exactly when no qualifying
    score is above both bounds; a score equal to the threshold is not. *)
Theorem semantic_winner_first_max svc graph utterance st :
  ready svc = true ->
  ((forall x, x ∈ examined graph st ->
              exists res, checkSemanticMatchRule svc utterance x.2 = Ok res) ->
   exists l, semanticScan svc graph utterance st = Ok l)
  /\ forall l,
       semanticScan svc graph utterance st = Ok l ->
       match bestEdge l with
       | None => noWinner svc utterance (examined graph st)
       | Some be =>
           exists k r d,
             bestRule l = Some r
             /\ isWinner svc utterance (examined graph st) k (be, r, d) (bestScore l)
             /\ exists res,
                  evaluate svc graph utterance st = Ok res
                  /\ edge res = Some be /\ rule res = Some r
                  /\ node (state res) = target be
                  /\ attemptNumber (state res) = 0
       end.
Proof.
  intros Hr. split; [apply semanticScan_total|]. intros l Hs.
  destruct (semanticScan_inv svc utterance graph st l Hs) as (_ & Hlen & Hbest).
  destruct (bestEdge l) as [be|] eqn:Hbe; [|tauto].
  destruct Hbest as (k & r & d & Hrule & Hk & Hw).
  exists k, r, d. split; [done|]. split; [done|].
  unfold evaluate. rewrite Hr, Hs. simpl. rewrite Hbe.
  destruct Hw as (Hex & _).
  apply lookup_lt_Some in Hex. rewrite <- Hlen in Hex.
  apply lookup_lt_is_Some in Hex as [sc Hsc].
  unfold updateAt. rewrite Hk.
  destruct (Z.ltb_spec (Z.of_nat k) 0) as [?|_]; [lia|].
  rewrite Nat2Z.id, Hsc. simpl.
  eexists. split; [reflexivity|]. simpl. by rewrite Hrule.
Qed.

Lemma semantic_winner_first_max_witness :
  (exists l, semanticScan (Sample.constScorer (3 # 4) 1) Sample.yesGraph "yes"
                          (Sample.at0 "start" ∅) = Ok l)
  /\ exists k r d,
       bestRule Sample.yesScan = Some r
       /\ isWinner (Sample.constScorer (3 # 4) 1) "yes"
            (examined Sample.yesGraph (Sample.at0 "start" ∅)) k
            (Sample.yesEdge, r, d) (bestScore Sample.yesScan)
       /\ exists res,
            evaluate (Sample.constScorer (3 # 4) 1) Sample.yesGraph "yes"
                     (Sample.at0 "start" ∅) = Ok res
            /\ edge res = Some Sample.yesEdge /\ rule res = Some r
            /\ node (state res) = target Sample.yesEdge
            /\ attemptNumber (state res) = 0.
Proof.
  destruct (semantic_winner_first_max (Sample.constScorer (3 # 4) 1)
              Sample.yesGraph "yes" (Sample.at0 "start" ∅) eq_refl)
    as [Htotal Hwin].
  split.
  - apply Htotal. intros x Hx. vm_compute in Hx.
    apply elem_of_cons in Hx as [->|Hx]; [|by apply elem_of_nil in Hx].
    eexists. vm_compute. reflexivity.
  - apply (Hwin Sample.yesScan). vm_compute. reflexivity.
Defined.

(** C6 (counterexample).  Threshold [-1] (the default of the scorer base
    class) and a single rule whose qualifying score is [-1/2]: the score
    is strictly above the threshold and the only one, yet nothing wins. *)
Lemma score_above_negative_threshold_loses :
  qualifyingScore (Sample.constScorer (-1 # 1) (-1 # 2)) "yes"
    {| matchCandidates := [Sample.yes] |} = Some (-1 # 2)%Q
  /\ (getThreshold (Sample.constScorer (-1 # 1) (-1 # 2)) < (-1 # 2))%Q
  /\ examined Sample.yesGraph (Sample.at0 "start" ∅)
     = [(Sample.yesEdge, SEMANTIC_MATCH {| matchCandidates := [Sample.yes] |},
         {| matchCandidates := [Sample.yes] |})]
  /\ exists res,
       evaluate (Sample.constScorer (-1 # 1) (-1 # 2)) Sample.yesGraph "yes"
                (Sample.at0 "start" ∅) = Ok res
       /\ edge res = None /\ rule res = None.
Proof.
  split; [vm_compute; reflexivity|]. split; [reflexivity|].
  split; [vm_compute; reflexivity|].
  eexists. split; [vm_compute; reflexivity|]. split; reflexivity.
Qed.

(** ** Serialization round trip *)

Section RoundTrip.

Lemma purifyNode_toNode (n : SerializableNode) : purifyNode (toNode n) = n.
Proof. destruct n as [i t p rp aa [[ax ay]|]]; reflexivity. Qed.

Lemma map_id_toNode (ns : list SerializableNode) :
  map id (map toNode ns) = map sn_id ns.
Proof. induction ns as [|n ns IH]; simpl; [done | by rewrite IH]. Qed.

(** With pairwise distinct ids, the search by id finds a node at its
    own position. *)
Lemma findNodeIndex_from_lookup (ns : list Node) (i k : nat) (n : Node) :
  NoDup (map id ns) -> ns !! i = Some n ->
  findNodeIndex_from k ns n = Ok (k + i)%nat.
Proof.
  revert i k. induction ns as [|n0 ns IH]; intros i k Hnd Hi; [done|].
  simpl in Hnd. apply NoDup_cons in Hnd as [Hnotin Hnd].
  destruct i as [|i]; simpl in *.
  - injection Hi as ->. by rewrite String.eqb_refl, Nat.add_0_r.
  - destruct (String.eqb_spec (id n0) (id n)) as [Heq|_].
    + exfalso. apply Hnotin. rewrite Heq.
      apply list_elem_of_fmap. exists n. split; [done|].
      by apply list_elem_of_lookup_2 with i.
    + rewrite (IH i (S k) Hnd Hi). f_equal. lia.
Qed.

Definition inRange (n : nat) (e : SerializableEdge) : Prop :=
  (sourceIndex e < n)%nat /\ (targetIndex e < n)%nat.

(** An edge as the saver writes it: its three arrays are there and every
    semantic-match rule has its data. *)
Definition hasData (r : StoredEdgeRule) : Prop :=
  r <> STORED_SEMANTIC_MATCH None.

Definition complete (e : SerializableEdge) : Prop :=
  (exists rs, se_rules e = Some rs /\ Forall hasData rs)
  /\ is_Some (se_mutations e) /\ is_Some (se_conditions e).

Lemma repairRule_storeRule (r : EdgeRule) : repairRule (storeRule r) = r.
Proof. by destruct r. Qed.

Lemma storeRule_repairRule (r : StoredEdgeRule) :
  hasData r -> storeRule (repairRule r) = r.
Proof. destruct r as [[d|]|d]; simpl; try done. Qed.

Lemma map_storeRule_repairRule (rs : list StoredEdgeRule) :
  Forall hasData rs -> map storeRule (map repairRule rs) = rs.
Proof.
  induction 1 as [|r rs Hr _ IH]; simpl; [done|].
  by rewrite (storeRule_repairRule r Hr), IH.
Qed.

Lemma map_repairRule_storeRule (rs : list EdgeRule) :
  map repairRule (map storeRule rs) = rs.
Proof.
  induction rs as [|r rs IH]; simpl; [done|].
  by rewrite repairRule_storeRule, IH.
Qed.

Lemma edge_round_trip (ns : list Node) (e : SerializableEdge) :
  NoDup (map id ns) -> inRange (length ns) e -> complete e ->
  exists e', toEdge ns e = Ok e' /\ fromEdge ns e' = Ok e.
Proof.
  intros Hnd [Hs Ht] ((rs & Hrs & Hdata) & [ms Hms] & [cs Hcs]).
  apply lookup_lt_is_Some in Hs as [s Hs]. apply lookup_lt_is_Some in Ht as [t Ht].
  unfold toEdge, nodeAt. rewrite Hrs, Hs, Ht, Hms, Hcs. simpl.
  eexists. split; [reflexivity|].
  unfold fromEdge, findNodeIndex. simpl.
  rewrite (findNodeIndex_from_lookup ns _ 0 s Hnd Hs),
          (findNodeIndex_from_lookup ns _ 0 t Hnd Ht).
  simpl. rewrite (map_storeRule_repairRule rs Hdata).
  destruct e. simpl in *. by subst.
Qed.

Lemma edges_round_trip (ns : list Node) (es : list SerializableEdge) :
  NoDup (map id ns) -> Forall (inRange (length ns)) es -> Forall complete es ->
  exists es', mapM (toEdge ns) es = Ok es' /\ mapM (fromEdge ns) es' = Ok es.
Proof.
  intros Hnd Hin Hco. induction es as [|e es IH]; simpl.
  - by exists [].
  - apply Forall_cons in Hin as [He Hin]. apply Forall_cons in Hco as [Hc Hco].
    destruct (IH Hin Hco) as (es' & E1 & E2).
    destruct (edge_round_trip ns e Hnd He Hc) as (e' & E3 & E4).
    exists (e' :: es'). rewrite E3. simpl. rewrite E1. simpl.
    split; [done|]. rewrite E4. simpl. by rewrite E2.
Qed.

Lemma contentId_round_trip (c : option string) :
  c <> Some "" ->
  let c' := if truthyStr c then c else None in
  (if truthyStr c' then c' else None) = c.
Proof.
  destruct c as [s|]; simpl; [|done]. intros Hne.
  destruct (String.eqb_spec s "") as [->|_]; simpl; [done|].
  destruct (String.eqb_spec s "") as [->|_]; done.
Qed.

End RoundTrip.

(** C9 (as amended).  For a serializable graph whose node ids are
    pairwise distinct, whose edge list is present, whose edges have indices
    inside the node list and each carry their rules, mutations and
    conditions arrays, every semantic-match rule with its data, and whose
    content id is absent or not the empty string, loading and saving again
    returns the graph itself: same nodes, anchors and edges, in the same
    order and with the same indices. *)
Theorem round_trip_identity (sg : SerializableGraph) :
  NoDup (map sn_id (sg_nodes sg)) ->
  (exists es, sg_edges sg = Some es
              /\ Forall (inRange (length (sg_nodes sg))) es
              /\ Forall complete es) ->
  sg_contentId sg <> Some "" ->
  roundTrip sg = Ok sg.
Proof.
  intros Hnd (es & Hes & Hin & Hco) Hc. unfold roundTrip, serializableGraphToGraph.
  destruct (edges_round_trip (map toNode (sg_nodes sg)) es) as (es' & E1 & E2);
    [by rewrite map_id_toNode | by rewrite length_map | done |].
  rewrite Hes, E1. simpl. unfold graphToSerializableGraph. simpl. rewrite E2. simpl.
  rewrite map_map, (map_ext _ (fun n => n) purifyNode_toNode), map_id.
  rewrite (contentId_round_trip _ Hc), <- Hes. by destruct sg.
Qed.

Lemma round_trip_identity_witness :
  roundTrip (Sample.wire (Some "c1")) = Ok (Sample.wire (Some "c1")).
Proof.
  apply (round_trip_identity (Sample.wire (Some "c1"))).
  - simpl. apply NoDup_ListNoDup. repeat constructor; simpl; intuition discriminate.
  - eexists. split; [reflexivity|]. split.
    + repeat constructor; simpl; lia.
    + repeat constructor; simpl; eauto.
      eexists. split; [reflexivity|]. repeat constructor. discriminate.
  - discriminate.
Defined.

(** C9 (counterexample).  A graph saved with the empty string as content
    id comes back without a content id. *)
Lemma round_trip_drops_empty_contentId :
  roundTrip (Sample.wire (Some "")) = Ok (Sample.wire None)
  /\ roundTrip (Sample.wire (Some "")) <> Ok (Sample.wire (Some "")).
Proof. split; [reflexivity | discriminate]. Qed.

(** Each of the other conditions is needed as well.  Two nodes and one
    edge between them, as the store may return them: *)
Definition stored (es : option (list SerializableEdge)) : SerializableGraph :=
  {| sg_id := "g"; sg_contentId := None; sg_name := "g"; sg_start := "a";
     sg_nodes := [Sample.sN "a"; Sample.sN "b"]; sg_edges := es |}.

Definition storedEdgeOf (rs : option (list StoredEdgeRule))
    (ms : option (list Mutation)) (cs : option (list Condition))
  : SerializableEdge :=
  {| sourceIndex := 0; targetIndex := 1;
     se_rules := rs; se_mutations := ms; se_conditions := cs |}.

(** An edge stored without mutations and conditions comes back with an
    empty array for each. *)
Lemma round_trip_adds_empty_arrays :
  roundTrip (stored (Some [storedEdgeOf (Some []) None None]))
  = Ok (stored (Some [storedEdgeOf (Some []) (Some []) (Some [])])).
Proof. reflexivity. Qed.

(** An edge stored without rules cannot be loaded. *)
Lemma load_without_rules_raises :
  serializableGraphToGraph (stored (Some [storedEdgeOf None (Some []) (Some [])]))
  = Throw TypeError.
Proof. reflexivity. Qed.

(** A graph stored without edge list comes back with an empty one. *)
Lemma round_trip_adds_edge_list :
  roundTrip (stored None) = Ok (stored (Some [])).
Proof. reflexivity. Qed.

(** A semantic-match rule stored without data comes back with an empty
    candidate list. *)
Lemma round_trip_adds_rule_data :
  roundTrip
    (stored (Some [storedEdgeOf (Some [STORED_SEMANTIC_MATCH None])
                                (Some []) (Some [])]))
  = Ok (stored (Some [storedEdgeOf
                        (Some [STORED_SEMANTIC_MATCH
                                 (Some {| matchCandidates := [] |})])
                        (Some []) (Some [])])).
Proof. reflexivity. Qed.

(** An index past the node list raises when the graph is saved, and with
    a repeated id an edge comes back attached to the first node of that
    id. *)
Lemma round_trip_index_out_of_range :
  roundTrip {| sg_id := "g"; sg_contentId := None; sg_name := "g"; sg_start := "a";
               sg_nodes := [Sample.sN "a"];
               sg_edges := Some [storedEdgeOf (Some []) (Some []) (Some [])] |}
  = Throw TypeError.
Proof. reflexivity. Qed.

Lemma round_trip_duplicate_ids :
  roundTrip
    {| sg_id := "g"; sg_contentId := None; sg_name := "g"; sg_start := "a";
       sg_nodes := [Sample.sN "a"; Sample.sN "a"];
       sg_edges := Some [storedEdgeOf (Some []) (Some []) (Some [])] |}
  = Ok {| sg_id := "g"; sg_contentId := None; sg_name := "g"; sg_start := "a";
          sg_nodes := [Sample.sN "a"; Sample.sN "a"];
          sg_edges :=
            Some [ {| sourceIndex := 0; targetIndex := 0;
                      se_rules := Some []; se_mutations := Some [];
                      se_conditions := Some [] |} ] |}.
Proof. reflexivity. Qed.

(** ** Layered layout *)

(** Walks of the graph, by node id: [walk g u v n] is a walk of [n] edges
    from [u] to [v]. *)
Definition edgeRel (g : Graph) (u v : string) : Prop :=
  exists e, e ∈ edges g /\ id (source e) = u /\ id (target e) = v.

Inductive walk (g : Graph) : string -> string -> nat -> Prop :=
| walk_nil u : walk g u u 0
| walk_step u v w n : edgeRel g u v -> walk g v w n -> walk g u w (S n).

Definition nodeIds (g : Graph) : list string := map id (nodes g).

(** Node ids are pairwise distinct and every edge joins nodes of the
    graph. *)
Definition wellFormed (g : Graph) : Prop :=
  NoDup (nodeIds g)
  /\ forall e, e ∈ edges g ->
       id (source e) ∈ nodeIds g /\ id (target e) ∈ nodeIds g.

Definition acyclic (g : Graph) : Prop :=
  forall v n, ~ walk g v v (S n).




Section Counting.

Context {A : Type}.

Fixpoint countIf (f : A -> bool) (l : list A) : nat :=
  match l with
  | [] => 0
  | a :: rest => (if f a then 1 else 0) + countIf f rest
  end.

Lemma countIf_app f l1 l2 : countIf f (l1 ++ l2) = (countIf f l1 + countIf f l2)%nat.
Proof. induction l1 as [|a l1 IH]; simpl; [done | rewrite IH; lia]. Qed.

Lemma countIf_ext f g l :
  (forall a, a ∈ l -> f a = g a) -> countIf f l = countIf g l.
Proof.
  induction l as [|a l IH]; simpl; intros H; [done|].
  rewrite (H a) by (by left). rewrite IH; [done|]. intros b Hb. apply H. by right.
Qed.

Lemma countIf_le f g l :
  (forall a, a ∈ l -> f a = true -> g a = true) -> (countIf f l <= countIf g l)%nat.
Proof.
  induction l as [|a l IH]; simpl; intros H; [done|].
  assert (countIf f l <= countIf g l)%nat by (apply IH; intros b Hb; apply H; by right).
  destruct (f a) eqn:Ef; [rewrite (H a) by (done || by left)|]; destruct (g a); lia.
Qed.

Lemma countIf_le_length f l : (countIf f l <= length l)%nat.
Proof. induction l as [|a l IH]; simpl; [done|]. destruct (f a); lia. Qed.

Lemma countIf_zero f l :
  countIf f l = 0%nat <-> forall a, a ∈ l -> f a = false.
Proof.
  induction l as [|a l IH]; simpl.
  - split; [intros _ a Ha; by apply elem_of_nil in Ha | done].
  - split.
    + intros H b Hb. destruct (f a) eqn:Ef; [lia|].
      apply elem_of_cons in Hb as [->|Hb]; [done|]. apply IH; [lia | done].
    + intros H. rewrite (H a) by (by left). simpl. apply IH.
      intros b Hb. apply H. by right.
Qed.

Lemma countIf_pos f l :
  (0 < countIf f l)%nat <-> exists a, a ∈ l /\ f a = true.
Proof.
  induction l as [|a l IH]; simpl.
  - split; [lia | intros (a & Ha & _); by apply elem_of_nil in Ha].
  - split.
    + intros H. destruct (f a) eqn:Ef.
      * exists a. split; [by left | done].
      * destruct (proj1 IH) as (b & Hb & Hfb); [lia|]. exists b. split; [by right | done].
    + intros (b & Hb & Hfb). apply elem_of_cons in Hb as [->|Hb].
      * rewrite Hfb. lia.
      * assert (0 < countIf f l)%nat by (apply IH; eauto). lia.
Qed.


(** When [f] implies [g] and both hold equally often, [g] implies [f]. *)
Lemma countIf_eq_all f g l :
  (forall a, a ∈ l -> f a = true -> g a = true) ->
  countIf f l = countIf g l ->
  forall a, a ∈ l -> g a = true -> f a = true.
Proof.
  induction l as [|a l IH]; simpl; intros Himp Heq b Hb Hg.
  - by apply elem_of_nil in Hb.
  - assert (Hle : (countIf f l <= countIf g l)%nat)
      by (apply countIf_le; intros c Hc; apply Himp; by right).
    assert (Ha : f a = true -> g a = true) by (apply Himp; by left).
    apply elem_of_cons in Hb as [->|Hb].
    + destruct (f a); [done|]. rewrite Hg in Heq. lia.
    + apply IH; [intros c Hc; apply Himp; by right | | done | done].
      destruct (f a), (g a); try lia; by specialize (Ha eq_refl).
Qed.

Lemma countIf_or f g l :
  (forall a, a ∈ l -> f a = true -> g a = false) ->
  countIf (fun a => f a || g a) l = (countIf f l + countIf g l)%nat.
Proof.
  induction l as [|a l IH]; simpl; intros H; [done|].
  rewrite IH by (intros b Hb; apply H; by right).
  destruct (f a) eqn:Ef; simpl; [rewrite (H a) by (done || by left)|]; lia.
Qed.

Lemma countIf_filter f g l :
  countIf f (List.filter g l) = countIf (fun a => f a && g a) l.
Proof.
  induction l as [|a l IH]; simpl; [done|].
  destruct (g a); simpl; rewrite IH.
  - by rewrite andb_true_r.
  - by rewrite andb_false_r.
Qed.

End Counting.

Lemma length_filter_countIf {A} (f : A -> bool) (l : list A) :
  length (List.filter f l) = countIf f l.
Proof.
  induction l as [|a l IH]; simpl; [done|]. destruct (f a); simpl; lia.
Qed.

Lemma countIf_map {A B} (h : B -> A) (f : A -> bool) (l : list B) :
  countIf f (map h l) = countIf (fun b => f (h b)) l.
Proof. induction l as [|b l IH]; simpl; [done | by rewrite IH]. Qed.

(** Reads of the insertion-ordered map. *)
Fixpoint ordGet (m : list (string * nat)) (k : string) : option nat :=
  match m with
  | [] => None
  | (k', v) :: rest => if String.eqb k' k then Some v else ordGet rest k
  end.

Lemma ordGet_ordSet m k v k' :
  ordGet (ordSet m k v) k' = if String.eqb k k' then Some v else ordGet m k'.
Proof.
  induction m as [|[k0 v0] m IH]; simpl.
  - done.
  - destruct (String.eqb_spec k0 k) as [->|Hne]; simpl.
    + by destruct (String.eqb k k').
    + rewrite IH. destruct (String.eqb_spec k0 k') as [->|Hne'].
      * by rewrite (proj2 (String.eqb_neq k k')) by done.
      * done.
Qed.

Lemma ordSet_keys_NoDup m k v :
  NoDup (map fst m) -> NoDup (map fst (ordSet m k v)).
Proof.
  induction m as [|[k0 v0] m IH]; simpl; intros Hnd.
  - apply NoDup_singleton.
  - apply NoDup_cons in Hnd as [Hnotin Hnd].
    destruct (String.eqb_spec k0 k) as [->|Hne]; simpl.
    + by apply NoDup_cons.
    + apply NoDup_cons. split; [|by apply IH].
      intros Hin. apply Hnotin. clear -Hin Hne.
      induction m as [|[k1 v1] m IH]; simpl in *.
      * apply list_elem_of_singleton in Hin. congruence.
      * destruct (String.eqb_spec k1 k) as [->|Hne1]; simpl in *; [done|].
        apply elem_of_cons in Hin as [->|Hin]; [by left | right; by apply IH].
Qed.

Lemma ordGet_elem_of m k v :
  NoDup (map fst m) -> (k, v) ∈ m <-> ordGet m k = Some v.
Proof.
  induction m as [|[k0 v0] m IH]; simpl; intros Hnd.
  - split; [intros H; by apply elem_of_nil in H | done].
  - apply NoDup_cons in Hnd as [Hnotin Hnd].
    rewrite elem_of_cons, (IH Hnd). destruct (String.eqb_spec k0 k) as [->|Hne].
    + split; [|intros [= ->]; by left].
      intros [[= ->]|Hget]; [done|]. exfalso. apply Hnotin.
      apply (IH Hnd) in Hget. apply list_elem_of_fmap. by exists (k, v).
    + split; [intros [[= ? ?]|?]; [congruence | done] | by right].
Qed.

Section DagRun.

Context (graph : Graph) (s : string).

Definition srcIs (u : string) (e : Edge) : bool := String.eqb (id (source e)) u.
Definition tgtIs (v : string) (e : Edge) : bool := String.eqb (id (target e)) v.
Definition entryIs (v : string) (x : NodeDepth) : bool :=
  String.eqb (id (nd_node x)) v.
Definition inFin (fin : gset string) (e : Edge) : bool :=
  bool_decide (id (source e) ∈ fin).

(** Number of edges into [v]; of those, number whose source is finished;
    number of queue entries for [v]. *)
Definition n0 (v : string) : nat := countIf (tgtIs v) (edges graph).
Definition pushed (fin : gset string) (v : string) : nat :=
  countIf (fun e => tgtIs v e && inFin fin e) (edges graph).
Definition queued (q : list NodeDepth) (v : string) : nat := countIf (entryIs v) q.

(** Ids that get an in-degree entry: the start id and every edge
    target. *)
Definition seeded (v : string) : Prop := v = s \/ (0 < n0 v)%nat.

Definition child (d : nat) (e : Edge) : NodeDepth :=
  {| nd_node := target e; depth := S d |}.

Lemma getOutEdges_filter n :
  getOutEdges n graph None = List.filter (srcIs (id n)) (edges graph).
Proof.
  unfold getOutEdges. induction (edges graph) as [|e es IH]; [done|].
  rewrite filter_cons. cbn [List.filter]. unfold srcIs at 1.
  destruct (String.eqb (id (source e)) (id n)) eqn:E.
  - rewrite decide_True by (split; reflexivity). f_equal. exact IH.
  - rewrite decide_False by (intros [? _]; discriminate). exact IH.
Qed.

Lemma pushed_le_n0 fin v : (pushed fin v <= n0 v)%nat.
Proof.
  apply countIf_le. intros e _ H. by apply andb_prop in H as [? _].
Qed.

Lemma seeded_target e : e ∈ edges graph -> seeded (id (target e)).
Proof.
  intros He. right. apply countIf_pos. exists e. split; [done|].
  apply String.eqb_refl.
Qed.

Lemma countTarget_lookup m e v :
  countTarget m e !! v =
    if tgtIs v e then Some (default 0 (m !! v) + 1) else m !! v.
Proof.
  unfold countTarget, tgtIs.
  destruct (String.eqb_spec (id (target e)) v) as [->|Hne].
  - destruct (m !! v) as [d|] eqn:Hm; by rewrite lookup_insert_eq.
  - destruct (m !! id (target e)); by rewrite lookup_insert_ne.
Qed.

Lemma countTarget_fold es m v :
  fold_left countTarget es m !! v =
    match m !! v with
    | Some d => Some (d + Z.of_nat (countIf (tgtIs v) es))
    | None => if bool_decide (0 < countIf (tgtIs v) es)%nat
              then Some (Z.of_nat (countIf (tgtIs v) es)) else None
    end.
Proof.
  revert m. induction es as [|e es IH]; intros m; simpl.
  - destruct (m !! v); [f_equal; lia | done].
  - rewrite IH, countTarget_lookup.
    destruct (tgtIs v e); simpl.
    + destruct (m !! v) as [d|]; simpl.
      * f_equal. lia.
      * f_equal. lia.
    + done.
Qed.

Lemma initInDegree_lookup startNode v :
  id startNode = s ->
  initInDegree startNode graph !! v =
    if bool_decide (seeded v)
    then Some (Z.of_nat (n0 v) + (if bool_decide (v = s) then 1 else 0))
    else None.
Proof.
  intros Hs. unfold initInDegree. rewrite countTarget_fold, Hs. fold (n0 v).
  unfold seeded. destruct (decide (v = s)) as [->|Hne].
  - rewrite lookup_singleton_eq, !bool_decide_eq_true_2 by auto. f_equal. lia.
  - rewrite lookup_singleton_ne by done. rewrite (bool_decide_eq_false_2 (v = s)) by done.
    destruct (decide (0 < n0 v)%nat).
    + rewrite !bool_decide_eq_true_2 by auto. f_equal. lia.
    + rewrite !bool_decide_eq_false_2 by tauto. done.
Qed.

(** What the in-degree entry of [v] holds during the run. *)
Definition expectIn (st : DagState) (v : string) : Z :=
  Z.of_nat (n0 v) - Z.of_nat (pushed (finished st) v)
  + Z.of_nat (queued (proc st) v)
  + (if bool_decide (v ∈ finished st) then 1 else 0).

(** Counting invariant of the loop. *)
Record countInv (st : DagState) : Prop := {
  ci_inDeg : forall v,
    inDegree st !! v = if bool_decide (seeded v) then Some (expectIn st v) else None;
  ci_fin_q : forall v, v ∈ finished st -> queued (proc st) v = 0%nat;
  ci_fin_pred : forall v e,
    v ∈ finished st -> e ∈ edges graph -> id (target e) = v ->
    id (source e) ∈ finished st;
  ci_fin_seeded : forall v, v ∈ finished st -> seeded v;
  ci_unfin : forall v, v ∉ finished st -> seeded v -> 1 <= expectIn st v;
  ci_queue : forall x, x ∈ proc st -> seeded (id (nd_node x))
}.

(** Edges from [u] to [w]. *)
Definition between (u w : string) : nat :=
  countIf (fun e => tgtIs w e && srcIs u e) (edges graph).

Lemma pushed_add fin v w :
  v ∉ fin ->
  pushed ({[ v ]} ∪ fin) w = (pushed fin w + between v w)%nat.
Proof.
  intros Hv. unfold pushed, between. rewrite <- countIf_or.
  - apply countIf_ext. intros e _. unfold inFin, srcIs.
    destruct (tgtIs w e); simpl; [|done].
    destruct (String.eqb_spec (id (source e)) v) as [->|Hne].
    + rewrite bool_decide_eq_true_2
        by (apply elem_of_union; left; by apply elem_of_singleton).
      by rewrite orb_true_r.
    + rewrite orb_false_r. apply bool_decide_ext.
      rewrite elem_of_union, elem_of_singleton. tauto.
  - intros e _ H. apply andb_prop in H as [_ H]. unfold inFin in H.
    apply bool_decide_eq_true in H. unfold srcIs.
    destruct (String.eqb_spec (id (source e)) v) as [Heq|_]; [congruence|].
    apply andb_false_r.
Qed.

Lemma queued_children rest n d w :
  queued (rest ++ map (child d) (getOutEdges n graph None)) w
  = (queued rest w + between (id n) w)%nat.
Proof.
  unfold queued. rewrite countIf_app, getOutEdges_filter, countIf_map, countIf_filter.
  done.
Qed.

Lemma between_zero u w :
  (forall e, e ∈ edges graph -> id (target e) = w -> id (source e) <> u) ->
  between u w = 0%nat.
Proof.
  intros H. apply countIf_zero. intros e He. unfold tgtIs, srcIs.
  destruct (String.eqb_spec (id (target e)) w) as [Hw|_]; [|done].
  destruct (String.eqb_spec (id (source e)) u) as [Hu|_]; [|done].
  by destruct (H e He Hw).
Qed.

(** All edges into [v] come from finished nodes when as many were pushed
    as there are. *)
Lemma pushed_all fin v :
  pushed fin v = n0 v ->
  forall e, e ∈ edges graph -> id (target e) = v -> id (source e) ∈ fin.
Proof.
  intros Heq e He Ht.
  assert (H : tgtIs v e && inFin fin e = true).
  { apply (countIf_eq_all (fun e => tgtIs v e && inFin fin e) (tgtIs v) (edges graph));
      [intros a _ Ha; by apply andb_prop in Ha as [? _] | exact Heq | done |].
    unfold tgtIs. by apply String.eqb_eq. }
  apply andb_prop in H as [_ H]. by apply bool_decide_eq_true in H.
Qed.


Lemma queued_cons cur rest v :
  queued (cur :: rest) v
  = ((if String.eqb (id (nd_node cur)) v then 1 else 0) + queued rest v)%nat.
Proof. reflexivity. Qed.

(** The state after a pop that finishes the node, and after one that does
    not. *)
Definition finishStep (cur : NodeDepth) (rest : list NodeDepth) (st : DagState)
  : DagState :=
  {| inDegree := inDegree st;
     finished := {[ id (nd_node cur) ]} ∪ finished st;
     depthMap := ordSet (depthMap st) (id (nd_node cur)) (depth cur);
     maxDepth := if (maxDepth st <? depth cur)%nat then depth cur else maxDepth st;
     proc := rest ++ map (child (depth cur)) (getOutEdges (nd_node cur) graph None) |}.

Definition waitStep (r : Z) (cur : NodeDepth) (rest : list NodeDepth) (st : DagState)
  : DagState :=
  {| inDegree := <[id (nd_node cur) := r - 1]> (inDegree st);
     finished := finished st;
     depthMap := ordSet (depthMap st) (id (nd_node cur)) (depth cur);
     maxDepth := if (maxDepth st <? depth cur)%nat then depth cur else maxDepth st;
     proc := rest |}.

Lemma dagStep_cases st cur rest :
  countInv st -> proc st = cur :: rest ->
  (id (nd_node cur) ∉ finished st)
  /\ seeded (id (nd_node cur))
  /\ ((dagStep graph cur rest st = finishStep cur rest st
       /\ queued rest (id (nd_node cur)) = 0%nat
       /\ pushed (finished st) (id (nd_node cur)) = n0 (id (nd_node cur)))
      \/ exists r, 2 <= r /\ r = expectIn st (id (nd_node cur))
                   /\ dagStep graph cur rest st = waitStep r cur rest st).
Proof.
  intros Hinv Hproc. set (v := id (nd_node cur)).
  assert (Hq : queued (proc st) v = S (queued rest v)).
  { rewrite Hproc, queued_cons. unfold v. by rewrite String.eqb_refl. }
  assert (Hnf : v ∉ finished st).
  { intros Hf. apply (ci_fin_q st Hinv) in Hf. lia. }
  assert (Hseed : seeded v).
  { apply (ci_queue st Hinv). rewrite Hproc. by left. }
  split; [done|]. split; [done|].
  pose proof (ci_inDeg st Hinv v) as Hin.
  rewrite bool_decide_eq_true_2 in Hin by done.
  pose proof (ci_unfin st Hinv v Hnf Hseed) as Hge.
  pose proof (pushed_le_n0 (finished st) v) as Hle.
  assert (Hexp : expectIn st v
                 = Z.of_nat (n0 v) - Z.of_nat (pushed (finished st) v)
                   + Z.of_nat (S (queued rest v))).
  { unfold expectIn. rewrite Hq, bool_decide_eq_false_2 by done. lia. }
  unfold dagStep. fold v. rewrite Hin.
  destruct (decide (expectIn st v = 1)) as [Hone|Hne].
  - left. rewrite bool_decide_eq_true_2 by (by rewrite Hone).
    split; [reflexivity|]. lia.
  - right. exists (expectIn st v). split; [lia|]. split; [done|].
    rewrite bool_decide_eq_false_2 by congruence. reflexivity.
Qed.

Lemma expectIn_finish st cur rest w :
  id (nd_node cur) ∉ finished st ->
  proc st = cur :: rest ->
  expectIn (finishStep cur rest st) w = expectIn st w.
Proof.
  intros Hnf Hproc. unfold expectIn. simpl.
  rewrite (pushed_add _ _ _ Hnf), queued_children, Hproc, queued_cons.
  destruct (String.eqb_spec (id (nd_node cur)) w) as [<-|Hne].
  - rewrite bool_decide_eq_true_2
      by (apply elem_of_union; left; by apply elem_of_singleton).
    rewrite bool_decide_eq_false_2 by done. lia.
  - rewrite (bool_decide_ext (w ∈ {[id (nd_node cur)]} ∪ finished st) (w ∈ finished st)).
    + lia.
    + rewrite elem_of_union, elem_of_singleton. split; [intros [?|?]; congruence | auto].
Qed.

Lemma expectIn_wait st r cur rest w :
  proc st = cur :: rest ->
  expectIn (waitStep r cur rest st) w
  = expectIn st w - (if String.eqb (id (nd_node cur)) w then 1 else 0).
Proof.
  intros Hproc. unfold expectIn. simpl. rewrite Hproc, queued_cons.
  destruct (String.eqb (id (nd_node cur)) w); lia.
Qed.

Lemma countInv_step st cur rest :
  countInv st -> proc st = cur :: rest ->
  countInv (dagStep graph cur rest st).
Proof.
  intros Hinv Hproc.
  destruct (dagStep_cases st cur rest Hinv Hproc)
    as (Hnf & Hseed & [(-> & Hq0 & Hall)|(r & Hr & Hre & ->)]).
  - (* the node finishes *)
    assert (Hpred : forall e, e ∈ edges graph -> id (target e) = id (nd_node cur) ->
                      id (source e) ∈ finished st)
      by (by apply pushed_all).
    assert (Hrest : forall w, w ∈ finished st -> queued rest w = 0%nat).
    { intros w Hw. apply (ci_fin_q st Hinv) in Hw.
      rewrite Hproc, queued_cons in Hw. lia. }
    split.
    + intros w. rewrite (expectIn_finish st cur rest w Hnf Hproc).
      apply (ci_inDeg st Hinv).
    + intros w Hw. simpl in *. rewrite queued_children.
      apply elem_of_union in Hw as [Hw|Hw].
      * apply elem_of_singleton in Hw as ->. rewrite Hq0.
        rewrite between_zero; [done|]. intros e He Ht Hs.
        apply Hnf. rewrite <- Hs. by apply Hpred.
      * rewrite (Hrest w Hw), between_zero; [done|]. intros e He Ht Hs.
        apply Hnf. rewrite <- Hs. by apply (ci_fin_pred st Hinv w).
    + intros w e Hw He Ht. simpl in *. apply elem_of_union. right.
      apply elem_of_union in Hw as [Hw|Hw].
      * apply elem_of_singleton in Hw as ->. by apply Hpred.
      * by apply (ci_fin_pred st Hinv w).
    + intros w Hw. simpl in Hw. apply elem_of_union in Hw as [Hw|Hw].
      * by apply elem_of_singleton in Hw as ->.
      * by apply (ci_fin_seeded st Hinv).
    + intros w Hw Hsw. rewrite (expectIn_finish st cur rest w Hnf Hproc).
      apply (ci_unfin st Hinv); [|done]. simpl in Hw.
      intros Hf. apply Hw. apply elem_of_union. by right.
    + intros x Hx. simpl in Hx. apply elem_of_app in Hx as [Hx|Hx].
      * apply (ci_queue st Hinv). rewrite Hproc. by right.
      * apply list_elem_of_fmap in Hx as (e & -> & He). simpl.
        apply seeded_target. rewrite getOutEdges_filter in He.
        apply list_elem_of_In, filter_In in He as [He _]. by apply list_elem_of_In.
  - (* the node waits for more pops *)
    split.
    + intros w. rewrite (expectIn_wait st r cur rest w Hproc). simpl.
      destruct (String.eqb_spec (id (nd_node cur)) w) as [<-|Hne].
      * rewrite lookup_insert_eq, bool_decide_eq_true_2 by done. by rewrite Hre.
      * rewrite lookup_insert_ne by done. rewrite (ci_inDeg st Hinv w).
        destruct (bool_decide (seeded w)); [f_equal; lia | done].
    + intros w Hw. simpl in *. apply (ci_fin_q st Hinv) in Hw.
      rewrite Hproc, queued_cons in Hw. lia.
    + intros w e Hw He Ht. by apply (ci_fin_pred st Hinv w).
    + intros w Hw. by apply (ci_fin_seeded st Hinv).
    + intros w Hw Hsw. rewrite (expectIn_wait st r cur rest w Hproc).
      pose proof (ci_unfin st Hinv w Hw Hsw).
      destruct (String.eqb_spec (id (nd_node cur)) w) as [<-|Hne]; lia.
    + intros x Hx. simpl in Hx. apply (ci_queue st Hinv). rewrite Hproc. by right.
Qed.

(** The number of pops still to come is bounded by the queue length plus
    the number of edges whose source has not finished. *)
Definition potential (st : DagState) : nat :=
  (length (proc st)
   + countIf (fun e => negb (inFin (finished st) e)) (edges graph))%nat.

Lemma potential_step st cur rest :
  countInv st -> proc st = cur :: rest ->
  S (potential (dagStep graph cur rest st)) = potential st.
Proof.
  intros Hinv Hproc.
  destruct (dagStep_cases st cur rest Hinv Hproc)
    as (Hnf & Hseed & [(-> & Hq0 & Hall)|(r & Hr & Hre & ->)]);
    unfold potential; simpl; rewrite Hproc; simpl; [|done].
  rewrite length_app, length_map, getOutEdges_filter.
  assert (Hsplit :
    countIf (fun e => negb (inFin (finished st) e)) (edges graph)
    = (countIf (fun e => negb (inFin ({[id (nd_node cur)]} ∪ finished st) e)) (edges graph)
       + countIf (srcIs (id (nd_node cur))) (edges graph))%nat).
  { rewrite <- countIf_or.
    - apply countIf_ext. intros e _. unfold inFin, srcIs.
      destruct (String.eqb_spec (id (source e)) (id (nd_node cur))) as [Heq|Hne].
      + rewrite orb_true_r, bool_decide_eq_false_2; [done|]. by rewrite Heq.
      + rewrite orb_false_r. f_equal. apply bool_decide_ext.
        rewrite elem_of_union, elem_of_singleton. tauto.
    - intros e _ H. apply negb_true_iff, bool_decide_eq_false in H. unfold srcIs.
      destruct (String.eqb_spec (id (source e)) (id (nd_node cur))) as [Heq|Hne]; [|done].
      exfalso. apply H. apply elem_of_union. left. by apply elem_of_singleton. }
  rewrite Hsplit.
  rewrite length_filter_countIf. lia.
Qed.

(** The loop empties the queue within [potential] iterations and keeps
    every invariant that each iteration keeps. *)
Lemma dagLoop_terminates (I : DagState -> Prop) :
  (forall st cur rest, I st -> countInv st -> proc st = cur :: rest ->
                       I (dagStep graph cur rest st)) ->
  forall fuel st,
    I st -> countInv st -> (potential st <= fuel)%nat ->
    exists st', dagLoop graph fuel st = Some st'
                /\ I st' /\ countInv st' /\ proc st' = [].
Proof.
  intros Hstep. induction fuel as [|fuel IH]; intros st HI Hinv Hpot.
  - destruct (proc st) as [|cur rest] eqn:Hproc.
    + exists st. simpl. rewrite Hproc. auto.
    + unfold potential in Hpot. rewrite Hproc in Hpot. simpl in Hpot. lia.
  - destruct (proc st) as [|cur rest] eqn:Hproc.
    + exists st. simpl. rewrite Hproc. auto.
    + simpl. rewrite Hproc. apply IH.
      * by apply Hstep.
      * by apply countInv_step.
      * pose proof (potential_step st cur rest Hinv Hproc). lia.
Qed.

End DagRun.

Section Walks.

Context (g : Graph).

Lemma walk_snoc u v w n :
  walk g u v n -> edgeRel g v w -> walk g u w (S n).
Proof.
  induction 1 as [u|u x v n Hux _ IH]; intros Hvw.
  - apply walk_step with w; [done | constructor].
  - apply walk_step with x; [done | by apply IH].
Qed.


(** The vertices of a walk, and a walk read off a vertex list. *)
Inductive walkOn : string -> list string -> string -> Prop :=
| walkOn_nil u : walkOn u [] u
| walkOn_step u v l w : edgeRel g u v -> walkOn v l w -> walkOn u (v :: l) w.

Lemma walk_walkOn u w n :
  walk g u w n -> exists l, walkOn u l w /\ length l = n.
Proof.
  induction 1 as [u|u v w n Huv _ (l & Hl & Hlen)].
  - exists []. split; [constructor | done].
  - exists (v :: l). split; [by constructor | simpl; by rewrite Hlen].
Qed.



End Walks.




Section DagDepth.

Context (graph : Graph) (s : string).

(** Depth invariant of the loop: queue entries and recorded depths are
    lengths of walks from the start node; the queue holds at most two
    consecutive depths, in order, none below a recorded depth; and the
    entry pushed for an edge carries a depth above the one recorded for
    the edge's source. *)
Record depthInv (st : DagState) : Prop := {
  di_nodup : NoDup (map fst (depthMap st));
  di_queue_walk : forall x,
    x ∈ proc st -> walk graph s (id (nd_node x)) (depth x);
  di_dm_walk : forall k d,
    ordGet (depthMap st) k = Some d -> walk graph s k d;
  di_fin_dm : forall v,
    v ∈ finished st -> is_Some (ordGet (depthMap st) v);
  di_levels : exists d A B,
    proc st = A ++ B
    /\ Forall (fun x => depth x = d) A
    /\ Forall (fun x => depth x = S d) B
    /\ forall k dv, ordGet (depthMap st) k = Some dv -> (dv <= d)%nat;
  di_edge : forall e du,
    e ∈ edges graph -> id (source e) ∈ finished st ->
    ordGet (depthMap st) (id (source e)) = Some du ->
    (exists dv, ordGet (depthMap st) (id (target e)) = Some dv /\ (S du <= dv)%nat)
    \/ (exists x, x ∈ proc st /\ id (nd_node x) = id (target e)
                  /\ (S du <= depth x)%nat);
  di_max : forall k dv,
    ordGet (depthMap st) k = Some dv -> (dv <= maxDepth st)%nat;
  di_keys : forall k, is_Some (ordGet (depthMap st) k) -> seeded graph s k
}.

(** After the head [cur] is popped, the rest of the queue is at the depth
    of [cur] and one above, and no recorded depth is larger. *)
Lemma levels_after_pop st cur rest :
  depthInv st -> proc st = cur :: rest ->
  exists A B,
    rest = A ++ B
    /\ Forall (fun x => depth x = depth cur) A
    /\ Forall (fun x => depth x = S (depth cur)) B
    /\ forall k dv, ordGet (depthMap st) k = Some dv -> (dv <= depth cur)%nat.
Proof.
  intros Hinv Hproc.
  destruct (di_levels st Hinv) as (d & A & B & Heq & HA & HB & Hdm).
  rewrite Hproc in Heq. destruct A as [|a A]; simpl in Heq.
  - subst B. apply Forall_cons in HB as [Hc HB].
    exists rest, []. rewrite app_nil_r, Hc. split_and!; [done | done | constructor |].
    intros k dv Hk. specialize (Hdm k dv Hk). lia.
  - injection Heq as <- ->. apply Forall_cons in HA as [Hc HA].
    exists A, B. rewrite Hc. by split_and!.
Qed.

Lemma ordGet_popped st cur k :
  ordGet (ordSet (depthMap st) (id (nd_node cur)) (depth cur)) k
  = if String.eqb (id (nd_node cur)) k then Some (depth cur)
    else ordGet (depthMap st) k.
Proof. apply ordGet_ordSet. Qed.

(** The parts of the invariant that only read the depth map and the
    queue, for any state reached by popping [cur]. *)
Lemma depthInv_pop st cur rest st' :
  depthInv st -> countInv graph s st -> proc st = cur :: rest ->
  depthMap st' = ordSet (depthMap st) (id (nd_node cur)) (depth cur) ->
  maxDepth st' = (if (maxDepth st <? depth cur)%nat then depth cur else maxDepth st) ->
  (exists extra, proc st' = rest ++ extra
     /\ Forall (fun x => depth x = S (depth cur)) extra
     /\ forall x, x ∈ extra -> walk graph s (id (nd_node x)) (depth x)) ->
  (forall v, v ∈ finished st' -> v = id (nd_node cur) \/ v ∈ finished st) ->
  (forall e, e ∈ edges graph -> id (source e) = id (nd_node cur) ->
             id (source e) ∈ finished st' ->
             exists x, x ∈ proc st' /\ id (nd_node x) = id (target e)
                       /\ depth x = S (depth cur)) ->
  depthInv st'.
Proof.
  intros Hinv Hcnt Hproc Hdm Hmax (extra & Hq & Hextra & Hwextra) Hfin Hchild.
  destruct (levels_after_pop st cur rest Hinv Hproc) as (A & B & Hrest & HA & HB & Hle).
  assert (Hcur : walk graph s (id (nd_node cur)) (depth cur)).
  { apply (di_queue_walk st Hinv). rewrite Hproc. by left. }
  split.
  - rewrite Hdm. apply ordSet_keys_NoDup, (di_nodup st Hinv).
  - intros x Hx. rewrite Hq in Hx. apply elem_of_app in Hx as [Hx|Hx]; [|auto].
    apply (di_queue_walk st Hinv). rewrite Hproc. by right.
  - intros k d. rewrite Hdm, ordGet_popped.
    destruct (String.eqb_spec (id (nd_node cur)) k) as [<-|_].
    + by intros [= <-].
    + apply (di_dm_walk st Hinv).
  - intros v Hv. rewrite Hdm, ordGet_popped.
    destruct (String.eqb_spec (id (nd_node cur)) v) as [<-|Hne]; [eauto|].
    destruct (Hfin v Hv) as [->|Hf]; [done|]. by apply (di_fin_dm st Hinv).
  - exists (depth cur), A, (B ++ extra). split_and!.
    + by rewrite Hq, Hrest, app_assoc.
    + done.
    + by apply Forall_app.
    + intros k dv. rewrite Hdm, ordGet_popped.
      destruct (String.eqb (id (nd_node cur)) k); [intros [= <-]; lia | apply Hle].
  - intros e du He Hsrc. rewrite Hdm, !ordGet_popped.
    destruct (String.eqb_spec (id (nd_node cur)) (id (source e))) as [Heq|Hne].
    + intros [= <-]. right.
      destruct (Hchild e He (eq_sym Heq) Hsrc) as (x & Hx & Hid & Hd).
      exists x. split_and!; [done | done | lia].
    + intros Hdu.
      assert (Hsf : id (source e) ∈ finished st).
      { destruct (Hfin _ Hsrc) as [?|?]; [congruence | done]. }
      destruct (di_edge st Hinv e du He Hsf Hdu)
        as [(dv & Hdv & Hlt)|(x & Hx & Hid & Hlt)].
      * left. destruct (String.eqb (id (nd_node cur)) (id (target e))).
        -- exists (depth cur). split; [done|]. specialize (Hle _ _ Hdv). lia.
        -- by exists dv.
      * rewrite Hproc in Hx. apply elem_of_cons in Hx as [->|Hx].
        -- left. rewrite Hid, String.eqb_refl. by exists (depth cur).
        -- right. exists x. split_and!; [|done|done].
           rewrite Hq. apply elem_of_app. by left.
  - intros k dv. rewrite Hdm, Hmax, ordGet_popped.
    destruct (String.eqb (id (nd_node cur)) k).
    + intros [= <-]. destruct (Nat.ltb_spec (maxDepth st) (depth cur)); lia.
    + intros Hk. pose proof (di_max st Hinv k dv Hk).
      destruct (Nat.ltb_spec (maxDepth st) (depth cur)); lia.
  - intros k. rewrite Hdm, ordGet_popped.
    destruct (String.eqb_spec (id (nd_node cur)) k) as [<-|_].
    + intros _. apply (ci_queue graph s st Hcnt). rewrite Hproc. by left.
    + apply (di_keys st Hinv).
Qed.

Lemma depthInv_step st cur rest :
  depthInv st -> countInv graph s st -> proc st = cur :: rest ->
  depthInv (dagStep graph cur rest st).
Proof.
  intros Hinv Hcnt Hproc.
  assert (Hcur : walk graph s (id (nd_node cur)) (depth cur)).
  { apply (di_queue_walk st Hinv). rewrite Hproc. by left. }
  destruct (dagStep_cases graph s st cur rest Hcnt Hproc)
    as (Hnf & Hseed & [(-> & Hq0 & Hall)|(r & Hr & Hre & ->)]).
  - apply (depthInv_pop st cur rest); try done.
    + exists (map (child (depth cur)) (getOutEdges (nd_node cur) graph None)).
      split; [done|]. split.
      * apply Forall_forall. intros x Hx.
        by apply list_elem_of_fmap in Hx as (e & -> & _).
      * intros x Hx. apply list_elem_of_fmap in Hx as (e & -> & He). simpl.
        apply walk_snoc with (id (nd_node cur)); [done|].
        apply getOutEdges_None_spec in He as [He Hs]. by exists e.
    + intros v Hv. simpl in Hv. apply elem_of_union in Hv as [Hv|Hv]; [|by right].
      left. by apply elem_of_singleton in Hv.
    + intros e He Hs _. exists (child (depth cur) e). split_and!; [|done|done].
      simpl. apply elem_of_app. right. apply list_elem_of_fmap. exists e.
      split; [done|]. by apply getOutEdges_None_spec.
  - apply (depthInv_pop st cur rest); try done.
    + exists []. rewrite app_nil_r. split; [done|]. split; [constructor|].
      intros x Hx. by apply elem_of_nil in Hx.
    + intros v Hv. by right.
    + intros e He Hs Hf. simpl in Hf. rewrite Hs in Hf. done.
Qed.

End DagDepth.

Section DagFinal.

Context (graph : Graph).

Local Abbreviation s := (start graph).

Lemma seeded_nodeId v :
  wellFormed graph -> s ∈ nodeIds graph ->
  seeded graph s v -> v ∈ nodeIds graph.
Proof.
  intros [_ Hwf] Hs [->|Hpos]; [done|].
  apply countIf_pos in Hpos as (e & He & Ht). apply String.eqb_eq in Ht as <-.
  by apply Hwf.
Qed.


(** The first node carrying the start id. *)
Lemma startNode_found :
  s ∈ nodeIds graph ->
  exists startNode others,
    filter (fun n => String.eqb (id n) s = true) (nodes graph) = startNode :: others
    /\ id startNode = s.
Proof.
  intros Hs. apply list_elem_of_fmap in Hs as (n & Hid & Hn).
  assert (Hin : n ∈ filter (fun n => String.eqb (id n) s = true) (nodes graph)).
  { apply list_elem_of_filter. split; [|done]. apply String.eqb_eq. done. }
  destruct (filter _ (nodes graph)) as [|startNode others] eqn:E.
  - by apply elem_of_nil in Hin.
  - exists startNode, others. split; [done|].
    assert (H : startNode ∈ filter (fun n => String.eqb (id n) s = true) (nodes graph))
      by (rewrite E; by left).
    apply list_elem_of_filter in H as [H _]. by apply String.eqb_eq.
Qed.

Definition initState (startNode : Node) : DagState :=
  {| inDegree := initInDegree startNode graph;
     finished := ∅;
     depthMap := [];
     maxDepth := 0%nat;
     proc := [ {| nd_node := startNode; depth := 0%nat |} ] |}.

Lemma pushed_empty v : pushed graph ∅ v = 0%nat.
Proof.
  apply countIf_zero. intros e _. unfold inFin.
  rewrite bool_decide_eq_false_2 by apply not_elem_of_empty. apply andb_false_r.
Qed.

Lemma initState_countInv startNode :
  id startNode = s -> countInv graph s (initState startNode).
Proof.
  intros Hs.
  assert (Hexp : forall v, expectIn graph (initState startNode) v
                   = Z.of_nat (n0 graph v) + (if bool_decide (v = s) then 1 else 0)).
  { intros v. unfold expectIn. simpl. rewrite pushed_empty.
    rewrite bool_decide_eq_false_2 by apply not_elem_of_empty.
    unfold queued, entryIs. simpl. rewrite Hs.
    destruct (String.eqb_spec s v) as [<-|Hne].
    - rewrite bool_decide_eq_true_2 by done. lia.
    - rewrite bool_decide_eq_false_2 by congruence. lia. }
  split; simpl; try (intros v Hv; by apply not_elem_of_empty in Hv).
  - intros v. rewrite Hexp. by apply initInDegree_lookup.
  - intros v e Hv. by apply not_elem_of_empty in Hv.
  - intros v _ Hseed. rewrite Hexp. destruct Hseed as [->|Hpos].
    + rewrite bool_decide_eq_true_2 by done. lia.
    + destruct (bool_decide (v = s)); lia.
  - intros x Hx. apply list_elem_of_singleton in Hx as ->. simpl. by left.
Qed.

Lemma initState_depthInv startNode :
  id startNode = s -> depthInv graph s (initState startNode).
Proof.
  intros Hs. split; simpl; try done.
  - constructor.
  - intros x Hx. apply list_elem_of_singleton in Hx as ->. simpl. rewrite Hs. constructor.
  - exists 0%nat, [ {| nd_node := startNode; depth := 0%nat |} ], [].
    split_and!; [done | by repeat constructor | constructor | done].
Qed.

Lemma initState_potential startNode :
  potential graph (initState startNode) = S (length (edges graph)).
Proof.
  unfold potential. simpl. f_equal.
  rewrite <- (length_filter_countIf (fun e => negb (inFin ∅ e))).
  f_equal. induction (edges graph) as [|e es IH]; simpl; [done|].
  unfold inFin at 1. rewrite bool_decide_eq_false_2 by apply not_elem_of_empty.
  simpl. by rewrite IH.
Qed.

(** [dagLayout] always leaves the loop with an empty queue. *)
Lemma dagLayout_run :
  s ∈ nodeIds graph ->
  exists st,
    countInv graph s st /\ depthInv graph s st /\ proc st = []
    /\ dagLayout graph
       = Some (if bool_decide (size (finished st) ≠ length (nodes graph))
               then Ok None
               else levels ← invertDepthMap st; Ok (Some levels)).
Proof.
  intros Hs. destruct (startNode_found Hs) as (startNode & others & Hfilter & Hid).
  destruct (dagLoop_terminates graph s (depthInv graph s)
              (depthInv_step graph s) (S (length (edges graph)))
              (initState startNode))
    as (st & Hrun & Hd & Hc & Hq).
  - by apply initState_depthInv.
  - by apply initState_countInv.
  - by rewrite initState_potential.
  - exists st. split_and!; try done.
    unfold dagLayout, dagLayoutWith. rewrite Hfilter.
    unfold initState in Hrun. rewrite Hrun. by destruct (bool_decide _).
Qed.

(** The iteration bound of [dagLayout] is never hit. *)
Lemma dagLayout_total : exists r, dagLayout graph = Some r.
Proof.
  destruct (decide (s ∈ nodeIds graph)) as [Hs|Hs].
  - destruct (dagLayout_run Hs) as (st & _ & _ & _ & ->). eauto.
  - unfold dagLayout, dagLayoutWith.
    destruct (filter _ (nodes graph)) as [|n others] eqn:E; [eauto|].
    exfalso. apply Hs.
    assert (H : n ∈ filter (fun n => String.eqb (id n) s = true) (nodes graph))
      by (rewrite E; by left).
    apply list_elem_of_filter in H as [Hid Hn]. apply String.eqb_eq in Hid as <-.
    apply list_elem_of_fmap. by exists n.
Qed.

Section Final.

Context (st : DagState).
Context (Hwf : wellFormed graph) (Hs : s ∈ nodeIds graph).
Context (Hc : countInv graph s st) (Hd : depthInv graph s st) (Hq : proc st = []).

Definition allFinished : Prop := forall v, v ∈ nodeIds graph -> v ∈ finished st.

Lemma finished_nodeId v : v ∈ finished st -> v ∈ nodeIds graph.
Proof. intros Hv. apply seeded_nodeId; [done | done |]. by apply (ci_fin_seeded graph s st Hc). Qed.

Lemma size_finished_iff :
  size (finished st) = length (nodes graph) <-> allFinished.
Proof.
  destruct Hwf as [Hnd _].
  assert (Hsub : finished st ⊆ list_to_set (nodeIds graph)).
  { intros v Hv. apply elem_of_list_to_set. by apply finished_nodeId. }
  assert (Hsize : size (list_to_set (C := gset string) (nodeIds graph))
                  = length (nodes graph)).
  { rewrite size_list_to_set by done. unfold nodeIds. apply length_map. }
  split.
  - intros Heq v Hv.
    rewrite (set_subseteq_size_eq _ _ Hsub) by lia.
    by apply elem_of_list_to_set.
  - intros Hall. rewrite <- Hsize. f_equal. apply set_eq. intros v.
    rewrite elem_of_list_to_set. split; [apply finished_nodeId | apply Hall].
Qed.


(** In the final state the depth recorded for the target of an edge
    exceeds the depth recorded for its finished source. *)
Lemma edge_depth e du :
  e ∈ edges graph -> id (source e) ∈ finished st ->
  ordGet (depthMap st) (id (source e)) = Some du ->
  exists dv, ordGet (depthMap st) (id (target e)) = Some dv /\ (S du <= dv)%nat.
Proof.
  intros He Hf Hdu.
  destruct (di_edge graph s st Hd e du He Hf Hdu) as [H|(x & Hx & _)]; [done|].
  rewrite Hq in Hx. by apply elem_of_nil in Hx.
Qed.

Lemma walk_depth u w n du :
  allFinished ->
  walk graph u w n -> u ∈ finished st ->
  ordGet (depthMap st) u = Some du ->
  exists dw, ordGet (depthMap st) w = Some dw /\ (du + n <= dw)%nat.
Proof.
  intros Hall Hw. revert du.
  induction Hw as [u|u v w n (e & He & <- & <-) _ IH]; intros du Hf Hdu.
  - exists du. split; [done | lia].
  - destruct (edge_depth e du He Hf Hdu) as (dv & Hdv & Hlt).
    destruct (IH dv) as (dw & Hdw & Hle); [|done|].
    + apply Hall. by apply Hwf.
    + exists dw. split; [done | lia].
Qed.

Lemma allFinished_acyclic : allFinished -> acyclic graph.
Proof.
  intros Hall v n Hcyc.
  assert (Hv : v ∈ finished st).
  { inversion Hcyc as [|? ? ? ? (e & He & <- & _) _]; subst. apply Hall. by apply Hwf. }
  destruct (di_fin_dm graph s st Hd v Hv) as [dv Hdv].
  destruct (walk_depth v v (S n) dv Hall Hcyc Hv Hdv) as (dv' & Hdv' & Hle).
  rewrite Hdv in Hdv'. injection Hdv' as <-. lia.
Qed.







End Final.

End DagFinal.

(** Decide a closed decidable proposition by evaluation. *)
Ltac by_compute :=
  match goal with
  | |- ?P => apply (bool_decide_unpack P); vm_compute; exact I
  end.

(** ** Inverting the depth map *)

(** [v] is listed at level [i]. *)
Definition listedAt (levels : list (list string)) (i : nat) (v : string) : Prop :=
  exists l, levels !! i = Some l /\ v ∈ l.

Lemma listedAt_push acc d l k i v :
  acc !! d = Some l ->
  listedAt (<[d := l ++ [k]]> acc) i v <-> listedAt acc i v \/ (v = k /\ i = d).
Proof.
  intros Hd. unfold listedAt. destruct (decide (i = d)) as [->|Hne].
  - rewrite list_lookup_insert_eq by (by apply lookup_lt_Some with l). split.
    + intros (l' & [= <-] & Hv). apply elem_of_app in Hv as [Hv|Hv]; [left; eauto|].
      apply list_elem_of_singleton in Hv. by right.
    + intros [(l' & Hl' & Hv)|[-> _]]; eexists; (split; [reflexivity|]).
      * rewrite Hd in Hl'. injection Hl' as <-. apply elem_of_app. by left.
      * apply elem_of_app. right. by apply list_elem_of_singleton.
  - rewrite list_lookup_insert_ne by done. split; [by left|].
    intros [H|[_ ?]]; [done | congruence].
Qed.

Lemma pushAtDepth_pair k d acc :
  pushAtDepth (k, d) acc
  = match acc !! d with
    | Some l => Ok (<[d := l ++ [k]]> acc)
    | None => Throw TypeError
    end.
Proof. reflexivity. Qed.

Lemma invert_forEach (dm : list (string * nat)) (acc : list (list string)) :
  (forall k d, (k, d) ∈ dm -> (d < length acc)%nat) ->
  exists acc',
    forEach pushAtDepth dm acc = Ok acc'
    /\ forall i v, listedAt acc' i v <-> listedAt acc i v \/ (v, i) ∈ dm.
Proof.
  revert acc. induction dm as [|[k d] dm IH]; intros acc Hlt; cbn [forEach].
  - exists acc. split; [done|]. intros i v. split; [by left|].
    intros [H|H]; [done | by apply elem_of_nil in H].
  - destruct (lookup_lt_is_Some_2 acc d) as [l Hl]; [apply (Hlt k); by left|].
    rewrite (pushAtDepth_pair k d acc), Hl. simpl.
    destruct (IH (<[d := l ++ [k]]> acc)) as (acc' & Hrun & Hspec).
    { intros k' d' Hin. rewrite length_insert. apply (Hlt k'). by right. }
    exists acc'. split; [done|]. intros i v.
    rewrite Hspec, (listedAt_push acc d l k i v Hl), elem_of_cons.
    split.
    + intros [[H|[-> ->]]|H]; auto.
    + intros [H|[[= -> ->]|H]]; auto.
Qed.

Lemma invertDepthMap_spec (graph : Graph) (s : string) (st : DagState) :
  depthInv graph s st ->
  exists levels,
    invertDepthMap st = Ok levels
    /\ forall i v, listedAt levels i v <-> ordGet (depthMap st) v = Some i.
Proof.
  intros Hd. unfold invertDepthMap.
  destruct (invert_forEach (depthMap st) (replicate (S (maxDepth st)) []))
    as (levels & Hrun & Hspec).
  { intros k d Hin. rewrite length_replicate.
    apply (ordGet_elem_of _ _ _ (di_nodup graph s st Hd)) in Hin.
    pose proof (di_max graph s st Hd k d Hin). lia. }
  exists levels. split; [done|]. intros i v.
  rewrite Hspec, (ordGet_elem_of _ _ _ (di_nodup graph s st Hd)).
  split; [|by right]. intros [(l & Hl & Hv)|H]; [|done].
  apply lookup_replicate in Hl as [-> _]. by apply elem_of_nil in Hv.
Qed.




(** The two graphs of the documentation. *)
Lemma dagLayout_diamond :
  dagLayout Sample.diamond = Some (Ok (Some [["start"]; ["A"; "B"]; ["C"]])).
Proof. vm_compute. reflexivity. Qed.

Lemma dagLayout_lasso : dagLayout Sample.lasso = Some (Ok None).
Proof. vm_compute. reflexivity. Qed.

(** Outside the well-formed graphs [null] says less: repeated node ids, or
    an edge to a node missing from the node list, also give [null] for a
    graph without cycle in which every listed node is reached. *)
Lemma dagLayout_twins : dagLayout Sample.twins = Some (Ok None).
Proof. vm_compute. reflexivity. Qed.

Lemma dagLayout_dangling : dagLayout Sample.dangling = Some (Ok None).
Proof. vm_compute. reflexivity. Qed.

(** * Further properties of the sources *)

(** ** World mutations ([applyMutations]) *)

(** The last mutation of [ms] on key [k]. *)
Fixpoint lastMutationOf (k : string) (ms : list Mutation) : option Mutation :=
  match ms with
  | [] => None
  | m :: rest =>
      match lastMutationOf k rest with
      | Some m' => Some m'
      | None => if String.eqb (mkey m) k then Some m else None
      end
  end.

Lemma applyMutation_lookup (w : World) (m : Mutation) (k : string) :
  applyMutation w m !! k =
    if String.eqb (mkey m) k
    then match mutationType m with ADD => Some (mvalue m) | REMOVE => None end
    else w !! k.
Proof.
  unfold applyMutation.
  destruct (String.eqb_spec (mkey m) k) as [->|Hne], (mutationType m).
  - apply lookup_insert_eq.
  - apply lookup_delete_eq.
  - by apply lookup_insert_ne.
  - by apply lookup_delete_ne.
Qed.

Lemma fold_applyMutation_lookup (ms : list Mutation) (w : World) (k : string) :
  fold_left applyMutation ms w !! k =
    match lastMutationOf k ms with
    | Some m => match mutationType m with ADD => Some (mvalue m) | REMOVE => None end
    | None => w !! k
    end.
Proof.
  revert w. induction ms as [|m ms IH]; intros w; simpl; [done|].
  rewrite IH. destruct (lastMutationOf k ms); [done|].
  rewrite applyMutation_lookup. by destruct (String.eqb (mkey m) k).
Qed.

(** X1.  After an edge's mutations are applied, every key holds what the
    last mutation on that key says: the added value after an Add, nothing
    after a Remove; a key no mutation names keeps its entry.  An edge
    without a mutation list changes nothing. *)
Theorem applyMutations_last_writer (w : World) (e : Edge) (k : string) :
  applyMutations w e !! k =
    match lastMutationOf k (default [] (mutations e)) with
    | Some m => match mutationType m with ADD => Some (mvalue m) | REMOVE => None end
    | None => w !! k
    end.
Proof.
  unfold applyMutations. destruct (mutations e) as [ms|]; simpl; [|done].
  apply fold_applyMutation_lookup.
Qed.

(** X2.  Applying the mutations of an edge a second time changes nothing,
    and on the keys the mutations name the result does not depend on the
    world they start from. *)
Theorem applyMutations_idempotent (w w' : World) (e : Edge) :
  applyMutations (applyMutations w e) e = applyMutations w e
  /\ forall k,
       is_Some (lastMutationOf k (default [] (mutations e))) ->
       applyMutations w e !! k = applyMutations w' e !! k.
Proof.
  assert (Hl : forall v k, applyMutations v e !! k =
    match lastMutationOf k (default [] (mutations e)) with
    | Some m => match mutationType m with ADD => Some (mvalue m) | REMOVE => None end
    | None => v !! k
    end).
  { intros v k. unfold applyMutations. destruct (mutations e) as [ms|]; simpl; [|done].
    apply fold_applyMutation_lookup. }
  split.
  - apply map_eq. intros k. rewrite (Hl (applyMutations w e) k).
    destruct (lastMutationOf k _) eqn:E; [by rewrite Hl, E | done].
  - intros k [m Hm]. by rewrite !Hl, Hm.
Qed.

(** ** Edge kinds and names ([isRepeatedFail], [getEdgeName]) *)

Lemma isRepeatedFail_loop_spec (rs : list EdgeRule) (b : bool) :
  isRepeatedFail_loop rs b = true <->
  onlyRepeatedFail rs /\ (b = true \/ rs <> []).
Proof.
  revert b. induction rs as [|[d|d] rs IH]; intros b; simpl.
  - split; [intros ->; split; [constructor | by left] | intros [_ [?|?]]; done].
  - split; [done|]. intros [H _]. apply Forall_cons in H as [[d' ?] _]. done.
  - rewrite IH. split.
    + intros [H _]. split; [constructor; eauto | by right].
    + intros [H _]. apply Forall_cons in H as [_ H]. split; [done | by left].
Qed.

Lemma firstSemanticRule_onlyRepeatedFail (rs : list EdgeRule) :
  onlyRepeatedFail rs -> firstSemanticRule rs = None.
Proof. induction 1 as [|r rs [d ->] _ IH]; simpl; done. Qed.

(** X3.  An edge counts as a repeated-fail edge exactly when it has at
    least one rule and all its rules are repeated-fail rules (an edge
    without rules does not); such an edge has no name. *)
Theorem isRepeatedFail_spec (e : Edge) :
  (isRepeatedFail e = true <-> rules e <> [] /\ onlyRepeatedFail (rules e))
  /\ (isRepeatedFail e = true -> getEdgeName e = None).
Proof.
  unfold isRepeatedFail. rewrite isRepeatedFail_loop_spec. split.
  - split; [intros [H [?|?]]; done | intros [? ?]; split; [done | by right]].
  - intros [H _]. unfold getEdgeName.
    by rewrite (firstSemanticRule_onlyRepeatedFail _ H).
Qed.

(** ** Require conditions ([getOutEdges]) *)

Definition isRequire (c : Condition) : Prop := conditionType c = REQUIRE.

Lemma passedConditions_loop_require (w : World) (cs : list Condition) :
  Forall isRequire cs ->
  passedConditions_loop w cs = true <->
  forall c, c ∈ cs -> w !! ckey c = Some (cvalue c).
Proof.
  induction 1 as [|c cs Hc _ IH]; simpl.
  - split; [intros _ c Hin; by apply elem_of_nil in Hin | done].
  - destruct (conditionFails w c) eqn:E.
    + split; [done|]. intros H.
      assert (conditionFails w c = false); [|congruence].
      apply conditionFails_require; [done|]. apply H. by left.
    + apply conditionFails_require in E; [|done]. rewrite IH. split.
      * intros H c' Hin. apply elem_of_cons in Hin as [->|Hin]; auto.
      * intros H c' Hin. apply H. by right.
Qed.

(** X4.  For an edge whose conditions are all Require conditions, the
    out-edge query with a world returns the edge exactly when it is an
    edge of the graph leaving the node and the world holds, for every
    condition, the required value under the condition's key; an edge with
    no condition list passes in every world. *)
Theorem getOutEdges_require (n : Node) (g : Graph) (w : World) (e : Edge) :
  Forall isRequire (default [] (conditions e)) ->
  e ∈ getOutEdges n g (Some w) <->
  e ∈ edges g /\ id (source e) = id n
  /\ forall c, c ∈ default [] (conditions e) -> w !! ckey c = Some (cvalue c).
Proof.
  intros Hreq. unfold getOutEdges. rewrite list_elem_of_filter, String.eqb_eq.
  unfold passedConditions. destruct (conditions e) as [cs|]; simpl in *.
  - rewrite (passedConditions_loop_require w cs Hreq). tauto.
  - split; [intros [[? _] ?]; split_and!; [done | done |] | tauto].
    intros c Hc. by apply elem_of_nil in Hc.
Qed.

Lemma getOutEdges_require_witness :
  Sample.guardedFailEdge
    ∈ getOutEdges (Sample.mkN "start") Sample.guardedFailGraph (Some {[ "k" := "v" ]})
  <-> Sample.guardedFailEdge ∈ edges Sample.guardedFailGraph
      /\ id (source Sample.guardedFailEdge) = id (Sample.mkN "start")
      /\ forall c, c ∈ default [] (conditions Sample.guardedFailEdge) ->
                   ({[ "k" := "v" ]} : World) !! ckey c = Some (cvalue c).
Proof.
  apply (getOutEdges_require (Sample.mkN "start") Sample.guardedFailGraph
           {[ "k" := "v" ]} Sample.guardedFailEdge).
  simpl. repeat constructor.
Defined.

(** ** Matching a rule to an edge ([isSemanticRuleOnEdge]) *)

(** [new Set(rule.matchCandidates.map(c => c.text))]. *)
Definition candidateSet (r : SemanticMatchRule) : gset string :=
  list_to_set (map text (matchCandidates r)).

(** The loop over [edge.rules]: the first semantic rule with as many
    distinct texts as the query decides. *)
Fixpoint isSemanticRuleOnEdge_loop (queryCandidates : gset string)
    (rs : list EdgeRule) : bool :=
  match rs with
  | [] => false
  | REPEATED_FAIL _ :: rest => isSemanticRuleOnEdge_loop queryCandidates rest
  | SEMANTIC_MATCH semanticRule :: rest =>
      let ruleCandidates := candidateSet semanticRule in
      if bool_decide (size queryCandidates = size ruleCandidates)
      then forallb (fun c => bool_decide (c ∈ ruleCandidates))
                   (elements queryCandidates)
      else isSemanticRuleOnEdge_loop queryCandidates rest
  end.

Definition isSemanticRuleOnEdge (e : Edge) (query : SemanticMatchRule) : bool :=
  isSemanticRuleOnEdge_loop (candidateSet query) (rules e).

(** No semantic rule of [rs] has as many distinct texts as [q]. *)
Definition noSameSize (q : gset string) (rs : list EdgeRule) : Prop :=
  Forall (fun rl => forall d, rl = SEMANTIC_MATCH d -> size (candidateSet d) <> size q) rs.

Lemma forallb_elements_subseteq (q r : gset string) :
  forallb (fun c => bool_decide (c ∈ r)) (elements q) = true <-> q ⊆ r.
Proof.
  rewrite forallb_forall. split.
  - intros H c Hc. apply elem_of_elements, list_elem_of_In, H in Hc.
    by apply bool_decide_eq_true in Hc.
  - intros H c Hc. apply bool_decide_eq_true, H, elem_of_elements, list_elem_of_In, Hc.
Qed.

(** X5.  [isSemanticRuleOnEdge] answers true exactly when the first
    semantic rule of the edge that has as many distinct candidate texts
    as the query has the same set of texts; the order of the candidates,
    repetitions and anti-example flags play no part, and a later rule
    with the query's texts is not looked at once an earlier rule of the
    same size differs. *)
Theorem isSemanticRuleOnEdge_spec (e : Edge) (query : SemanticMatchRule) :
  isSemanticRuleOnEdge e query = true <->
  exists pre r post,
    rules e = pre ++ SEMANTIC_MATCH r :: post
    /\ noSameSize (candidateSet query) pre
    /\ candidateSet r = candidateSet query.
Proof.
  unfold isSemanticRuleOnEdge. generalize (rules e) as rs.
  set (q := candidateSet query).
  induction rs as [|[d|d] rs IH]; simpl.
  - split; [done|]. intros (pre & r & post & H & _). by destruct pre.
  - case_bool_decide as Hsize.
    + rewrite forallb_elements_subseteq. split.
      * intros Hsub. exists [], d, rs. split_and!; [done | constructor |].
        symmetry. apply set_subseteq_size_eq; [done | lia].
      * intros (pre & r & post & Heq & Hpre & Hset).
        destruct pre as [|p pre]; simpl in Heq; injection Heq as Hp Hrs; subst.
        -- by rewrite Hset.
        -- apply Forall_cons in Hpre as [Hp _]. by destruct (Hp d eq_refl).
    + rewrite IH. split.
      * intros (pre & r & post & -> & Hpre & Hset).
        exists (SEMANTIC_MATCH d :: pre), r, post. split_and!; [done | | done].
        constructor; [|done]. intros d' [= <-]. congruence.
      * intros (pre & r & post & Heq & Hpre & Hset).
        destruct pre as [|p pre]; simpl in Heq; injection Heq as Hp Hrs; subst.
        -- destruct Hsize. by rewrite Hset.
        -- apply Forall_cons in Hpre as [_ Hpre]. by exists pre, r, post.
  - rewrite IH. split.
    + intros (pre & r & post & -> & Hpre & Hset).
      exists (REPEATED_FAIL d :: pre), r, post. split_and!; [done | | done].
      constructor; [|done]. intros d' [=].
    + intros (pre & r & post & Heq & Hpre & Hset).
      destruct pre as [|p pre]; simpl in Heq; [done|]. injection Heq as Hp Hrs; subst.
      apply Forall_cons in Hpre as [_ Hpre]. by exists pre, r, post.
Qed.

(** ** The largest element ([argmax]) *)

(** [argmax]: the running maximum starts at [-Infinity], which is [None]
    here; the result is the pair [[maxIndex, maxValue]]. *)
Fixpoint argmax_loop (array : list Q) (i : nat) (maxIndex : Z) (maxValue : option Q)
  : Z * option Q :=
  match array with
  | [] => (maxIndex, maxValue)
  | value :: rest =>
      if match maxValue with
         | None => true
         | Some m => Qltb m value
         end
      then argmax_loop rest (S i) (Z.of_nat i) (Some value)
      else argmax_loop rest (S i) maxIndex maxValue
  end.

Definition argmax (array : list Q) : Z * option Q :=
  argmax_loop array 0%nat (-1) None.

(** [m] at position [k] is the first largest element of [array]. *)
Definition firstMax (array : list Q) (k : nat) (m : Q) : Prop :=
  array !! k = Some m
  /\ (forall j v, array !! j = Some v -> (v <= m)%Q)
  /\ (forall j v, (j < k)%nat -> array !! j = Some v -> (v < m)%Q).

Lemma argmax_loop_spec (all rest : list Q) (i k : nat) (m : Q) :
  (forall j v, rest !! j = Some v -> all !! (i + j)%nat = Some v) ->
  (k < i)%nat -> all !! k = Some m ->
  (forall j v, (j < i)%nat -> all !! j = Some v -> (v <= m)%Q) ->
  (forall j v, (j < k)%nat -> all !! j = Some v -> (v < m)%Q) ->
  exists k' m',
    argmax_loop rest i (Z.of_nat k) (Some m) = (Z.of_nat k', Some m')
    /\ all !! k' = Some m'
    /\ (forall j v, (j < i + length rest)%nat -> all !! j = Some v -> (v <= m')%Q)
    /\ (forall j v, (j < k')%nat -> all !! j = Some v -> (v < m')%Q).
Proof.
  revert i k m. induction rest as [|value rest IH]; intros i k m Hall Hk Hm Hle Hlt; simpl.
  - exists k, m. rewrite Nat.add_0_r. by split_and!.
  - assert (Hi : all !! i = Some value).
    { specialize (Hall 0%nat value eq_refl). by rewrite Nat.add_0_r in Hall. }
    assert (Hrest : forall j v, rest !! j = Some v -> all !! (S i + j)%nat = Some v).
    { intros j v Hj. rewrite Nat.add_succ_l, <- Nat.add_succ_r. by apply Hall. }
    rewrite Nat.add_succ_r, <- Nat.add_succ_l.
    destruct (Qltb m value) eqn:E.
    + apply Qltb_lt in E. apply IH; [done | lia | done | |].
      * intros j v Hj Hv. destruct (decide (j = i)) as [->|].
        -- rewrite Hi in Hv. injection Hv as <-. lra.
        -- assert (v <= m)%Q by (apply (Hle j); [lia | done]). lra.
      * intros j v Hj Hv. assert (v <= m)%Q by (by apply (Hle j)). lra.
    + apply Qltb_ge in E. apply IH; [done | lia | done | | done].
      intros j v Hj Hv. destruct (decide (j = i)) as [->|].
      * rewrite Hi in Hv. by injection Hv as <-.
      * apply (Hle j); [lia | done].
Qed.

(** X6.  [argmax] of an empty array is [[-1, -Infinity]]; of any other
    array it is the position and value of the first largest element,
    whatever the values (also when all are at most [-1]). *)
Theorem argmax_first_max :
  argmax [] = (-1, None)
  /\ forall value rest,
       exists k m,
         argmax (value :: rest) = (Z.of_nat k, Some m)
         /\ firstMax (value :: rest) k m.
Proof.
  split; [reflexivity|]. intros value rest. unfold argmax. simpl.
  destruct (argmax_loop_spec (value :: rest) rest 1 0 value)
    as (k & m & Hrun & Hk & Hle & Hlt); try done.
  - lia.
  - intros j v Hj Hv. destruct j; [|lia]. injection Hv as <-. lra.
  - intros j v Hj. lia.
  - exists k, m. split; [done|]. split; [done|]. split; [|done].
    intros j v Hv. apply (Hle j); [|done].
    apply lookup_lt_Some in Hv. simpl in *. lia.
Qed.

(** ** The best candidate of a scored rule (node tester) *)

(** [getBestCandidate]: the first scored candidate flagged [topScore]. *)
Fixpoint getBestCandidate_loop (scs : list ScoredCandidate) : option ScoredCandidate :=
  match scs with
  | [] => None
  | sc :: rest => if topScore sc then Some sc else getBestCandidate_loop rest
  end.

Definition getBestCandidate (ssmr : ScoredSemanticMatchRule) : option ScoredCandidate :=
  getBestCandidate_loop (ssmr_scoredCandidates ssmr).

Lemma getBestCandidate_scoredWithTop (scores : list Q) k c cs i :
  cs !! k = Some c ->
  getBestCandidate_loop
    (imap (fun j c => {| candidate := c; score := scores !! (i + j)%nat;
                         topScore := bool_decide ((i + j)%nat = (i + k)%nat) |}) cs)
  = Some {| candidate := c; score := scores !! (i + k)%nat; topScore := true |}.
Proof.
  revert k i. induction cs as [|c0 cs IH]; intros k i Hk; [done|].
  destruct k as [|k]; simpl in *.
  - injection Hk as ->. rewrite Nat.add_0_r. by rewrite bool_decide_eq_true_2.
  - rewrite bool_decide_eq_false_2 by lia.
    replace (i + S k)%nat with (S i + k)%nat by lia.
    rewrite <- (IH k (S i) Hk). f_equal.
    apply imap_ext. intros j c' _. simpl.
    replace (i + S j)%nat with (S (i + j)) by lia. done.
Qed.

(** X7.  For a rule with a candidate scored above [-1], the best
    candidate shown for the scored rule is the candidate at the first
    position attaining the largest score, with that score; this is so
    also when the candidate is an anti-example and the rule has no
    qualifying score.  For a rule without candidates there is none. *)
Theorem getBestCandidate_first_max svc utterance r :
  (matchCandidates r = [] ->
   exists res,
     checkSemanticMatchRule svc utterance r = Ok res
     /\ getBestCandidate {| ssmr_rule := r;
                            ssmr_scoredCandidates := scoredCandidates res;
                            chosen := false |} = None)
  /\ ((exists j s, (j < length (matchCandidates r))%nat
                   /\ scoresFor svc utterance r !! j = Some s /\ (-1 < s)%Q) ->
      exists res k c m,
        checkSemanticMatchRule svc utterance r = Ok res
        /\ matchCandidates r !! k = Some c
        /\ isTop (scoresFor svc utterance r) (length (matchCandidates r)) k m
        /\ getBestCandidate {| ssmr_rule := r;
                               ssmr_scoredCandidates := scoredCandidates res;
                               chosen := false |}
           = Some {| candidate := c; score := Some m; topScore := true |}).
Proof.
  split.
  - intros Hnil. unfold checkSemanticMatchRule. rewrite Hnil. eauto.
  - intros (j & s & Hj & Hs & Hgt).
    assert (Hne : matchCandidates r <> []).
    { intros E. rewrite E in Hj. simpl in Hj. lia. }
    destruct (checkSemanticMatchRule_cases svc utterance r Hne)
      as [[Hno _]|(k & c & m & Hc & Htop & ->)].
    + specialize (Hno j s Hj Hs). lra.
    + eexists _, k, c, m. split; [reflexivity|]. split; [done|]. split; [done|].
      unfold getBestCandidate, scoredWithTop. simpl.
      destruct Htop as (_ & Hm & _). rewrite <- Hm.
      apply (getBestCandidate_scoredWithTop (scoresFor svc utterance r) k c _ 0 Hc).
Qed.

Lemma getBestCandidate_first_max_witness :
  exists res k c m,
    checkSemanticMatchRule (Sample.listScorer (1 # 2) [(7 # 8); (15 # 16)]%Q) "yes"
      {| matchCandidates := [Sample.yes; Sample.no_anti] |} = Ok res
    /\ [Sample.yes; Sample.no_anti] !! k = Some c
    /\ isTop [(7 # 8); (15 # 16)]%Q 2 k m
    /\ getBestCandidate {| ssmr_rule := {| matchCandidates := [Sample.yes; Sample.no_anti] |};
                           ssmr_scoredCandidates := scoredCandidates res;
                           chosen := false |}
       = Some {| candidate := c; score := Some m; topScore := true |}.
Proof.
  apply (getBestCandidate_first_max
           (Sample.listScorer (1 # 2) [(7 # 8); (15 # 16)]%Q) "yes"
           {| matchCandidates := [Sample.yes; Sample.no_anti] |}).
  exists 0%nat, (7 # 8)%Q. split; [simpl; lia|]. split; reflexivity.
Defined.

(** ** Saving and loading ([graph_serialization.ts]) *)

Section Saving.

(** [k] is the first position of [ns] holding a node with id [i]. *)
Definition firstWithId (ns : list Node) (i : string) (k : nat) : Prop :=
  (exists n, ns !! k = Some n /\ id n = i)
  /\ forall j m, (j < k)%nat -> ns !! j = Some m -> id m <> i.

Lemma firstWithId_unique ns i k k' :
  firstWithId ns i k -> firstWithId ns i k' -> k = k'.
Proof.
  intros [(n & Hn & Hi) Hk] [(n' & Hn' & Hi') Hk'].
  destruct (Nat.lt_trichotomy k k') as [Hlt|[?|Hlt]]; [|done|].
  - by destruct (Hk' k n Hlt Hn).
  - by destruct (Hk k' n' Hlt Hn').
Qed.

Definition notFound : exn := Error "Node not found by id.".

Lemma findNodeIndex_from_cases (k0 : nat) (ns : list Node) (tgt : Node) :
  (exists i, firstWithId ns (id tgt) i
             /\ findNodeIndex_from k0 ns tgt = Ok (k0 + i)%nat)
  \/ ((id tgt ∉ map id ns) /\ findNodeIndex_from k0 ns tgt = Throw notFound).
Proof.
  revert k0. induction ns as [|n ns IH]; intros k0; simpl.
  - right. split; [apply not_elem_of_nil | done].
  - destruct (String.eqb_spec (id n) (id tgt)) as [Heq|Hne].
    + left. exists 0%nat. rewrite Nat.add_0_r. split; [|done].
      split; [by exists n | intros j m Hj; lia].
    + destruct (IH (S k0)) as [(i & [(m & Hm & Hid) Hfirst] & Hrun)|[Hnot Hrun]].
      * left. exists (S i). rewrite Nat.add_succ_r. split; [|done].
        split; [by exists m|]. intros [|j] m' Hj Hm'; simpl in Hm'.
        -- by injection Hm' as <-.
        -- apply (Hfirst j); [lia | done].
      * right. split; [|done]. intros Hin.
        apply elem_of_cons in Hin as [?|?]; [congruence | done].
Qed.

(** [findNodeIndex] reads ids only. *)
Lemma findNodeIndex_from_ids k0 ns ns' tgt tgt' :
  map id ns = map id ns' -> id tgt = id tgt' ->
  findNodeIndex_from k0 ns tgt = findNodeIndex_from k0 ns' tgt'.
Proof.
  revert k0 ns'. induction ns as [|n ns IH]; intros k0 [|n' ns'] Hids Ht;
    simpl in *; try done.
  injection Hids as Hn Hids. rewrite Hn, Ht.
  destruct (String.eqb (id n') (id tgt')); [done|]. by apply IH.
Qed.

Lemma findNodeIndex_Ok (ns : list Node) (tgt : Node) (k : nat) :
  findNodeIndex ns tgt = Ok k <-> firstWithId ns (id tgt) k.
Proof.
  unfold findNodeIndex.
  destruct (findNodeIndex_from_cases 0 ns tgt)
    as [(i & Hfirst & ->)|[Hnot ->]]; simpl.
  - split; [by intros [= <-]|].
    intros Hk. f_equal. by apply (firstWithId_unique ns (id tgt)).
  - split; [done|]. intros [(n & Hn & Hid) _]. destruct Hnot.
    rewrite <- Hid. apply list_elem_of_fmap. exists n. split; [done|].
    by apply list_elem_of_lookup_2 with k.
Qed.

Lemma findNodeIndex_Throw (ns : list Node) (tgt : Node) (x : exn) :
  findNodeIndex ns tgt = Throw x <-> x = notFound /\ (id tgt ∉ map id ns).
Proof.
  unfold findNodeIndex.
  destruct (findNodeIndex_from_cases 0 ns tgt)
    as [(i & Hfirst & ->)|[Hnot ->]]; simpl.
  - split; [done|]. intros [_ Hnot]. destruct Hnot.
    destruct Hfirst as [(n & Hn & <-) _].
    apply list_elem_of_fmap. exists n. split; [done|].
    by apply list_elem_of_lookup_2 with i.
  - split; [by intros [= <-] | by intros [-> _]].
Qed.

(** X8.  [findNodeIndex] returns the first position holding a node with
    the target's id, and raises 'Node not found by id.' exactly when no
    node has that id; it raises nothing else. *)
Theorem findNodeIndex_spec (ns : list Node) (tgt : Node) :
  (forall k, findNodeIndex ns tgt = Ok k <-> firstWithId ns (id tgt) k)
  /\ (forall x, findNodeIndex ns tgt = Throw x <->
                x = notFound /\ (id tgt ∉ map id ns)).
Proof.
  split; [intros k; apply findNodeIndex_Ok | intros x; apply findNodeIndex_Throw].
Qed.

Lemma mapM_Ok {A B} (f : A -> result B) (l : list A) (l' : list B) :
  mapM f l = Ok l' <-> Forall2 (fun a b => f a = Ok b) l l'.
Proof.
  revert l'. induction l as [|a l IH]; intros l'; simpl.
  - split; [intros [= <-]; constructor | intros H; by inversion H].
  - destruct (f a) as [b|x] eqn:Ea; simpl.
    + destruct (mapM f l) as [bs|x] eqn:El; simpl.
      * split.
        -- intros [= <-]. constructor; [done | by apply IH].
        -- intros H. inversion H as [|? b' ? bs' Hb Hbs]; subst.
           apply IH in Hbs. congruence.
      * split; [done|]. intros H. inversion H as [|? b' ? bs' Hb Hbs]; subst.
        apply IH in Hbs. done.
    + split; [done|]. intros H. inversion H; subst. congruence.
Qed.

Lemma mapM_Throw {A B} (f : A -> result B) (l : list A) (x : exn) :
  mapM f l = Throw x -> exists a, a ∈ l /\ f a = Throw x.
Proof.
  induction l as [|a l IH]; simpl; [done|].
  destruct (f a) as [b|x'] eqn:Ea; simpl.
  - destruct (mapM f l) as [bs|x'] eqn:El; simpl; [done|].
    intros [= <-]. destruct IH as (a' & Ha' & Hf); [done|].
    exists a'. split; [by right | done].
  - intros [= <-]. exists a. split; [by left | done].
Qed.

Lemma mapM_total {A B} (f : A -> result B) (l : list A) :
  (forall a, a ∈ l -> exists b, f a = Ok b) -> exists l', mapM f l = Ok l'.
Proof.
  induction l as [|a l IH]; intros H; simpl; [eauto|].
  destruct (H a) as [b ->]; [by left|]. simpl.
  destruct IH as [l' ->]; [intros a' Ha'; apply H; by right|]. simpl. eauto.
Qed.

(** The wire edge of an in-memory edge: first positions of its end
    points, rules as they are, missing lists as empty lists; all three
    arrays are written. *)
Definition savedAs (ns : list Node) (e : Edge) (se : SerializableEdge) : Prop :=
  firstWithId ns (id (source e)) (sourceIndex se)
  /\ firstWithId ns (id (target e)) (targetIndex se)
  /\ se_rules se = Some (map storeRule (rules e))
  /\ se_mutations se = Some (default [] (mutations e))
  /\ se_conditions se = Some (default [] (conditions e)).

Lemma savedAs_complete ns e se : savedAs ns e se -> complete se.
Proof.
  intros (_ & _ & Hr & Hm & Hc). unfold complete. rewrite Hr, Hm, Hc.
  split_and!; eauto. eexists. split; [reflexivity|].
  apply Forall_forall. intros r (r0 & -> & _)%list_elem_of_fmap. by destruct r0.
Qed.

Lemma fromEdge_Ok ns e se : fromEdge ns e = Ok se <-> savedAs ns e se.
Proof.
  unfold fromEdge, savedAs.
  pose proof (findNodeIndex_Ok ns (source e)) as Hs.
  pose proof (findNodeIndex_Ok ns (target e)) as Ht.
  destruct (findNodeIndex ns (source e)) as [si|x] eqn:Es; simpl.
  - destruct (findNodeIndex ns (target e)) as [ti|x] eqn:Et; simpl.
    + split.
      * intros [= <-]. simpl. split_and!; try done; [by apply Hs | by apply Ht].
      * intros (H1 & H2 & H3 & H4 & H5). apply Hs in H1. apply Ht in H2.
        injection H1 as ->. injection H2 as ->. destruct se. simpl in *. congruence.
    + split; [done|]. intros (_ & H2 & _). by apply Ht in H2.
  - split; [done|]. intros (H1 & _). by apply Hs in H1.
Qed.

Lemma fromEdge_Throw ns e x :
  fromEdge ns e = Throw x ->
  x = notFound /\ ((id (source e) ∉ map id ns) \/ (id (target e) ∉ map id ns)).
Proof.
  unfold fromEdge.
  pose proof (findNodeIndex_Throw ns (source e)) as Hsx.
  pose proof (findNodeIndex_Throw ns (target e)) as Htx.
  destruct (findNodeIndex ns (source e)) as [si|x'] eqn:Es; simpl.
  - destruct (findNodeIndex ns (target e)) as [ti|x'] eqn:Et; simpl; [done|].
    intros [= <-]. destruct (proj1 (Htx x') eq_refl). auto.
  - intros [= <-]. destruct (proj1 (Hsx x') eq_refl). auto.
Qed.

Lemma fromEdge_total ns e :
  id (source e) ∈ map id ns -> id (target e) ∈ map id ns ->
  exists se, fromEdge ns e = Ok se.
Proof.
  intros Hs Ht. destruct (fromEdge ns e) as [se|x] eqn:E; [eauto|].
  apply fromEdge_Throw in E as [_ [?|?]]; done.
Qed.

(** Every edge joins node ids of the graph. *)
Definition edgesJoinNodes (g : Graph) : Prop :=
  forall e, e ∈ edges g ->
            id (source e) ∈ nodeIds g /\ id (target e) ∈ nodeIds g.

Lemma saves_iff (g : Graph) :
  (exists sg, graphToSerializableGraph g = Ok sg) <-> edgesJoinNodes g.
Proof.
  unfold graphToSerializableGraph, edgesJoinNodes, nodeIds. split.
  - intros [sg Hsg] e He.
    destruct (mapM (fromEdge (nodes g)) (edges g)) as [es|x] eqn:E; [|done].
    apply mapM_Ok in E.
    apply list_elem_of_lookup in He as [i Hi].
    destruct (Forall2_lookup_l _ _ _ i e E Hi) as (se & _ & Hse).
    apply fromEdge_Ok in Hse as ([(n & Hn & Hid) _] & [(m & Hm & Hid') _] & _).
    split; [rewrite <- Hid | rewrite <- Hid'];
      apply list_elem_of_fmap; eexists; (split; [reflexivity|]);
      eapply list_elem_of_lookup_2; eassumption.
  - intros Hall.
    destruct (mapM_total (fromEdge (nodes g)) (edges g)) as [es ->].
    + intros e He. destruct (Hall e He). by apply fromEdge_total.
    + simpl. eauto.
Qed.

(** X9.  Saving a graph succeeds exactly when the ids of both end points
    of every edge are ids of nodes of the graph; otherwise it raises
    'Node not found by id.' and nothing else. *)
Theorem graphToSerializableGraph_succeeds (g : Graph) :
  ((exists sg, graphToSerializableGraph g = Ok sg) <->
   forall e, e ∈ edges g ->
             id (source e) ∈ nodeIds g /\ id (target e) ∈ nodeIds g)
  /\ forall x, graphToSerializableGraph g = Throw x -> x = notFound.
Proof.
  split; [apply saves_iff|].
  unfold graphToSerializableGraph.
  intros x. destruct (mapM (fromEdge (nodes g)) (edges g)) as [es|x'] eqn:E; [done|].
  simpl. intros [= <-]. apply mapM_Throw in E as (e & _ & He).
  by apply fromEdge_Throw in He as [-> _].
Qed.

Lemma saved_edges (g : Graph) (sg : SerializableGraph) :
  graphToSerializableGraph g = Ok sg ->
  sg_nodes sg = map purifyNode (nodes g)
  /\ (exists ses, sg_edges sg = Some ses
                   /\ mapM (fromEdge (nodes g)) (edges g) = Ok ses)
  /\ sg_contentId sg = (if truthyStr (contentId g) then contentId g else None)
  /\ sg_id sg = gid g /\ sg_name sg = name g /\ sg_start sg = start g.
Proof.
  unfold graphToSerializableGraph.
  destruct (mapM (fromEdge (nodes g)) (edges g)) as [es|x] eqn:E; [|done].
  simpl. intros [= <-]. simpl. split_and!; try done. by exists es.
Qed.

(** X10.  A saved graph lists the nodes in order, each stripped to its
    stored fields, and one wire edge per edge in order, whose indices are
    the first positions of the end points' ids and lie inside the node
    list and whose three arrays are all written, every rule with its
    data; a content id is kept only when it is a non-empty string. *)
Theorem graphToSerializableGraph_shape (g : Graph) (sg : SerializableGraph) :
  graphToSerializableGraph g = Ok sg ->
  sg_nodes sg = map purifyNode (nodes g)
  /\ (exists ses,
        sg_edges sg = Some ses
        /\ Forall2 (savedAs (nodes g)) (edges g) ses
        /\ Forall (inRange (length (sg_nodes sg))) ses
        /\ Forall complete ses)
  /\ sg_contentId sg <> Some ""
  /\ sg_id sg = gid g /\ sg_name sg = name g /\ sg_start sg = start g.
Proof.
  intros (Hns & (ses & Hses & E) & Hc & Hid & Hname & Hstart)%saved_edges.
  apply mapM_Ok in E.
  assert (Hsaved : Forall2 (savedAs (nodes g)) (edges g) ses).
  { eapply Forall2_impl; [exact E|]. intros e se. apply fromEdge_Ok. }
  split_and!; try done.
  - exists ses. split_and!; try done.
    + apply (Forall2_Forall_r _ _ _ _ Hsaved). apply Forall_forall.
      intros e _ se ([(n & Hn & _) _] & [(m & Hm & _) _] & _).
      rewrite Hns, length_map. split; by eapply lookup_lt_Some.
    + apply (Forall2_Forall_r _ _ _ _ Hsaved). apply Forall_forall.
      intros e _ se. apply savedAs_complete.
  - rewrite Hc. destruct (contentId g) as [c|]; simpl; [|done].
    destruct (String.eqb_spec c "") as [->|Hne]; simpl; congruence.
Qed.

Lemma graphToSerializableGraph_shape_witness :
  exists sg,
    graphToSerializableGraph Sample.yesGraph = Ok sg
    /\ sg_nodes sg = map purifyNode (nodes Sample.yesGraph)
    /\ (exists ses,
          sg_edges sg = Some ses
          /\ Forall2 (savedAs (nodes Sample.yesGraph)) (edges Sample.yesGraph) ses
          /\ Forall (inRange (length (sg_nodes sg))) ses
          /\ Forall complete ses)
    /\ sg_contentId sg <> Some ""
    /\ sg_id sg = gid Sample.yesGraph /\ sg_name sg = name Sample.yesGraph
    /\ sg_start sg = start Sample.yesGraph.
Proof.
  eexists. split; [vm_compute; reflexivity|].
  apply (graphToSerializableGraph_shape Sample.yesGraph). vm_compute. reflexivity.
Defined.

(** Saving again after loading: the loaded nodes carry the ids of the
    saved ones, so every edge is found at the index it was saved with. *)
Lemma resave_edge (ns ns' : list Node) (e : Edge) (se : SerializableEdge) :
  map id ns' = map id ns -> fromEdge ns e = Ok se ->
  exists e', toEdge ns' se = Ok e' /\ fromEdge ns' e' = Ok se.
Proof.
  intros Hids Hse. pose proof Hse as Hsaved. apply fromEdge_Ok in Hsaved.
  destruct Hsaved as (Hs & Ht & Hr & Hm & Hc).
  assert (Hat : forall i k, firstWithId ns i k ->
            exists n', ns' !! k = Some n' /\ id n' = i).
  { intros i k [(n & Hn & Hi) _].
    assert (H : map id ns' !! k = Some i).
    { rewrite Hids. change (map id ns) with (id <$> ns).
      by rewrite list_lookup_fmap, Hn, <- Hi. }
    change (map id ns') with (id <$> ns') in H.
    rewrite list_lookup_fmap in H.
    destruct (ns' !! k) as [n'|]; [|done]. exists n'. split; [done|].
    by injection H. }
  destruct (Hat _ _ Hs) as (s' & Hs' & Hids').
  destruct (Hat _ _ Ht) as (t' & Ht' & Hidt').
  unfold toEdge, nodeAt. rewrite Hr, Hs', Ht', Hm, Hc. simpl.
  eexists. split; [reflexivity|].
  unfold fromEdge, findNodeIndex. simpl.
  rewrite (findNodeIndex_from_ids 0 ns' ns s' (source e) Hids Hids').
  rewrite (findNodeIndex_from_ids 0 ns' ns t' (target e) Hids Hidt').
  apply findNodeIndex_Ok in Hs, Ht. unfold findNodeIndex in Hs, Ht.
  rewrite Hs, Ht. simpl. rewrite map_repairRule_storeRule.
  destruct se. simpl in *. by subst.
Qed.

Lemma resave_edges (ns ns' : list Node) (es : list Edge)
    (ses : list SerializableEdge) :
  map id ns' = map id ns -> mapM (fromEdge ns) es = Ok ses ->
  exists es', mapM (toEdge ns') ses = Ok es' /\ mapM (fromEdge ns') es' = Ok ses.
Proof.
  intros Hids H. apply mapM_Ok in H.
  induction H as [|e se es ses He _ (es' & E1 & E2)]; simpl.
  - by exists [].
  - destruct (resave_edge ns ns' e se Hids He) as (e' & E3 & E4).
    exists (e' :: es'). rewrite E3. simpl. rewrite E1. simpl.
    split; [done|]. rewrite E4. simpl. by rewrite E2.
Qed.

Lemma truthyStr_keep_idem (c : option string) :
  let c' := if truthyStr c then c else None in
  (if truthyStr c' then c' else None) = c'.
Proof.
  destruct c as [s|]; simpl; [|done].
  destruct (String.eqb s "") eqn:E; simpl; [done|]. by rewrite E.
Qed.

(** X11.  Whatever a save produces is a fixed point of loading and
    saving again: it loads without error and saves to itself, also when
    the graph in memory had repeated node ids. *)
Theorem saved_graph_round_trips (g : Graph) (sg : SerializableGraph) :
  graphToSerializableGraph g = Ok sg -> roundTrip sg = Ok sg.
Proof.
  intros (Hns & (ses & Hses & E) & Hc & Hid & Hname & Hstart)%saved_edges.
  unfold roundTrip, serializableGraphToGraph.
  assert (Hids : map id (map toNode (sg_nodes sg)) = map id (nodes g)).
  { rewrite Hns, map_id_toNode.
    rewrite map_map. apply map_ext. by intros []. }
  destruct (resave_edges (nodes g) (map toNode (sg_nodes sg)) (edges g)
              ses Hids E) as (es' & E1 & E2).
  rewrite Hses, E1. simpl. unfold graphToSerializableGraph. simpl. rewrite E2. simpl.
  rewrite map_map, (map_ext _ (fun n => n) purifyNode_toNode), map_id.
  assert (Hk : (if truthyStr (sg_contentId sg) then sg_contentId sg else None)
               = sg_contentId sg).
  { rewrite Hc. apply truthyStr_keep_idem. }
  rewrite !Hk, <- Hses. by destruct sg.
Qed.

Lemma saved_graph_round_trips_witness :
  exists sg, graphToSerializableGraph Sample.twins = Ok sg /\ roundTrip sg = Ok sg.
Proof.
  eexists. split; [vm_compute; reflexivity|].
  apply (saved_graph_round_trips Sample.twins). vm_compute. reflexivity.
Defined.

(** A node that saving and loading leaves alone: its coordinates are
    both absent or both numbers. *)
Definition storedNode (n : Node) : Prop :=
  (fx n = CUndefined /\ fy n = CUndefined)
  \/ (exists a b, fx n = CNum a /\ fy n = CNum b).

(** An edge that saving and loading leaves alone in a graph with nodes
    [ns]: its end points are nodes of the list, its mutation and
    condition lists are present and it carries no layout data. *)
Definition storedEdge (ns : list Node) (e : Edge) : Prop :=
  source e ∈ ns /\ target e ∈ ns
  /\ mutations e <> None /\ conditions e <> None /\ layout e = None.

Lemma storedNode_toNode (n : Node) : storedNode n -> toNode (purifyNode n) = n.
Proof.
  destruct n as [i t p rp aa fx0 fy0].
  intros [[Hx Hy]|(a & b & Hx & Hy)]; simpl in *; by subst.
Qed.

Lemma NoDup_id_eq (ns : list Node) (n m : Node) (k : nat) :
  NoDup (map id ns) -> ns !! k = Some n -> m ∈ ns -> id n = id m -> n = m.
Proof.
  intros Hnd Hk [j Hj]%list_elem_of_lookup Hid.
  assert (k = j) as ->; [|congruence].
  apply (NoDup_lookup (map id ns) k j (id n)); [done| |].
  - change (map id ns) with (id <$> ns). by rewrite list_lookup_fmap, Hk.
  - change (map id ns) with (id <$> ns). by rewrite list_lookup_fmap, Hj, Hid.
Qed.

Lemma load_saved_edge (ns : list Node) (e : Edge) :
  NoDup (map id ns) -> storedEdge ns e ->
  exists se, fromEdge ns e = Ok se /\ toEdge ns se = Ok e.
Proof.
  intros Hnd (Hs & Ht & Hm & Hc & Hl).
  destruct (fromEdge_total ns e) as [se Hse].
  { apply list_elem_of_fmap. by exists (source e). }
  { apply list_elem_of_fmap. by exists (target e). }
  exists se. split; [done|].
  apply fromEdge_Ok in Hse as ([(s & Hsk & Hsi) _] & [(t & Htk & Hti) _] & Hr & Hm' & Hc').
  unfold toEdge, nodeAt. rewrite Hr, Hsk, Htk, Hm', Hc'. simpl.
  rewrite (NoDup_id_eq ns s (source e) _ Hnd Hsk Hs Hsi).
  rewrite (NoDup_id_eq ns t (target e) _ Hnd Htk Ht Hti).
  rewrite map_repairRule_storeRule.
  destruct e as [? ? ? [cs|] [ms|] ?]; simpl in *; try done.
  by subst.
Qed.

(** X12.  Saving and loading gives back the graph in memory when its
    node ids are pairwise distinct, every node has both coordinates or
    none, every edge joins nodes of the node list, carries its mutation
    and condition lists and no layout data, and the content id is absent
    or a non-empty string. *)
Theorem save_load_identity (g : Graph) :
  NoDup (nodeIds g) ->
  Forall storedNode (nodes g) ->
  Forall (storedEdge (nodes g)) (edges g) ->
  contentId g <> Some "" ->
  (sg ← graphToSerializableGraph g; serializableGraphToGraph sg) = Ok g.
Proof.
  intros Hnd Hns Hes Hc. unfold graphToSerializableGraph, nodeIds in *.
  assert (Hnodes : map toNode (map purifyNode (nodes g)) = nodes g).
  { clear -Hns. induction Hns as [|n ns Hn _ IH]; simpl; [done|].
    by rewrite (storedNode_toNode n Hn), IH. }
  assert (exists ses, mapM (fromEdge (nodes g)) (edges g) = Ok ses
                      /\ mapM (toEdge (nodes g)) ses = Ok (edges g))
    as (ses & E1 & E2).
  { clear -Hnd Hes. induction Hes as [|e es He _ (ses & E1 & E2)]; simpl.
    - by exists [].
    - destruct (load_saved_edge (nodes g) e Hnd He) as (se & E3 & E4).
      exists (se :: ses). rewrite E3. simpl. rewrite E1. simpl.
      split; [done|]. rewrite E4. simpl. by rewrite E2. }
  rewrite E1. simpl. unfold serializableGraphToGraph. simpl.
  rewrite Hnodes, E2. simpl.
  rewrite (contentId_round_trip _ Hc). by destruct g.
Qed.

Definition storedSample : Graph :=
  Sample.mkG ["start"; "A"]
    [Sample.mkE "start" "A"
       [SEMANTIC_MATCH {| matchCandidates := [Sample.yes] |}] (Some [])
       (Some [ {| mutationType := ADD; mkey := "k"; mvalue := "1" |} ])].

Lemma save_load_identity_witness :
  (sg ← graphToSerializableGraph storedSample; serializableGraphToGraph sg)
  = Ok storedSample.
Proof.
  apply (save_load_identity storedSample).
  - simpl. apply NoDup_ListNoDup. repeat constructor; simpl; intuition discriminate.
  - repeat constructor.
  - repeat constructor; simpl; discriminate.
  - discriminate.
Defined.

End Saving.

(** ** More on the layered layout ([dagLayout]) *)

Section LayoutRun.

Context (graph : Graph).

Lemma start_missing_filter :
  start graph ∉ nodeIds graph ->
  filter (fun n => String.eqb (id n) (start graph) = true) (nodes graph) = [].
Proof.
  intros Hs.
  destruct (filter _ (nodes graph)) as [|n others] eqn:E; [done|].
  exfalso. apply Hs.
  assert (H : n ∈ filter (fun n => String.eqb (id n) (start graph) = true)
                         (nodes graph))
    by (rewrite E; by left).
  apply list_elem_of_filter in H as [Hid Hn]. apply String.eqb_eq in Hid as <-.
  apply list_elem_of_fmap. by exists n.
Qed.

(** [startNode] is [undefined] and reading its [id] raises. *)
Lemma dagLayout_start_missing :
  start graph ∉ nodeIds graph -> dagLayout graph = Some (Throw TypeError).
Proof.
  intros Hs. unfold dagLayout, dagLayoutWith. by rewrite start_missing_filter.
Qed.

(** Once an entry has been taken from the queue, [maxDepth] is the depth
    recorded for some node. *)
Definition maxAttained (st : DagState) : Prop :=
  (depthMap st = [] /\ maxDepth st = 0%nat)
  \/ exists k, ordGet (depthMap st) k = Some (maxDepth st).

Lemma maxAttained_step st cur rest :
  depthInv graph (start graph) st -> maxAttained st -> proc st = cur :: rest ->
  maxAttained (dagStep graph cur rest st).
Proof.
  intros Hd Hm Hproc. right. exists (id (nd_node cur)).
  unfold dagStep. cbn [depthMap maxDepth].
  rewrite ordGet_ordSet, String.eqb_refl. f_equal.
  destruct (Nat.ltb_spec (maxDepth st) (depth cur)) as [|Hle]; [done|].
  destruct Hm as [[Hdm Hz]|[k Hk]]; [lia|].
  destruct (di_levels graph _ st Hd) as (d & A & B & HAB & HA & HB & Hle').
  pose proof (Hle' k _ Hk).
  assert (d <= depth cur)%nat; [|lia].
  rewrite Hproc in HAB. destruct A as [|a A]; simpl in HAB.
  - subst B. apply Forall_cons in HB as [HB _]. lia.
  - injection HAB as <- _. apply Forall_cons in HA as [HA _]. lia.
Qed.

(** The state in which [dagLayout] leaves its loop, and what it returns
    from there; inverting the depth map never raises. *)
Lemma dagLayout_final :
  start graph ∈ nodeIds graph ->
  exists st levels,
    countInv graph (start graph) st /\ depthInv graph (start graph) st
    /\ maxAttained st /\ proc st = []
    /\ invertDepthMap st = Ok levels
    /\ (forall i v, listedAt levels i v <-> ordGet (depthMap st) v = Some i)
    /\ dagLayout graph
       = Some (Ok (if bool_decide (size (finished st) ≠ length (nodes graph))
                   then None else Some levels)).
Proof.
  intros Hs.
  destruct (startNode_found graph Hs) as (startNode & others & Hfilter & Hid).
  destruct (dagLoop_terminates graph (start graph)
              (fun st => depthInv graph (start graph) st /\ maxAttained st))
    with (fuel := S (length (edges graph))) (st := initState graph startNode)
    as (st & Hrun & [Hd Hm] & Hc & Hq).
  - intros st cur rest [Hd Hm] Hc Hproc.
    split; [by apply depthInv_step | by apply maxAttained_step].
  - split; [by apply initState_depthInv | by left].
  - by apply initState_countInv.
  - by rewrite initState_potential.
  - destruct (invertDepthMap_spec graph (start graph) st Hd) as (levels & Hinv & Hlv).
    exists st, levels. split_and!; try done.
    unfold dagLayout, dagLayoutWith. rewrite Hfilter.
    unfold initState in Hrun. rewrite Hrun, Hinv. by destruct (bool_decide _).
Qed.

End LayoutRun.

(** X13.  [dagLayout] raises only a [TypeError], and it does so exactly
    when no node carries the start id; on every other graph, well formed
    or not, it returns levels or [null]. *)
Theorem dagLayout_throws_iff (graph : Graph) (x : exn) :
  dagLayout graph = Some (Throw x)
  <-> x = TypeError /\ (start graph ∉ nodeIds graph).
Proof.
  split.
  - intros Hres. destruct (decide (start graph ∈ nodeIds graph)) as [Hs|Hs].
    + destruct (dagLayout_final graph Hs) as (st & levels & _ & _ & _ & _ & _ & _ & Heq).
      by rewrite Heq in Hres.
    + rewrite (dagLayout_start_missing graph Hs) in Hres. by injection Hres as <-.
  - intros [-> Hs]. by apply dagLayout_start_missing.
Qed.

Lemma concat_insert_snoc (acc : list (list string)) (d : nat) l k :
  acc !! d = Some l -> concat (<[d := l ++ [k]]> acc) ≡ₚ k :: concat acc.
Proof.
  revert d. induction acc as [|a acc IH]; intros [|d] Hd; simpl in *; try done.
  - injection Hd as ->. rewrite <- app_assoc. simpl.
    symmetry. apply Permutation_middle.
  - rewrite (IH d Hd). symmetry. apply Permutation_middle.
Qed.

Lemma invert_forEach_concat (dm : list (string * nat)) acc acc' :
  forEach pushAtDepth dm acc = Ok acc' ->
  concat acc' ≡ₚ concat acc ++ map fst dm /\ length acc' = length acc.
Proof.
  revert acc. induction dm as [|[k d] dm IH]; intros acc; cbn [forEach].
  - intros [= <-]. by rewrite app_nil_r.
  - rewrite (pushAtDepth_pair k d acc).
    destruct (acc !! d) as [l|] eqn:Hl; simpl; [|done].
    intros Hrun. destruct (IH _ Hrun) as [Hp Hlen]. split.
    + rewrite Hp, (concat_insert_snoc acc d l k Hl). simpl.
      apply Permutation_middle.
    + by rewrite Hlen, length_insert.
Qed.

Lemma concat_replicate_nil (n : nat) : concat (replicate n ([] : list string)) = [].
Proof. induction n as [|n IH]; simpl; done. Qed.

Lemma walk_split (g : Graph) u w (a b : nat) :
  walk g u w (a + b) -> exists v, walk g u v a /\ walk g v w b.
Proof.
  revert u. induction a as [|a IH]; intros u Hw; simpl in *.
  - exists u. split; [constructor | done].
  - inversion Hw as [|? v' ? ? He Hw']; subst.
    destruct (IH v' Hw') as (v & H1 & H2).
    exists v. split; [by apply walk_step with v' | done].
Qed.

Lemma walk_end_nodeId (g : Graph) u w n :
  wellFormed g -> u ∈ nodeIds g -> walk g u w n -> w ∈ nodeIds g.
Proof.
  intros [_ Hwf] Hu Hw. induction Hw as [u|u v w n (e & He & <- & <-) _ IH]; [done|].
  apply IH. by apply Hwf.
Qed.

Lemma singleton_list (l : list string) (s : string) :
  NoDup l -> (forall v, v ∈ l <-> v = s) -> l = [s].
Proof.
  intros Hnd Hl. apply Permutation_singleton_r.
  apply NoDup_Permutation; [done | apply NoDup_singleton|].
  intros v. by rewrite Hl, list_elem_of_singleton.
Qed.

Section LayoutLevels.

Context (graph : Graph) (st : DagState) (levels : list (list string)).
Context (Hwf : wellFormed graph) (Hs : start graph ∈ nodeIds graph).
Context (Hc : countInv graph (start graph) st).
Context (Hd : depthInv graph (start graph) st).
Context (Hm : maxAttained st) (Hq : proc st = []).
Context (Hall : allFinished graph st).
Context (Hinv : invertDepthMap st = Ok levels).
Context (Hlv : forall i v, listedAt levels i v <-> ordGet (depthMap st) v = Some i).

Lemma depth_of_node v : v ∈ nodeIds graph -> is_Some (ordGet (depthMap st) v).
Proof. intros Hv. by apply (di_fin_dm graph _ st Hd), Hall. Qed.

Lemma keys_are_nodes : map fst (depthMap st) ≡ₚ nodeIds graph.
Proof.
  apply NoDup_Permutation; [apply (di_nodup graph _ st Hd) | apply Hwf |].
  intros v. split.
  - intros ([k d] & -> & Hin)%list_elem_of_fmap. simpl.
    apply (ordGet_elem_of _ _ _ (di_nodup graph _ st Hd)) in Hin.
    apply (seeded_nodeId graph); [done | done |].
    apply (di_keys graph _ st Hd). eauto.
  - intros Hv. destruct (depth_of_node v Hv) as [d Hget].
    apply (ordGet_elem_of _ _ _ (di_nodup graph _ st Hd)) in Hget.
    apply list_elem_of_fmap. by exists (v, d).
Qed.

Lemma levels_concat :
  concat levels ≡ₚ nodeIds graph /\ length levels = S (maxDepth st).
Proof.
  destruct (invert_forEach_concat _ _ _ Hinv) as [Hp Hlen].
  rewrite concat_replicate_nil in Hp. simpl in Hp.
  rewrite length_replicate in Hlen. split; [|done].
  by rewrite Hp, keys_are_nodes.
Qed.

Lemma start_depth : ordGet (depthMap st) (start graph) = Some 0%nat.
Proof.
  destruct (depth_of_node _ Hs) as [[|d] Hget]; [done|].
  pose proof (di_dm_walk graph _ st Hd _ _ Hget) as Hw.
  by destruct (allFinished_acyclic graph st Hwf Hd Hq Hall (start graph) d).
Qed.

Lemma level_zero : levels !! 0%nat = Some [start graph].
Proof.
  destruct levels_concat as [Hp Hlen].
  destruct levels as [|l0 rest] eqn:E; [done|]. simpl. f_equal.
  apply singleton_list.
  - assert (Hnd : NoDup (concat (l0 :: rest))) by (rewrite Hp; apply Hwf).
    simpl in Hnd. by apply NoDup_app in Hnd as [? _].
  - intros v. split.
    + intros Hv.
      assert (Hl : listedAt (l0 :: rest) 0 v) by (by exists l0).
      apply Hlv in Hl. pose proof (di_dm_walk graph _ st Hd _ _ Hl) as Hw.
      by inversion Hw.
    + intros ->. pose proof start_depth as H0. apply Hlv in H0.
      destruct H0 as (l & Hl & Hv). simpl in Hl. by injection Hl as <-.
Qed.

Lemma level_inhabited i :
  (i < length levels)%nat -> exists v, listedAt levels i v.
Proof.
  destruct levels_concat as [_ ->]. intros Hi.
  destruct Hm as [[Hdm _]|[k Hk]].
  { pose proof start_depth as H0. by rewrite Hdm in H0. }
  pose proof (di_dm_walk graph _ st Hd _ _ Hk) as Hw.
  replace (maxDepth st) with (i + (maxDepth st - i))%nat in Hw by lia.
  apply walk_split in Hw as (u & Hw1 & Hw2).
  assert (Hu : u ∈ nodeIds graph) by (by apply (walk_end_nodeId graph _ _ _ Hwf Hs Hw1)).
  destruct (depth_of_node u Hu) as [du Hdu].
  destruct (walk_depth graph st Hwf Hd Hq _ _ _ _ Hall Hw1 (Hall _ Hs) start_depth)
    as (du' & Hdu' & Hle1).
  destruct (walk_depth graph st Hwf Hd Hq _ _ _ _ Hall Hw2 (Hall _ Hu) Hdu)
    as (dk & Hdk & Hle2).
  rewrite Hdu in Hdu'. injection Hdu' as <-.
  rewrite Hk in Hdk. injection Hdk as <-.
  exists u. apply Hlv. rewrite Hdu. f_equal. lia.
Qed.

Lemma edge_levels e i j :
  e ∈ edges graph ->
  listedAt levels i (id (source e)) -> listedAt levels j (id (target e)) ->
  (i < j)%nat.
Proof.
  intros He Hi%Hlv Hj%Hlv.
  destruct (edge_depth graph st Hd Hq e i He) as (dv & Hdv & Hlt); [|done|].
  - apply Hall. by apply Hwf.
  - rewrite Hj in Hdv. injection Hdv as <-. lia.
Qed.

End LayoutLevels.

(** X14.  Levels returned for a graph with pairwise distinct node ids
    and edges between its nodes list every node id exactly once; level 0
    is the start id alone, no level is empty, and every edge leads from a
    level to a strictly later one. *)
Theorem dagLayout_levels_partition (graph : Graph) (levels : list (list string)) :
  wellFormed graph ->
  dagLayout graph = Some (Ok (Some levels)) ->
  concat levels ≡ₚ nodeIds graph
  /\ levels !! 0%nat = Some [start graph]
  /\ Forall (fun l => l <> []) levels
  /\ forall e i j, e ∈ edges graph ->
       listedAt levels i (id (source e)) -> listedAt levels j (id (target e)) ->
       (i < j)%nat.
Proof.
  intros Hwf Hres.
  assert (Hs : start graph ∈ nodeIds graph).
  { destruct (decide (start graph ∈ nodeIds graph)) as [|Hs]; [done|].
    by rewrite (dagLayout_start_missing graph Hs) in Hres. }
  destruct (dagLayout_final graph Hs)
    as (st & lv & Hc & Hd & Hm & Hq & Hinv & Hlv & Heq).
  rewrite Heq in Hres. case_bool_decide as Hsz; [done|]. injection Hres as ->.
  assert (Hall : allFinished graph st).
  { apply (size_finished_iff graph st Hwf Hs Hc).
    by destruct (decide (size (finished st) = length (nodes graph))). }
  split_and!.
  - by apply (levels_concat graph st levels Hwf Hs Hd Hall Hinv).
  - by apply (level_zero graph st levels Hwf Hs Hd Hq Hall Hinv Hlv).
  - apply Forall_lookup. intros i l Hl ->.
    destruct (level_inhabited graph st levels Hwf Hs Hd Hm Hq Hall Hinv Hlv i)
      as (v & l' & Hl' & Hv).
    + by apply lookup_lt_Some with [].
    + rewrite Hl in Hl'. injection Hl' as <-. by apply elem_of_nil in Hv.
  - intros e i j. by apply (edge_levels graph st levels Hwf Hd Hq Hall Hlv).
Qed.

Lemma wellFormed_diamond : wellFormed Sample.diamond.
Proof.
  split.
  - by_compute.
  - intros e He. simpl in He.
    repeat (apply elem_of_cons in He as [->|He]);
      try (by apply elem_of_nil in He);
      split; by_compute.
Defined.

Lemma dagLayout_levels_partition_witness :
  concat [["start"]; ["A"; "B"]; ["C"]] ≡ₚ nodeIds Sample.diamond
  /\ [["start"]; ["A"; "B"]; ["C"]] !! 0%nat = Some [start Sample.diamond]
  /\ Forall (fun l => l <> []) [["start"]; ["A"; "B"]; ["C"]]
  /\ forall e i j, e ∈ edges Sample.diamond ->
       listedAt [["start"]; ["A"; "B"]; ["C"]] i (id (source e)) ->
       listedAt [["start"]; ["A"; "B"]; ["C"]] j (id (target e)) ->
       (i < j)%nat.
Proof.
  apply (dagLayout_levels_partition Sample.diamond).
  - exact wellFormed_diamond.
  - vm_compute. reflexivity.
Defined.

Lemma size_list_to_set_le (l : list string) :
  (size (list_to_set (C := gset string) l) <= length l)%nat.
Proof.
  induction l as [|a l IH].
  - done.
  - cbn [list_to_set length]. rewrite size_union_alt, size_singleton.
    assert (size (list_to_set (C := gset string) l ∖ {[a]})
            <= size (list_to_set (C := gset string) l))%nat.
    { apply subseteq_size. intros x Hx. by apply elem_of_difference in Hx as [? _]. }
    lia.
Qed.

Lemma size_list_to_set_lt (l : list string) :
  ~ NoDup l -> (size (list_to_set (C := gset string) l) < length l)%nat.
Proof.
  induction l as [|a l IH]; intros Hnd.
  - destruct Hnd. constructor.
  - cbn [list_to_set length]. destruct (decide (a ∈ l)) as [Hin|Hnin].
    + assert (E : ({[a]} ∪ list_to_set l : gset string) = list_to_set l).
      { apply subseteq_union_1_L. intros x Hx.
        apply elem_of_singleton in Hx as ->. by apply elem_of_list_to_set. }
      rewrite E. pose proof (size_list_to_set_le l). lia.
    + assert (Hl : ~ NoDup l) by (intros H; apply Hnd; by apply NoDup_cons).
      specialize (IH Hl). rewrite size_union_alt, size_singleton.
      assert (size (list_to_set (C := gset string) l ∖ {[a]})
              <= size (list_to_set (C := gset string) l))%nat.
      { apply subseteq_size. intros x Hx. by apply elem_of_difference in Hx as [? _]. }
      lia.
Qed.

(** X15.  When two nodes share an id, the start id names a node and
    every edge points to a node of the graph, [dagLayout] returns [null]:
    the finished ids are too few to match the number of nodes. *)
Theorem dagLayout_duplicate_ids_null (graph : Graph) :
  (forall e, e ∈ edges graph -> id (target e) ∈ nodeIds graph) ->
  start graph ∈ nodeIds graph ->
  ~ NoDup (nodeIds graph) ->
  dagLayout graph = Some (Ok None).
Proof.
  intros Ht Hs Hdup.
  destruct (dagLayout_final graph Hs) as (st & lv & Hc & _ & _ & _ & _ & _ & ->).
  rewrite bool_decide_eq_true_2; [done|].
  assert (Hsub : finished st ⊆ list_to_set (nodeIds graph)).
  { intros v Hv. apply elem_of_list_to_set.
    destruct (ci_fin_seeded graph _ st Hc v Hv) as [->|Hpos]; [done|].
    apply countIf_pos in Hpos as (e & He & Heq).
    apply String.eqb_eq in Heq as <-. by apply Ht. }
  apply subseteq_size in Hsub.
  pose proof (size_list_to_set_lt (nodeIds graph) Hdup) as Hlt.
  unfold nodeIds in Hlt at 2. rewrite length_map in Hlt. lia.
Qed.

Lemma dagLayout_duplicate_ids_null_witness :
  dagLayout Sample.twins = Some (Ok None).
Proof.
  apply (dagLayout_duplicate_ids_null Sample.twins).
  - intros e He. simpl in He. by apply elem_of_nil in He.
  - by_compute.
  - intros Hnd. simpl in Hnd. apply NoDup_cons in Hnd as [Hnotin _].
    apply Hnotin. by left.
Defined.

(** ** Editing the graph ([services/graph/graph_service.ts]) *)

Inductive GraphSelection : Type :=
| SelectedNode (n : Node)
| SelectedEdge (e : Edge)
| NoSelection.

Record GraphModification : Type := mkGraphModification {
  dontSave : option bool;
  onlyUpdateNodeIDList : option (list string)
}.

(** The [graph] and [selection] properties of the service, which follow
    the two subjects, and the modifications announced so far. *)
Record GraphService : Type := mkGraphService {
  gs_graph : Graph;
  gs_selection : GraphSelection;
  gs_announced : list GraphModification
}.

Definition announceGraphModified (modification : GraphModification)
    (this : GraphService) : GraphService :=
  {| gs_graph := gs_graph this;
     gs_selection := gs_selection this;
     gs_announced := gs_announced this ++ [modification] |}.

Definition setSelection (selection : GraphSelection) (this : GraphService)
  : GraphService :=
  {| gs_graph := gs_graph this;
     gs_selection := selection;
     gs_announced := gs_announced this |}.

Definition noAnnotations : GraphModification :=
  {| dontSave := None; onlyUpdateNodeIDList := None |}.

Definition deleteNode (node : Node) (this : GraphService) : GraphService :=
  let g := gs_graph this in
  let ns := filter (fun n => id n <> id node) (nodes g) in
  let es := filter (fun l => id (source l) <> id node /\ id (target l) <> id node)
                   (edges g) in
  setSelection NoSelection
    (announceGraphModified noAnnotations
       {| gs_graph := {| gid := gid g; contentId := contentId g; name := name g;
                         start := start g; nodes := ns; edges := es |};
          gs_selection := gs_selection this;
          gs_announced := gs_announced this |}).

Definition deleteEdge (edge : Edge) (this : GraphService) : GraphService :=
  let g := gs_graph this in
  let es := filter (fun l => id (source l) <> id (source edge)
                             \/ id (target l) <> id (target edge))
                   (edges g) in
  announceGraphModified noAnnotations
    {| gs_graph := {| gid := gid g; contentId := contentId g; name := name g;
                      start := start g; nodes := nodes g; edges := es |};
       gs_selection := gs_selection this;
       gs_announced := gs_announced this |}.

Section Editing.

Lemma NoDup_map_filter {A} (f : A -> string) (P : A -> Prop)
    `{!forall x, Decision (P x)} (l : list A) :
  NoDup (map f l) -> NoDup (map f (filter P l)).
Proof.
  induction l as [|a l IH]; simpl; intros Hnd; [done|].
  apply NoDup_cons in Hnd as [Hnotin Hnd]. rewrite filter_cons.
  destruct (decide (P a)); [|by apply IH]. simpl.
  apply NoDup_cons. split; [|by apply IH].
  intros (b & Hb & Hin)%list_elem_of_fmap. apply Hnotin.
  apply list_elem_of_filter in Hin as [_ Hin].
  apply list_elem_of_fmap. by exists b.
Qed.

Lemma deleteNode_nodeIds node this v :
  v ∈ nodeIds (gs_graph (deleteNode node this))
  <-> v ∈ nodeIds (gs_graph this) /\ v <> id node.
Proof.
  unfold nodeIds. simpl. split.
  - intros (n & -> & Hn)%list_elem_of_fmap.
    apply list_elem_of_filter in Hn as [Hne Hn].
    split; [|done]. apply list_elem_of_fmap. by exists n.
  - intros [(n & -> & Hn)%list_elem_of_fmap Hne].
    apply list_elem_of_fmap. exists n. split; [done|].
    by apply list_elem_of_filter.
Qed.

Lemma deleteNode_edgeRel node this u v :
  edgeRel (gs_graph (deleteNode node this)) u v
  <-> edgeRel (gs_graph this) u v /\ u <> id node /\ v <> id node.
Proof.
  unfold edgeRel. simpl. split.
  - intros (e & [[Hs Ht] He]%list_elem_of_filter & <- & <-). eauto 10.
  - intros [(e & He & <- & <-) [Hs Ht]]. exists e. split; [|done].
    by apply list_elem_of_filter.
Qed.

Lemma deleteEdge_edgeRel edge this u v :
  edgeRel (gs_graph (deleteEdge edge this)) u v
  <-> edgeRel (gs_graph this) u v
      /\ ~ (u = id (source edge) /\ v = id (target edge)).
Proof.
  unfold edgeRel. simpl. split.
  - intros (e & [Hne He]%list_elem_of_filter & <- & <-).
    split; [eauto|]. intros [? ?]. destruct Hne; done.
  - intros [(e & He & <- & <-) Hne]. exists e. split; [|done].
    apply list_elem_of_filter. split; [|done].
    destruct (decide (id (source e) = id (source edge))); [|by left].
    destruct (decide (id (target e) = id (target edge))); [|by right].
    by destruct Hne.
Qed.

Lemma walk_mono (g g' : Graph) u v n :
  (forall a b, edgeRel g' a b -> edgeRel g a b) -> walk g' u v n -> walk g u v n.
Proof.
  intros Hsub Hw. induction Hw as [u|u v w n He _ IH]; [constructor|].
  apply walk_step with v; [by apply Hsub | done].
Qed.

End Editing.

(** X16.  Deleting a node from a graph with pairwise distinct node ids
    and edges between its nodes leaves such a graph: the node's id is gone
    from the node list, the other ids stay, and the edges that remain are
    those that did not touch the node; the selection is cleared and one
    modification without annotations is announced. *)
Theorem deleteNode_wellFormed (node : Node) (this : GraphService) :
  wellFormed (gs_graph this) ->
  let after := deleteNode node this in
  wellFormed (gs_graph after)
  /\ (forall v, v ∈ nodeIds (gs_graph after)
                <-> v ∈ nodeIds (gs_graph this) /\ v <> id node)
  /\ (forall u v, edgeRel (gs_graph after) u v
                  <-> edgeRel (gs_graph this) u v /\ u <> id node /\ v <> id node)
  /\ gs_selection after = NoSelection
  /\ gs_announced after = gs_announced this ++ [noAnnotations].
Proof.
  intros [Hnd Hwf] after. split_and!; try done.
  - split.
    + unfold nodeIds. simpl. by apply NoDup_map_filter.
    + intros e He. pose proof He as He'. simpl in He'.
      apply list_elem_of_filter in He' as [[Hs Ht] Hin].
      destruct (Hwf e Hin). split; by apply deleteNode_nodeIds.
  - apply deleteNode_nodeIds.
  - apply deleteNode_edgeRel.
Qed.

Definition editing (g : Graph) : GraphService :=
  {| gs_graph := g; gs_selection := NoSelection; gs_announced := [] |}.

Lemma deleteNode_wellFormed_witness :
  let after := deleteNode (Sample.mkN "A") (editing Sample.diamond) in
  wellFormed (gs_graph after)
  /\ (forall v, v ∈ nodeIds (gs_graph after)
                <-> v ∈ nodeIds Sample.diamond /\ v <> "A")
  /\ (forall u v, edgeRel (gs_graph after) u v
                  <-> edgeRel Sample.diamond u v /\ u <> "A" /\ v <> "A")
  /\ gs_selection after = NoSelection
  /\ gs_announced after = [] ++ [noAnnotations].
Proof.
  apply (deleteNode_wellFormed (Sample.mkN "A") (editing Sample.diamond)).
  exact wellFormed_diamond.
Defined.

(** X17.  After the node carrying the start id is deleted, [dagLayout]
    raises on the graph: the start id is kept and names no node. *)
Theorem deleteNode_start_breaks_layout (node : Node) (this : GraphService) :
  id node = start (gs_graph this) ->
  dagLayout (gs_graph (deleteNode node this)) = Some (Throw TypeError).
Proof.
  intros Hid. apply dagLayout_start_missing.
  intros [_ Hne]%deleteNode_nodeIds. simpl in Hne. by rewrite Hid in Hne.
Qed.

Lemma deleteNode_start_breaks_layout_witness :
  dagLayout (gs_graph (deleteNode (Sample.mkN "start") (editing Sample.diamond)))
  = Some (Throw TypeError).
Proof.
  apply (deleteNode_start_breaks_layout (Sample.mkN "start") (editing Sample.diamond)).
  reflexivity.
Defined.

(** X18.  Deleting an edge removes every edge between the ids of its end
    points, parallel edges included, and no other edge; the nodes, the
    start id and the selection stay as they are, and one modification
    without annotations is announced. *)
Theorem deleteEdge_removes_parallel (edge : Edge) (this : GraphService) :
  let after := deleteEdge edge this in
  (forall e, e ∈ edges (gs_graph after)
             <-> e ∈ edges (gs_graph this)
                 /\ ~ (id (source e) = id (source edge)
                       /\ id (target e) = id (target edge)))
  /\ (forall u v, edgeRel (gs_graph after) u v
                  <-> edgeRel (gs_graph this) u v
                      /\ ~ (u = id (source edge) /\ v = id (target edge)))
  /\ nodes (gs_graph after) = nodes (gs_graph this)
  /\ start (gs_graph after) = start (gs_graph this)
  /\ gs_selection after = gs_selection this
  /\ gs_announced after = gs_announced this ++ [noAnnotations].
Proof.
  intros after. split_and!; try done.
  - intros e. simpl. rewrite list_elem_of_filter. split.
    + intros [Hne He]. split; [done|]. intros [? ?]. by destruct Hne.
    + intros [He Hne]. split; [|done].
      destruct (decide (id (source e) = id (source edge))); [|by left].
      destruct (decide (id (target e) = id (target edge))); [|by right].
      by destruct Hne.
  - apply deleteEdge_edgeRel.
Qed.

(** X19.  Neither deletion turns a graph that can be saved into one that
    cannot, nor a graph without cycle into one with a cycle. *)
Theorem deletions_keep_saveable_acyclic (node : Node) (edge : Edge)
    (this : GraphService) :
  ((exists sg, graphToSerializableGraph (gs_graph this) = Ok sg) ->
   (exists sg, graphToSerializableGraph (gs_graph (deleteNode node this)) = Ok sg)
   /\ (exists sg, graphToSerializableGraph (gs_graph (deleteEdge edge this)) = Ok sg))
  /\ (acyclic (gs_graph this) ->
      acyclic (gs_graph (deleteNode node this))
      /\ acyclic (gs_graph (deleteEdge edge this))).
Proof.
  split.
  - intros Hsave%saves_iff. split; apply saves_iff; intros e He; simpl in He;
      apply list_elem_of_filter in He as [Hne He]; destruct (Hsave e He).
    + destruct Hne. split; by apply deleteNode_nodeIds.
    + done.
  - intros Hac. split; intros v n Hw; apply (Hac v n).
    + apply (walk_mono _ _ _ _ _ (fun a b H => proj1 (proj1 (deleteNode_edgeRel node this a b) H)) Hw).
    + apply (walk_mono _ _ _ _ _ (fun a b H => proj1 (proj1 (deleteEdge_edgeRel edge this a b) H)) Hw).
Qed.

Lemma deletions_keep_saveable_acyclic_witness :
  (exists sg, graphToSerializableGraph
                (gs_graph (deleteNode (Sample.mkN "A") (editing Sample.diamond))) = Ok sg)
  /\ acyclic (gs_graph (deleteEdge (Sample.plain "A" "C") (editing Sample.island))).
Proof.
  destruct (deletions_keep_saveable_acyclic (Sample.mkN "A") (Sample.plain "A" "C")
              (editing Sample.diamond)) as [Hsave _].
  destruct (deletions_keep_saveable_acyclic (Sample.mkN "A") (Sample.plain "A" "C")
              (editing Sample.island)) as [_ Hac].
  split.
  - apply Hsave. eexists. vm_compute. reflexivity.
  - apply Hac. intros v n Hw.
    inversion Hw as [|? ? ? ? (e & He & _) _]; subst.
    simpl in He. by apply elem_of_nil in He.
Defined.

(** ** What [evaluate] returns *)

Section EvaluateShape.

Context (svc : SemanticMatchService) (utterance : string).

(** The entry reported for an examined rule: the rule and the scored
    candidates that scoring returned for it. *)
Definition scoredFor (x : Edge * EdgeRule * SemanticMatchRule)
    (s : ScoredSemanticMatchRule) : Prop :=
  ssmr_rule s = x.2
  /\ exists r, checkSemanticMatchRule svc utterance x.2 = Ok r
               /\ ssmr_scoredCandidates s = scoredCandidates r.

Definition scoredInv (ex : list (Edge * EdgeRule * SemanticMatchRule))
    (l : EvalLoop) : Prop :=
  Forall2 (fun x s => scoredFor x s /\ chosen s = false)
          ex (l_scoredSemanticMatchRules l).

Lemma scanRule_scoredInv e r ex l l' :
  scoredInv ex l ->
  scanRule svc utterance e r l = Ok l' ->
  scoredInv (ex ++ examinedRule e r) l'.
Proof.
  unfold scoredInv. intros Hinv Hrun.
  destruct r as [d|d]; simpl in *;
    [|injection Hrun as <-; by rewrite app_nil_r].
  destruct (checkSemanticMatchRule svc utterance d) as [res|] eqn:E;
    simpl in Hrun; [|done].
  destruct (_ && _); injection Hrun as <-; simpl;
    (apply Forall2_app; [done|]); repeat constructor; simpl; eauto.
Qed.

Lemma semanticScan_scoredInv graph st l :
  semanticScan svc graph utterance st = Ok l ->
  scoredInv (examined graph st) l.
Proof.
  intros Hrun. unfold examined.
  apply (forEach_inv (scanEdge svc utterance) examinedEdge scoredInv) with
    (pre := []) (s := evalInit) (l := getOutEdges (node st) graph (world st));
    [|constructor|exact Hrun].
  intros e pre s s'.
  apply (forEach_inv (scanRule svc utterance e) (examinedRule e) scoredInv).
  intros r pre' s0 s0'. apply scanRule_scoredInv.
Qed.

Lemma examined_inv graph st e r d :
  (e, r, d) ∈ examined graph st ->
  e ∈ getOutEdges (node st) graph (world st)
  /\ r ∈ rules e /\ r = SEMANTIC_MATCH d.
Proof.
  intros H. apply list_elem_of_In, in_flat_map in H as (e' & He' & H).
  apply in_flat_map in H as (r' & Hr' & H).
  destruct r' as [d'|d']; simpl in H; [|done].
  destruct H as [[= <- <- <-]|[]].
  split_and!; [by apply list_elem_of_In | by apply list_elem_of_In | done].
Qed.

Lemma fallbackRule_keeps_world e res r :
  world (state (fallbackRule e res r)) = world (state res)
  /\ scoredSemanticMatchRules (fallbackRule e res r) = scoredSemanticMatchRules res.
Proof. destruct r as [d|rf]; simpl; [done|]. by destruct (_ <=? _). Qed.

Lemma fallback_fold_keeps_world es res :
  world (state (fold_left fallbackEdge es res)) = world (state res)
  /\ scoredSemanticMatchRules (fold_left fallbackEdge es res)
     = scoredSemanticMatchRules res.
Proof.
  revert res. induction es as [|e es IH]; simpl; intros res; [done|].
  destruct (IH (fallbackEdge res e)) as [-> ->]. unfold fallbackEdge.
  generalize (rules e) as rs. clear. intros rs. revert res.
  induction rs as [|r rs IH]; simpl; intros res; [done|].
  destruct (IH (fallbackRule e res r)) as [-> ->].
  apply fallbackRule_keeps_world.
Qed.

(** The semantic winner is flagged in a list as long as the scan made it. *)
Lemma winner_flagged graph st l be :
  semanticScan svc graph utterance st = Ok l -> bestEdge l = Some be ->
  exists k r d sc,
    bestRule l = Some r /\ examined graph st !! k = Some (be, r, d)
    /\ l_scoredSemanticMatchRules l !! k = Some sc
    /\ updateAt (l_scoredSemanticMatchRules l) (bestSemanticMatchRuleIndex l) setChosen
       = Ok (<[k := setChosen sc]> (l_scoredSemanticMatchRules l)).
Proof.
  intros Hs Hbe.
  destruct (semanticScan_inv svc utterance graph st l Hs) as (_ & Hlen & Hbest).
  rewrite Hbe in Hbest. destruct Hbest as (k & r & d & Hrule & Hk & Hex & _).
  pose proof Hex as Hlt. apply lookup_lt_Some in Hlt. rewrite <- Hlen in Hlt.
  apply lookup_lt_is_Some in Hlt as [sc Hsc].
  exists k, r, d, sc. split_and!; try done.
  unfold updateAt. rewrite Hk.
  destruct (Z.ltb_spec (Z.of_nat k) 0) as [?|_]; [lia|].
  by rewrite Nat2Z.id, Hsc.
Qed.

End EvaluateShape.

(** X21.  What a returned result looks like.  The scored rules are those
    of the condition-filtered out-edges, in edge then rule order, each
    with the candidates scoring returned.  Without transition the state
    keeps node and world and counts one more attempt, and nothing is
    flagged.  With a transition the edge leaves the current node, the new
    node is its target and the attempt number is 0; either the rule is a
    semantic-match rule of an edge that passes its conditions, the world
    has the edge's mutations applied and exactly that rule is flagged, or
    it is a repeated-fail rule of an edge with repeated-fail rules only,
    the world is unchanged and nothing is flagged. *)
Theorem evaluate_result_shape svc graph utterance st res :
  evaluate svc graph utterance st = Ok res ->
  Forall2 (scoredFor svc utterance) (examined graph st)
          (scoredSemanticMatchRules res)
  /\ match edge res with
     | None =>
         rule res = None
         /\ state res = {| attemptNumber := attemptNumber st + 1;
                           node := node st; world := world st |}
         /\ Forall (fun s => chosen s = false) (scoredSemanticMatchRules res)
     | Some e =>
         e ∈ edges graph /\ id (source e) = id (node st)
         /\ node (state res) = target e /\ attemptNumber (state res) = 0
         /\ ((exists d k,
                rule res = Some (SEMANTIC_MATCH d)
                /\ examined graph st !! k = Some (e, SEMANTIC_MATCH d, d)
                /\ e ∈ getOutEdges (node st) graph (world st)
                /\ world (state res) = (fun w => applyMutations w e) <$> world st
                /\ forall i s, scoredSemanticMatchRules res !! i = Some s ->
                               chosen s = bool_decide (i = k))
             \/ (exists rf,
                   rule res = Some (REPEATED_FAIL rf)
                   /\ REPEATED_FAIL rf ∈ rules e
                   /\ isRepeatedFail e = true
                   /\ world (state res) = world st
                   /\ Forall (fun s => chosen s = false)
                             (scoredSemanticMatchRules res)))
     end.
Proof.
  unfold evaluate. destruct (ready svc) eqn:Hr; simpl; [|done].
  destruct (semanticScan svc graph utterance st) as [l|] eqn:Hs; simpl; [|done].
  pose proof (semanticScan_scoredInv svc utterance graph st l Hs) as Hsc.
  unfold scoredInv in Hsc.
  assert (Hfor : Forall2 (scoredFor svc utterance) (examined graph st)
                         (l_scoredSemanticMatchRules l)).
  { eapply Forall2_impl; [exact Hsc|]. by intros x s [? _]. }
  assert (Hunchosen : Forall (fun s => chosen s = false)
                             (l_scoredSemanticMatchRules l)).
  { apply (Forall2_Forall_r _ _ _ _ Hsc). apply Forall_forall.
    by intros x _ s [_ ?]. }
  destruct (bestEdge l) as [be|] eqn:Hbe.
  - destruct (winner_flagged svc utterance graph st l be Hs Hbe)
      as (k & r & d & sc & Hrule & Hex & Hk & ->).
    simpl. intros [= <-]. simpl.
    destruct (examined_inv graph st be r d) as (Hout & Hin & ->).
    { by apply list_elem_of_lookup_2 with k. }
    split.
    + rewrite <- (list_insert_id (examined graph st) k _ Hex).
      apply Forall2_insert; [done|].
      destruct (Forall2_lookup_lr _ _ _ k _ _ Hfor Hex Hk) as [? ?]. by split.
    + pose proof Hout as Hout'. apply list_elem_of_filter in Hout' as [[Hsrc _] Hedge].
      apply String.eqb_eq in Hsrc. split_and!; try done.
      left. exists d, k. split_and!; try done.
      intros i s Hi. destruct (decide (i = k)) as [->|Hne].
      * rewrite list_lookup_insert_eq in Hi by (by apply lookup_lt_Some with sc).
        injection Hi as <-. by rewrite bool_decide_eq_true_2.
      * rewrite list_lookup_insert_ne in Hi by done.
        rewrite bool_decide_eq_false_2 by done.
        by apply (proj1 (Forall_lookup _ _) Hunchosen i).
  - intros [= <-].
    set (res0 := {| state := {| attemptNumber := attemptNumber st + 1;
                                node := node st; world := world st |};
                    edge := None; rule := None;
                    scoredSemanticMatchRules := l_scoredSemanticMatchRules l |}).
    set (all := getRepeatedFailEdges (node st) graph).
    destruct (fallback_fold_keeps_world all res0) as [Hw Hscored].
    rewrite Hscored. simpl. split; [done|].
    destruct (fallback_fold_inv all res0 all res0) as [->|Hfired];
      [done | by left | simpl; done |].
    destruct Hfired as (e & rf & He & -> & Hrule & Hin & Hnode & Hatt).
    apply list_elem_of_filter in He as [Hrf He].
    apply getOutEdges_None_spec in He as [He Hsrc].
    split_and!; try done. right. exists rf. split_and!; try done.
Qed.

Lemma evaluate_result_shape_witness :
  exists res,
    evaluate (Sample.constScorer (3 # 4) 1) Sample.yesGraph "yes"
             (Sample.at0 "start" ∅) = Ok res
    /\ Forall2 (scoredFor (Sample.constScorer (3 # 4) 1) "yes")
         (examined Sample.yesGraph (Sample.at0 "start" ∅))
         (scoredSemanticMatchRules res).
Proof.
  eexists. split; [vm_compute; reflexivity|].
  apply (evaluate_result_shape (Sample.constScorer (3 # 4) 1) Sample.yesGraph "yes"
           (Sample.at0 "start" ∅)).
  vm_compute. reflexivity.
Defined.

(** ** Which fallback is taken *)

Section FallbackOrder.

(** Repeated-fail rules with their edges, in edge then rule order. *)
Definition failRulesOf (e : Edge) : list (Edge * RepeatedFailRule) :=
  flat_map (fun r => match r with
                     | REPEATED_FAIL rf => [(e, rf)]
                     | SEMANTIC_MATCH _ => []
                     end) (rules e).

Definition failRules (es : list Edge) : list (Edge * RepeatedFailRule) :=
  flat_map failRulesOf es.

Definition fallbackPair (res : InferenceResult) (p : Edge * RepeatedFailRule)
  : InferenceResult :=
  fallbackRule p.1 res (REPEATED_FAIL p.2).

(** The result after the fallback [p] was taken from the default result
    [res0]. *)
Definition fired (res0 : InferenceResult) (p : Edge * RepeatedFailRule)
  : InferenceResult :=
  {| state := {| attemptNumber := 0; node := target p.1;
                 world := world (state res0) |};
     edge := Some p.1;
     rule := Some (REPEATED_FAIL p.2);
     scoredSemanticMatchRules := scoredSemanticMatchRules res0 |}.

Lemma fallbackEdge_pairs res e :
  fallbackEdge res e = fold_left fallbackPair (failRulesOf e) res.
Proof.
  unfold fallbackEdge, failRulesOf. revert res.
  induction (rules e) as [|r rs IH]; simpl; intros res; [done|].
  destruct r as [d|rf]; simpl; apply IH.
Qed.

Lemma fallback_fold_pairs es res :
  fold_left fallbackEdge es res = fold_left fallbackPair (failRules es) res.
Proof.
  revert res. induction es as [|e es IH]; simpl; intros res; [done|].
  unfold failRules in *. by rewrite fold_left_app, IH, fallbackEdge_pairs.
Qed.

Lemma fallback_quiet ps res :
  Forall (fun p => attemptNumber (state res) < failCount p.2) ps ->
  fold_left fallbackPair ps res = res.
Proof.
  induction 1 as [|p ps Hp _ IH]; simpl; [done|].
  unfold fallbackPair at 2. simpl.
  destruct (Z.leb_spec (failCount p.2) (attemptNumber (state res))); [lia | done].
Qed.

Lemma fallback_first_pair ps res0 :
  Forall (fun p => 0 < failCount p.2) ps ->
  fold_left fallbackPair ps res0
  = match find (fun p => failCount p.2 <=? attemptNumber (state res0)) ps with
    | Some p => fired res0 p
    | None => res0
    end.
Proof.
  induction 1 as [|p ps Hp Hps IH]; simpl; [done|].
  unfold fallbackPair at 2. simpl.
  destruct (Z.leb_spec (failCount p.2) (attemptNumber (state res0))); [|done].
  by apply fallback_quiet.
Qed.

End FallbackOrder.

(** X22.  When the semantic scan has no winner and every fail count on
    the node's repeated-fail edges is positive, the fallback taken is the
    first repeated-fail rule, in edge then rule order, whose fail count
    the incremented attempt number has reached; when there is none, the
    step makes no transition. *)
Theorem fallback_first_reached svc graph utterance st l :
  ready svc = true ->
  semanticScan svc graph utterance st = Ok l ->
  bestEdge l = None ->
  Forall (fun p => 0 < failCount p.2)
         (failRules (getRepeatedFailEdges (node st) graph)) ->
  evaluate svc graph utterance st
  = Ok (match find (fun p => failCount p.2 <=? attemptNumber st + 1)
                   (failRules (getRepeatedFailEdges (node st) graph)) with
        | Some p => fired (noMatch st l) p
        | None => noMatch st l
        end).
Proof.
  intros Hr Hs Hb Hpos.
  rewrite (evaluate_no_winner svc graph utterance st l Hr Hs Hb).
  by rewrite fallback_fold_pairs, (fallback_first_pair _ _ Hpos).
Qed.

Lemma fallback_first_reached_witness :
  evaluate (Sample.constScorer (3 # 4) (1 # 2)) Sample.failGraph "hm"
           {| attemptNumber := 2; node := Sample.mkN "start"; world := Some ∅ |}
  = Ok (fired (noMatch {| attemptNumber := 2; node := Sample.mkN "start";
                          world := Some ∅ |} evalInit)
              (Sample.failEdge, {| failMessage := None; failCount := 3 |})).
Proof.
  apply (fallback_first_reached (Sample.constScorer (3 # 4) (1 # 2))
           Sample.failGraph "hm"
           {| attemptNumber := 2; node := Sample.mkN "start"; world := Some ∅ |}
           evalInit).
  - reflexivity.
  - vm_compute. reflexivity.
  - reflexivity.
  - vm_compute. repeat constructor.
Defined.

(** A fail count that is not positive breaks the order: the rule fires
    again after an earlier fallback has reset the attempt number. *)
Lemma fallback_later_rule_overrides (e1 e2 : Edge) rf1 rf2 res0 :
  failCount rf1 <= attemptNumber (state res0) -> failCount rf2 <= 0 ->
  fold_left fallbackPair [(e1, rf1); (e2, rf2)] res0 = fired res0 (e2, rf2).
Proof.
  intros H1 H2. simpl. unfold fallbackPair. simpl.
  destruct (Z.leb_spec (failCount rf1) (attemptNumber (state res0))); [|lia].
  simpl. destruct (Z.leb_spec (failCount rf2) 0); [done | lia].
Qed.

(** ** The dialog preview ([components/preview/dialog_preview.ts]) *)

(** One handler of the component is run at a time, from its call to its
    last statement.  Left out: the typewriter delay (when it ends the
    item holds the whole utterance), input focus, scrolling and the
    console. *)

Record TranscriptItem : Type := mkTranscriptItem {
  utterance : string;
  user : bool
}.

(** The two [Map] objects made by [ngOnInit]: the one put into
    [inferenceState] and the one put into [initialInferenceState].  An
    inference state holds a reference to one of them; no handler makes
    another. *)
Inductive MapRef : Type := FirstMap | SecondMap.

Record PreviewInferenceState : Type := mkPreviewInferenceState {
  p_attemptNumber : Z;
  p_node : Node;
  p_world : MapRef
}.

Record DialogPreview : Type := mkDialogPreview {
  loadingResults : bool;
  currentUtterance : string;
  transcript : list TranscriptItem;
  inferenceState : PreviewInferenceState;
  initialInferenceState : PreviewInferenceState;
  dp_finished : bool;
  firstMap : World;
  secondMap : World
}.

Definition readMap (this : DialogPreview) (r : MapRef) : World :=
  match r with
  | FirstMap => firstMap this
  | SecondMap => secondMap this
  end.

Definition writeMap (r : MapRef) (w : World) (this : DialogPreview) : DialogPreview :=
  {| loadingResults := loadingResults this;
     currentUtterance := currentUtterance this;
     transcript := transcript this;
     inferenceState := inferenceState this;
     initialInferenceState := initialInferenceState this;
     dp_finished := dp_finished this;
     firstMap := match r with FirstMap => w | SecondMap => firstMap this end;
     secondMap := match r with FirstMap => secondMap this | SecondMap => w end |}.

Definition setInferenceState (s : PreviewInferenceState) (this : DialogPreview)
  : DialogPreview :=
  {| loadingResults := loadingResults this;
     currentUtterance := currentUtterance this;
     transcript := transcript this;
     inferenceState := s;
     initialInferenceState := initialInferenceState this;
     dp_finished := dp_finished this;
     firstMap := firstMap this;
     secondMap := secondMap this |}.

Definition setTranscript (t : list TranscriptItem) (this : DialogPreview)
  : DialogPreview :=
  {| loadingResults := loadingResults this;
     currentUtterance := currentUtterance this;
     transcript := t;
     inferenceState := inferenceState this;
     initialInferenceState := initialInferenceState this;
     dp_finished := dp_finished this;
     firstMap := firstMap this;
     secondMap := secondMap this |}.

Definition setFinished (b : bool) (this : DialogPreview) : DialogPreview :=
  {| loadingResults := loadingResults this;
     currentUtterance := currentUtterance this;
     transcript := transcript this;
     inferenceState := inferenceState this;
     initialInferenceState := initialInferenceState this;
     dp_finished := b;
     firstMap := firstMap this;
     secondMap := secondMap this |}.

Definition setLoadingResults (b : bool) (this : DialogPreview) : DialogPreview :=
  {| loadingResults := b;
     currentUtterance := currentUtterance this;
     transcript := transcript this;
     inferenceState := inferenceState this;
     initialInferenceState := initialInferenceState this;
     dp_finished := dp_finished this;
     firstMap := firstMap this;
     secondMap := secondMap this |}.

Definition setCurrentUtterance (u : string) (this : DialogPreview) : DialogPreview :=
  {| loadingResults := loadingResults this;
     currentUtterance := u;
     transcript := transcript this;
     inferenceState := inferenceState this;
     initialInferenceState := initialInferenceState this;
     dp_finished := dp_finished this;
     firstMap := firstMap this;
     secondMap := secondMap this |}.

(** The world the current inference state refers to. *)
Definition currentWorld (this : DialogPreview) : World :=
  readMap this (p_world (inferenceState this)).

(** The [InferenceState] object handed to the inference service. *)
Definition toInferenceState (this : DialogPreview) (s : PreviewInferenceState)
  : InferenceState :=
  {| attemptNumber := p_attemptNumber s;
     node := p_node s;
     world := Some (readMap this (p_world s)) |}.

Definition addTranscriptItem (u : string) (isUser : bool) (this : DialogPreview)
  : DialogPreview :=
  setTranscript (transcript this ++ [ {| utterance := u; user := isUser |} ]) this.

(** [pickRandom], given the value [Math.random()] returns.  An index
    outside the array reads [undefined].  The product is taken exactly;
    the source rounds it to a double, which can give the next index (as a
    double, 0.3333333333333333 * 3 is 1) but, for an array of fewer than
    2^53 elements, never an index outside the array: what is stated below
    is that an element of the array is picked, not which one. *)
Definition pickRandom {T : Type} (random : Q) (array : list T) : option T :=
  let index := Qfloor (random * inject_Z (Z.of_nat (length array))) in
  if index <? 0 then None else array !! Z.to_nat index.

Definition noEdges : exn := Error "No edges in auto-advance node.".

(** [autoAdvanceAsNeeded], given the values of [Math.random()] in the
    order they are drawn.  [None] when the loop is still running after the
    last of them; otherwise the outcome, the component and the values not
    drawn.  The loop changes [inferenceState] in place. *)
Fixpoint autoAdvanceAsNeeded (graph : Graph) (randoms : list Q)
    (this : DialogPreview) : option (result unit * DialogPreview * list Q) :=
  let node := p_node (inferenceState this) in
  if negb (truthyBool (autoAdvance node)) then Some (Ok tt, this, randoms)
  else
    match getOutEdges node graph (Some (currentWorld this)) with
    | [] => Some (Throw noEdges, this, randoms)
    | e0 :: es =>
        match randoms with
        | [] => None
        | random :: rest =>
            match pickRandom random (e0 :: es) with
            | None => Some (Throw TypeError, this, rest)
            | Some edge =>
                let this1 :=
                  writeMap (p_world (inferenceState this))
                           (applyMutations (currentWorld this) edge) this in
                let nextNode := target edge in
                let this2 :=
                  setInferenceState
                    {| p_attemptNumber := p_attemptNumber (inferenceState this1);
                       p_node := nextNode;
                       p_world := p_world (inferenceState this1) |} this1 in
                autoAdvanceAsNeeded graph rest
                  (addTranscriptItem (prompt nextNode) false this2)
            end
        end
    end.

Definition isLeafNode (graph : Graph) (this : DialogPreview)
    (s : PreviewInferenceState) : bool :=
  match getOutEdges (p_node s) graph (Some (readMap this (p_world s))) with
  | [] => true
  | _ :: _ => false
  end.

Definition finishConversation (this : DialogPreview) : DialogPreview :=
  addTranscriptItem "To be continued..." false (setFinished true this).

(** [evaluate] returns a new state object holding the [Map] it was given,
    with the winner's mutations applied to that [Map] in place. *)
Definition adoptState (result : InferenceResult) (this : DialogPreview)
  : DialogPreview :=
  let r := p_world (inferenceState this) in
  let this1 :=
    match world (state result) with
    | Some w => writeMap r w this
    | None => this
    end in
  setInferenceState
    {| p_attemptNumber := attemptNumber (state result);
       p_node := node (state result);
       p_world := r |} this1.

(** [submitUtterance].  [result.state] and [this.inferenceState] are one
    object, so the leaf test after auto-advancing reads the node the
    auto-advance ended on. *)
Definition submitUtterance (svc : SemanticMatchService) (graph : Graph)
    (randoms : list Q) (this : DialogPreview)
  : option (result unit * DialogPreview * list Q) :=
  if negb (truthyStr (Some (currentUtterance this))) then Some (Ok tt, this, randoms)
  else
    let u := currentUtterance this in
    let this1 := addTranscriptItem u true (setCurrentUtterance "" this) in
    let this2 := setLoadingResults true this1 in
    match evaluate svc graph u (toInferenceState this2 (inferenceState this2)) with
    | Throw x => Some (Throw x, this2, randoms)
    | Ok result =>
        let this3 := adoptState result (setLoadingResults false this2) in
        match edge result with
        | Some _ =>
            match rule result with
            | None => Some (Throw TypeError, this3, randoms)
            | Some r =>
                let this4 :=
                  match r with
                  | REPEATED_FAIL ruleData =>
                      if truthyStr (failMessage ruleData)
                      then addTranscriptItem (default "" (failMessage ruleData))
                                             false this3
                      else this3
                  | SEMANTIC_MATCH _ => this3
                  end in
                let this5 :=
                  addTranscriptItem (prompt (node (state result))) false this4 in
                match autoAdvanceAsNeeded graph randoms this5 with
                | None => None
                | Some (Throw x, this6, rest) => Some (Throw x, this6, rest)
                | Some (Ok _, this6, rest) =>
                    if isLeafNode graph this6 (inferenceState this6)
                    then Some (Ok tt, finishConversation this6, rest)
                    else Some (Ok tt, this6, rest)
                end
            end
        | None =>
            Some (Ok tt,
                  addTranscriptItem (retryPrompt (node (state result))) false this3,
                  randoms)
        end
    end.

(** [restart]: the spread copies the fields of [initialInferenceState],
    the [Map] among them by reference. *)
Definition restart (graph : Graph) (randoms : list Q) (this : DialogPreview)
  : option (result unit * DialogPreview * list Q) :=
  let this1 :=
    setInferenceState (initialInferenceState this)
      (setFinished false (setTranscript [] this)) in
  let this2 :=
    addTranscriptItem (prompt (p_node (inferenceState this1))) false this1 in
  autoAdvanceAsNeeded graph randoms this2.

(** The state [ngOnInit] sets up once the graph is loaded and [node] is
    found, before the first prompt is shown. *)
Definition opened (node : Node) : DialogPreview :=
  {| loadingResults := false;
     currentUtterance := "";
     transcript := [];
     inferenceState :=
       {| p_attemptNumber := 0; p_node := node; p_world := FirstMap |};
     initialInferenceState :=
       {| p_attemptNumber := 0; p_node := node; p_world := SecondMap |};
     dp_finished := false;
     firstMap := ∅;
     secondMap := ∅ |}.

Fixpoint getNodeById_loop (ns : list Node) (nodeId : string) : option Node :=
  match ns with
  | [] => None
  | n :: rest => if String.eqb (id n) nodeId then Some n else getNodeById_loop rest nodeId
  end.

Definition getNodeById (graph : Graph) (nodeId : string) : option Node :=
  getNodeById_loop (nodes graph) nodeId.

(** *** Random choice *)

(** The values [Math.random()] can return. *)
Definition unitInterval (q : Q) : Prop := (0 <= q)%Q /\ (q < 1)%Q.

Lemma pickRandom_index (random : Q) (n : nat) :
  (0 < n)%nat ->
  unitInterval random
  <-> 0 <= Qfloor (random * inject_Z (Z.of_nat n)) < Z.of_nat n.
Proof.
  intros Hn. set (m := inject_Z (Z.of_nat n)).
  assert (Hm : (0 < m)%Q).
  { unfold m. change 0%Q with (inject_Z 0). rewrite <- Zlt_Qlt. lia. }
  pose proof (Qfloor_le (random * m)) as Hlo.
  pose proof (Qlt_floor (random * m)) as Hhi.
  split.
  - intros [H0 H1]. split.
    + change 0 with (Qfloor 0). apply Qfloor_resp_le.
      apply Qmult_le_0_compat; [done | by apply Qlt_le_weak].
    + rewrite Zlt_Qlt. fold m.
      apply Qle_lt_trans with (random * m)%Q; [done|].
      rewrite <- (Qmult_1_l m) at 2. by apply Qmult_lt_compat_r.
  - intros [H0 H1]. split.
    + destruct (Qlt_le_dec random 0) as [Hneg|]; [exfalso | done].
      assert (Hlt : (random * m < 0)%Q).
      { rewrite <- (Qmult_0_l m). by apply Qmult_lt_compat_r. }
      assert (Hf : (inject_Z (Qfloor (random * m)) < inject_Z 0)%Q).
      { apply Qle_lt_trans with (random * m)%Q; done. }
      rewrite <- Zlt_Qlt in Hf. lia.
    + destruct (Qlt_le_dec random 1) as [|Hge]; [done | exfalso].
      assert (Hle : (m <= random * m)%Q).
      { rewrite <- (Qmult_1_l m) at 1. apply Qmult_le_compat_r; [done|].
        by apply Qlt_le_weak. }
      assert (Hf : (inject_Z (Z.of_nat n) < inject_Z (Qfloor (random * m) + 1))%Q).
      { apply Qle_lt_trans with (random * m)%Q; done. }
      rewrite <- Zlt_Qlt in Hf. lia.
Qed.

Lemma pickRandom_lookup {T : Type} (random : Q) (array : list T) :
  unitInterval random -> array <> [] ->
  exists i x, pickRandom random array = Some x /\ array !! i = Some x.
Proof.
  intros Hr Hne.
  assert (Hn : (0 < length array)%nat) by (destruct array; [done | simpl; lia]).
  apply (pickRandom_index random _ Hn) in Hr as [H0 H1].
  unfold pickRandom. cbv zeta.
  destruct (Z.ltb_spec (Qfloor (random * inject_Z (Z.of_nat (length array)))) 0);
    [lia|].
  destruct (lookup_lt_is_Some_2 array
              (Z.to_nat (Qfloor (random * inject_Z (Z.of_nat (length array))))))
    as [x Hx]; [lia|].
  eauto.
Qed.

(** X23.  On a non-empty array [pickRandom] returns an element of the
    array exactly when the random value lies in [0, 1), as the values of
    [Math.random()] do; outside that range it reads past the array. *)
Theorem pickRandom_in_range {T : Type} (random : Q) (array : list T) :
  array <> [] ->
  (is_Some (pickRandom random array) <-> unitInterval random)
  /\ forall x, pickRandom random array = Some x -> x ∈ array.
Proof.
  intros Hne.
  assert (Hn : (0 < length array)%nat) by (destruct array; [done | simpl; lia]).
  split.
  - rewrite (pickRandom_index random _ Hn). unfold pickRandom. cbv zeta.
    destruct (Z.ltb_spec (Qfloor (random * inject_Z (Z.of_nat (length array)))) 0)
      as [Hneg|Hpos].
    + split; [by intros [? ?] | lia].
    + rewrite lookup_lt_is_Some. lia.
  - unfold pickRandom. cbv zeta. intros x.
    destruct (_ <? 0); [done|]. apply list_elem_of_lookup_2.
Qed.

Lemma pickRandom_in_range_witness :
  (is_Some (pickRandom (1 # 2) ["a"; "b"; "c"]) <-> unitInterval (1 # 2))
  /\ forall x, pickRandom (1 # 2) ["a"; "b"; "c"] = Some x -> x ∈ ["a"; "b"; "c"].
Proof. apply (pickRandom_in_range (1 # 2) ["a"; "b"; "c"]). discriminate. Defined.

(** *** Auto-advance *)

Definition promptItem (e : Edge) : TranscriptItem :=
  {| utterance := prompt (target e); user := false |}.

(** A chain of auto-advance steps: each edge leaves an auto-advance node
    and passes its conditions in the world of that moment, and its
    mutations are applied before the next step. *)
Inductive advances (graph : Graph)
  : Node -> World -> list Edge -> Node -> World -> Prop :=
| advances_nil n w : advances graph n w [] n w
| advances_step n w e path n' w' :
    truthyBool (autoAdvance n) = true ->
    e ∈ getOutEdges n graph (Some w) ->
    advances graph (target e) (applyMutations w e) path n' w' ->
    advances graph n w (e :: path) n' w'.

(** The component after one pass through the loop body with [edge]. *)
Definition advanceTo (edge : Edge) (this : DialogPreview) : DialogPreview :=
  addTranscriptItem (prompt (target edge)) false
    (setInferenceState
       {| p_attemptNumber := p_attemptNumber (inferenceState this);
          p_node := target edge;
          p_world := p_world (inferenceState this) |}
       (writeMap (p_world (inferenceState this))
                 (applyMutations (currentWorld this) edge) this)).

(** What a handler leaves alone apart from the current node, the
    transcript and the [Map] of the current state. *)
Definition frame (this this' : DialogPreview) : Prop :=
  p_world (inferenceState this') = p_world (inferenceState this)
  /\ initialInferenceState this' = initialInferenceState this
  /\ forall r, r <> p_world (inferenceState this) -> readMap this' r = readMap this r.

Section AutoAdvance.

Context (graph : Graph).

Lemma readMap_writeMap_eq r w this : readMap (writeMap r w this) r = w.
Proof. by destruct r. Qed.

Lemma readMap_writeMap_ne r r' w this :
  r' <> r -> readMap (writeMap r w this) r' = readMap this r'.
Proof. by destruct r, r'. Qed.

Lemma currentWorld_advanceTo edge this :
  currentWorld (advanceTo edge this) = applyMutations (currentWorld this) edge.
Proof.
  unfold currentWorld at 1. unfold advanceTo.
  generalize (applyMutations (currentWorld this) edge) as w.
  intros w. simpl. by destruct (p_world (inferenceState this)).
Qed.

Lemma frame_refl this : frame this this.
Proof. by split_and!. Qed.

Lemma frame_trans a b c : frame a b -> frame b c -> frame a c.
Proof.
  intros (H1 & H2 & H3) (H1' & H2' & H3'). split_and!.
  - by rewrite H1'.
  - by rewrite H2'.
  - intros r Hr. rewrite H3' by (by rewrite H1). by apply H3.
Qed.

Lemma frame_advanceTo edge this : frame this (advanceTo edge this).
Proof.
  unfold advanceTo. generalize (applyMutations (currentWorld this) edge) as w.
  intros w. split_and!; try done. intros r Hr. simpl.
  by destruct (p_world (inferenceState this)), r.
Qed.

Lemma autoAdvance_stop randoms this :
  truthyBool (autoAdvance (p_node (inferenceState this))) = false ->
  autoAdvanceAsNeeded graph randoms this = Some (Ok tt, this, randoms).
Proof. intros H. destruct randoms; simpl; by rewrite H. Qed.

Lemma autoAdvance_dead_end randoms this :
  truthyBool (autoAdvance (p_node (inferenceState this))) = true ->
  getOutEdges (p_node (inferenceState this)) graph (Some (currentWorld this)) = [] ->
  autoAdvanceAsNeeded graph randoms this = Some (Throw noEdges, this, randoms).
Proof. intros H1 H2. destruct randoms; cbn [autoAdvanceAsNeeded]; by rewrite H1, H2. Qed.

Lemma autoAdvance_starved this :
  truthyBool (autoAdvance (p_node (inferenceState this))) = true ->
  getOutEdges (p_node (inferenceState this)) graph (Some (currentWorld this)) <> [] ->
  autoAdvanceAsNeeded graph [] this = None.
Proof.
  intros H1 H2. cbn [autoAdvanceAsNeeded]. rewrite H1. simpl.
  by destruct (getOutEdges _ graph _).
Qed.

Lemma autoAdvance_cons random rest this edge :
  truthyBool (autoAdvance (p_node (inferenceState this))) = true ->
  getOutEdges (p_node (inferenceState this)) graph (Some (currentWorld this)) <> [] ->
  pickRandom random
    (getOutEdges (p_node (inferenceState this)) graph (Some (currentWorld this)))
  = Some edge ->
  autoAdvanceAsNeeded graph (random :: rest) this
  = autoAdvanceAsNeeded graph rest (advanceTo edge this).
Proof.
  intros H1 H2 H3. cbn [autoAdvanceAsNeeded]. rewrite H1. cbn [negb].
  destruct (getOutEdges _ graph _) as [|e0 es]; [done|]. by rewrite H3.
Qed.

Lemma autoAdvance_bad_random random rest this :
  truthyBool (autoAdvance (p_node (inferenceState this))) = true ->
  getOutEdges (p_node (inferenceState this)) graph (Some (currentWorld this)) <> [] ->
  pickRandom random
    (getOutEdges (p_node (inferenceState this)) graph (Some (currentWorld this)))
  = None ->
  autoAdvanceAsNeeded graph (random :: rest) this = Some (Throw TypeError, this, rest).
Proof.
  intros H1 H2 H3. cbn [autoAdvanceAsNeeded]. rewrite H1. cbn [negb].
  destruct (getOutEdges _ graph _) as [|e0 es]; [done|]. by rewrite H3.
Qed.

(** The loop leaves the frame alone and only adds system items. *)
Lemma autoAdvance_frame randoms this r this' rest :
  autoAdvanceAsNeeded graph randoms this = Some (r, this', rest) ->
  frame this this'
  /\ loadingResults this' = loadingResults this
  /\ currentUtterance this' = currentUtterance this
  /\ dp_finished this' = dp_finished this
  /\ exists items, transcript this' = transcript this ++ items
                   /\ Forall (fun i => user i = false) items.
Proof.
  assert (Hsame : forall (this0 : DialogPreview),
            frame this0 this0
            /\ loadingResults this0 = loadingResults this0
            /\ currentUtterance this0 = currentUtterance this0
            /\ dp_finished this0 = dp_finished this0
            /\ exists items, transcript this0 = transcript this0 ++ items
                             /\ Forall (fun i => user i = false) items).
  { intros this0. split_and!; try done; try apply frame_refl.
    exists []. split; [by rewrite app_nil_r | constructor]. }
  revert this. induction randoms as [|random randoms IH]; intros this Hrun.
  - destruct (truthyBool (autoAdvance (p_node (inferenceState this)))) eqn:Hauto.
    + destruct (decide (getOutEdges (p_node (inferenceState this)) graph
                          (Some (currentWorld this)) = [])) as [Hnone|Hsome].
      * rewrite autoAdvance_dead_end in Hrun by done.
        injection Hrun as <- <- <-. apply Hsame.
      * by rewrite autoAdvance_starved in Hrun.
    + rewrite autoAdvance_stop in Hrun by done.
      injection Hrun as <- <- <-. apply Hsame.
  - destruct (truthyBool (autoAdvance (p_node (inferenceState this)))) eqn:Hauto.
    + destruct (decide (getOutEdges (p_node (inferenceState this)) graph
                          (Some (currentWorld this)) = [])) as [Hnone|Hsome].
      * rewrite autoAdvance_dead_end in Hrun by done.
        injection Hrun as <- <- <-. apply Hsame.
      * destruct (pickRandom random
                    (getOutEdges (p_node (inferenceState this)) graph
                                 (Some (currentWorld this)))) as [edge|] eqn:Hpick.
        -- rewrite (autoAdvance_cons _ _ _ edge Hauto Hsome Hpick) in Hrun.
           destruct (IH _ Hrun) as (Hf & Hl & Hc & Hfin & items & Ht & Hitems).
           split_and!; try done.
           ++ by apply frame_trans with (advanceTo edge this);
                [apply frame_advanceTo|].
           ++ exists ({| utterance := prompt (target edge); user := false |} :: items).
              split; [|by constructor]. rewrite Ht. simpl. by rewrite <- app_assoc.
        -- rewrite (autoAdvance_bad_random _ _ _ Hauto Hsome Hpick) in Hrun.
           injection Hrun as <- <- <-. apply Hsame.
    + rewrite autoAdvance_stop in Hrun by done.
      injection Hrun as <- <- <-. apply Hsame.
Qed.

(** The loop does not touch the attempt number. *)
Lemma autoAdvance_attemptNumber randoms this r this' rest :
  autoAdvanceAsNeeded graph randoms this = Some (r, this', rest) ->
  p_attemptNumber (inferenceState this') = p_attemptNumber (inferenceState this).
Proof.
  revert this. induction randoms as [|random randoms IH]; intros this Hrun.
  - destruct (truthyBool (autoAdvance (p_node (inferenceState this)))) eqn:Hauto.
    + destruct (decide (getOutEdges (p_node (inferenceState this)) graph
                          (Some (currentWorld this)) = [])) as [Hnone|Hsome].
      * rewrite autoAdvance_dead_end in Hrun by done. by injection Hrun as <- <- <-.
      * by rewrite autoAdvance_starved in Hrun.
    + rewrite autoAdvance_stop in Hrun by done. by injection Hrun as <- <- <-.
  - destruct (truthyBool (autoAdvance (p_node (inferenceState this)))) eqn:Hauto.
    + destruct (decide (getOutEdges (p_node (inferenceState this)) graph
                          (Some (currentWorld this)) = [])) as [Hnone|Hsome].
      * rewrite autoAdvance_dead_end in Hrun by done. by injection Hrun as <- <- <-.
      * destruct (pickRandom random
                    (getOutEdges (p_node (inferenceState this)) graph
                                 (Some (currentWorld this)))) as [edge|] eqn:Hpick.
        -- rewrite (autoAdvance_cons _ _ _ edge Hauto Hsome Hpick) in Hrun.
           by rewrite (IH _ Hrun).
        -- rewrite (autoAdvance_bad_random _ _ _ Hauto Hsome Hpick) in Hrun.
           by injection Hrun as <- <- <-.
    + rewrite autoAdvance_stop in Hrun by done. by injection Hrun as <- <- <-.
Qed.

(** With random values from [0, 1) the loop walks a chain of
    auto-advance steps. *)
Lemma autoAdvance_run randoms this r this' rest :
  Forall unitInterval randoms ->
  autoAdvanceAsNeeded graph randoms this = Some (r, this', rest) ->
  exists path used,
    advances graph (p_node (inferenceState this)) (currentWorld this) path
             (p_node (inferenceState this')) (currentWorld this')
    /\ transcript this' = transcript this ++ map promptItem path
    /\ randoms = used ++ rest /\ length used = length path
    /\ match r with
       | Ok _ => truthyBool (autoAdvance (p_node (inferenceState this'))) = false
       | Throw x =>
           x = noEdges
           /\ truthyBool (autoAdvance (p_node (inferenceState this'))) = true
           /\ getOutEdges (p_node (inferenceState this')) graph
                          (Some (currentWorld this')) = []
       end.
Proof.
  assert (Hstay : forall (this0 : DialogPreview) (rs : list Q),
            advances graph (p_node (inferenceState this0)) (currentWorld this0) []
                     (p_node (inferenceState this0)) (currentWorld this0)
            /\ transcript this0 = transcript this0 ++ map promptItem []
            /\ rs = [] ++ rs /\ length ([] : list Q) = length ([] : list Edge)).
  { intros this0 rs. split_and!; try done; try constructor.
    simpl. by rewrite app_nil_r. }
  intros Hunit. revert this.
  induction Hunit as [|random randoms Hrandom _ IH]; intros this Hrun.
  - destruct (truthyBool (autoAdvance (p_node (inferenceState this)))) eqn:Hauto.
    + destruct (decide (getOutEdges (p_node (inferenceState this)) graph
                          (Some (currentWorld this)) = [])) as [Hnone|Hsome].
      * rewrite autoAdvance_dead_end in Hrun by done.
        injection Hrun as <- <- <-. exists [], [].
        destruct (Hstay this []) as (? & ? & ? & ?). by split_and!.
      * by rewrite autoAdvance_starved in Hrun.
    + rewrite autoAdvance_stop in Hrun by done.
      injection Hrun as <- <- <-. exists [], [].
      destruct (Hstay this []) as (? & ? & ? & ?). by split_and!.
  - destruct (truthyBool (autoAdvance (p_node (inferenceState this)))) eqn:Hauto.
    + destruct (decide (getOutEdges (p_node (inferenceState this)) graph
                          (Some (currentWorld this)) = [])) as [Hnone|Hsome].
      * rewrite autoAdvance_dead_end in Hrun by done.
        injection Hrun as <- <- <-. exists [], [].
        destruct (Hstay this (random :: randoms)) as (? & ? & ? & ?). by split_and!.
      * destruct (pickRandom_lookup random _ Hrandom Hsome)
          as (i & edge & Hpick & Hi).
        rewrite (autoAdvance_cons _ _ _ edge Hauto Hsome Hpick) in Hrun.
        destruct (IH _ Hrun) as (path & used & Hpath & Ht & Hused & Hlen & Hout).
        exists (edge :: path), (random :: used). split_and!.
        -- apply advances_step; [done | by apply list_elem_of_lookup_2 with i |].
           by rewrite <- currentWorld_advanceTo.
        -- rewrite Ht. simpl. by rewrite <- app_assoc.
        -- simpl. by rewrite Hused.
        -- simpl. by rewrite Hlen.
        -- done.
    + rewrite autoAdvance_stop in Hrun by done.
      injection Hrun as <- <- <-. exists [], [].
      destruct (Hstay this (random :: randoms)) as (? & ? & ? & ?). by split_and!.
Qed.

End AutoAdvance.

(** X24.  With random values from [0, 1), [autoAdvanceAsNeeded] follows a
    chain of edges, each leaving an auto-advance node and passing its
    conditions in the world of that moment, applies the mutations of each
    edge taken, appends the prompt of each node reached and draws one
    random value per edge.  It returns at a node that is not auto-advance
    and raises 'No edges in auto-advance node.' at an auto-advance node
    without passing out-edge; it raises nothing else, and it leaves the
    attempt number, the initial state and the other [Map] alone. *)
Theorem autoAdvanceAsNeeded_follows graph randoms this r this' rest :
  Forall unitInterval randoms ->
  autoAdvanceAsNeeded graph randoms this = Some (r, this', rest) ->
  (exists path used,
     advances graph (p_node (inferenceState this)) (currentWorld this) path
              (p_node (inferenceState this')) (currentWorld this')
     /\ transcript this' = transcript this ++ map promptItem path
     /\ randoms = used ++ rest /\ length used = length path)
  /\ match r with
     | Ok _ => truthyBool (autoAdvance (p_node (inferenceState this'))) = false
     | Throw x =>
         x = noEdges
         /\ truthyBool (autoAdvance (p_node (inferenceState this'))) = true
         /\ getOutEdges (p_node (inferenceState this')) graph
                        (Some (currentWorld this')) = []
     end
  /\ p_attemptNumber (inferenceState this') = p_attemptNumber (inferenceState this)
  /\ p_world (inferenceState this') = p_world (inferenceState this)
  /\ initialInferenceState this' = initialInferenceState this
  /\ forall ref, ref <> p_world (inferenceState this) ->
                 readMap this' ref = readMap this ref.
Proof.
  intros Hunit Hrun.
  destruct (autoAdvance_run graph randoms this r this' rest Hunit Hrun)
    as (path & used & H1 & H2 & H3 & H4 & H5).
  destruct (autoAdvance_frame graph randoms this r this' rest Hrun)
    as ((F1 & F2 & F3) & _).
  pose proof (autoAdvance_attemptNumber graph randoms this r this' rest Hrun) as Ha.
  split; [by exists path, used|]. by split_and!.
Qed.

(** X25.  Among auto-advance nodes that always have a passing out-edge
    and whose passing out-edges lead to such nodes again, the loop never
    ends, whatever random values are drawn. *)
Theorem autoAdvance_never_ends graph (P : Node -> Prop) randoms this :
  (forall n, P n -> truthyBool (autoAdvance n) = true) ->
  (forall n w, P n -> getOutEdges n graph (Some w) <> []) ->
  (forall n w e, P n -> e ∈ getOutEdges n graph (Some w) -> P (target e)) ->
  P (p_node (inferenceState this)) ->
  Forall unitInterval randoms ->
  autoAdvanceAsNeeded graph randoms this = None.
Proof.
  intros Hauto Hsome Hclosed HP Hunit. revert this HP.
  induction Hunit as [|random randoms Hrandom _ IH]; intros this HP.
  - apply autoAdvance_starved; [by apply Hauto | by apply Hsome].
  - destruct (pickRandom_lookup random
                (getOutEdges (p_node (inferenceState this)) graph
                             (Some (currentWorld this))) Hrandom)
      as (i & edge & Hpick & Hi); [by apply Hsome|].
    rewrite (autoAdvance_cons graph _ _ _ edge); [|by apply Hauto|by apply Hsome|done].
    apply IH. simpl.
    apply (Hclosed (p_node (inferenceState this)) (currentWorld this)); [done|].
    by apply list_elem_of_lookup_2 with i.
Qed.

(** An auto-advance node with an unconditional edge to itself. *)
Definition spinNode : Node :=
  {| id := "spin"; title := "spin"; prompt := "..."; retryPrompt := "";
     autoAdvance := Some true; fx := CUndefined; fy := CUndefined |}.

Definition spinGraph : Graph :=
  {| gid := "g"; contentId := None; name := "spin"; start := "spin";
     nodes := [spinNode];
     edges := [ {| source := spinNode; target := spinNode; rules := [];
                   conditions := None; mutations := None; layout := None |} ] |}.

Lemma spinGraph_out n w :
  n = spinNode ->
  getOutEdges n spinGraph (Some w)
  = [ {| source := spinNode; target := spinNode; rules := [];
         conditions := None; mutations := None; layout := None |} ].
Proof.
  intros ->. unfold getOutEdges. simpl edges.
  rewrite filter_cons, decide_True by (split; reflexivity). by rewrite filter_nil.
Qed.

Lemma autoAdvance_never_ends_witness :
  autoAdvanceAsNeeded spinGraph [(1 # 2); 0; (3 # 4)]%Q (opened spinNode) = None.
Proof.
  apply (autoAdvance_never_ends spinGraph (fun n => n = spinNode)).
  - by intros n ->.
  - intros n w Hn. by rewrite (spinGraph_out n w Hn).
  - intros n w e Hn. rewrite (spinGraph_out n w Hn).
    intros He. apply list_elem_of_singleton in He. by subst.
  - reflexivity.
  - repeat constructor; unfold unitInterval; simpl; lra.
Defined.

(** A tour: the opening node advances to A or to the hall, each edge
    writing [k]; the hall advances to B when [k] is 'hall', removing [k],
    and its edge to A is closed unless [k] is 'never'. *)
Definition tourNode (i : string) (auto : bool) : Node :=
  {| id := i; title := i; prompt := i; retryPrompt := "";
     autoAdvance := Some auto; fx := CUndefined; fy := CUndefined |}.

Definition tourEdge (a b : Node) (cs : list Condition) (ms : list Mutation) : Edge :=
  {| source := a; target := b; rules := [];
     conditions := Some cs; mutations := Some ms; layout := None |}.

Definition tourGraph : Graph :=
  {| gid := "g"; contentId := None; name := "tour"; start := "intro";
     nodes := [tourNode "intro" true; tourNode "hall" true;
               tourNode "A" false; tourNode "B" false];
     edges :=
       [ tourEdge (tourNode "intro" true) (tourNode "A" false) []
           [ {| mutationType := ADD; mkey := "k"; mvalue := "a" |} ];
         tourEdge (tourNode "intro" true) (tourNode "hall" true) []
           [ {| mutationType := ADD; mkey := "k"; mvalue := "hall" |} ];
         tourEdge (tourNode "hall" true) (tourNode "A" false)
           [ {| conditionType := REQUIRE; ckey := "k"; cvalue := "never" |} ] [];
         tourEdge (tourNode "hall" true) (tourNode "B" false)
           [ {| conditionType := REQUIRE; ckey := "k"; cvalue := "hall" |} ]
           [ {| mutationType := REMOVE; mkey := "k"; mvalue := "" |} ] ] |}.

Definition toured : DialogPreview :=
  Eval vm_compute in
    match autoAdvanceAsNeeded tourGraph [(3 # 4); (1 # 2); (1 # 3)]%Q
                              (opened (tourNode "intro" true)) with
    | Some (_, this', _) => this'
    | None => opened (tourNode "intro" true)
    end.

(** Two edges are followed (to the hall, then to B), two random values
    drawn and one left, both prompts shown, [k] written and removed. *)
Lemma tour_run :
  autoAdvanceAsNeeded tourGraph [(3 # 4); (1 # 2); (1 # 3)]%Q
                      (opened (tourNode "intro" true))
  = Some (Ok tt, toured, [(1 # 3)%Q])
  /\ p_node (inferenceState toured) = tourNode "B" false
  /\ currentWorld toured = ∅
  /\ transcript toured = [ {| utterance := "hall"; user := false |};
                           {| utterance := "B"; user := false |} ].
Proof. split_and!; vm_compute; reflexivity. Qed.

Lemma autoAdvanceAsNeeded_follows_witness :
  (exists path used,
     advances tourGraph (tourNode "intro" true) ∅ path
              (p_node (inferenceState toured)) (currentWorld toured)
     /\ transcript toured = [] ++ map promptItem path
     /\ [(3 # 4); (1 # 2); (1 # 3)]%Q = used ++ [(1 # 3)%Q]
     /\ length used = length path)
  /\ truthyBool (autoAdvance (p_node (inferenceState toured))) = false
  /\ p_attemptNumber (inferenceState toured) = 0
  /\ p_world (inferenceState toured) = FirstMap
  /\ initialInferenceState toured
     = initialInferenceState (opened (tourNode "intro" true))
  /\ forall ref, ref <> FirstMap ->
                 readMap toured ref = readMap (opened (tourNode "intro" true)) ref.
Proof.
  apply (autoAdvanceAsNeeded_follows tourGraph [(3 # 4); (1 # 2); (1 # 3)]%Q
           (opened (tourNode "intro" true)) (Ok tt) toured [(1 # 3)%Q]).
  - repeat constructor; unfold unitInterval; simpl; lra.
  - vm_compute. reflexivity.
Defined.

(** *** Submitting an utterance and restarting *)

(** The call [submitUtterance] makes to the inference service. *)
Definition asked (svc : SemanticMatchService) (graph : Graph)
    (this : DialogPreview) : result InferenceResult :=
  evaluate svc graph (currentUtterance this)
           (toInferenceState this (inferenceState this)).

Definition userItem (this : DialogPreview) : TranscriptItem :=
  {| utterance := currentUtterance this; user := true |}.

(** The component when the inference service is called. *)
Definition waiting (this : DialogPreview) : DialogPreview :=
  setLoadingResults true
    (addTranscriptItem (currentUtterance this) true (setCurrentUtterance "" this)).

Section Submit.

Context (svc : SemanticMatchService) (graph : Graph).

Lemma frame_adoptState res this : frame this (adoptState res this).
Proof.
  unfold adoptState. split_and!.
  - done.
  - by destruct (world (state res)).
  - intros r Hr. destruct (world (state res)) as [w|]; simpl; [|done].
    by destruct (p_world (inferenceState this)), r.
Qed.

Lemma adoptState_fields res this :
  loadingResults (adoptState res this) = loadingResults this
  /\ currentUtterance (adoptState res this) = currentUtterance this
  /\ transcript (adoptState res this) = transcript this
  /\ dp_finished (adoptState res this) = dp_finished this
  /\ p_node (inferenceState (adoptState res this)) = node (state res)
  /\ p_attemptNumber (inferenceState (adoptState res this))
     = attemptNumber (state res).
Proof. unfold adoptState. by destruct (world (state res)). Qed.

Lemma submitUtterance_unfold randoms this :
  currentUtterance this <> "" ->
  submitUtterance svc graph randoms this
  = match asked svc graph this with
    | Throw x => Some (Throw x, waiting this, randoms)
    | Ok result =>
        let this3 := adoptState result (setLoadingResults false (waiting this)) in
        match edge result with
        | Some _ =>
            match rule result with
            | None => Some (Throw TypeError, this3, randoms)
            | Some r =>
                let this4 :=
                  match r with
                  | REPEATED_FAIL ruleData =>
                      if truthyStr (failMessage ruleData)
                      then addTranscriptItem (default "" (failMessage ruleData))
                                             false this3
                      else this3
                  | SEMANTIC_MATCH _ => this3
                  end in
                let this5 :=
                  addTranscriptItem (prompt (node (state result))) false this4 in
                match autoAdvanceAsNeeded graph randoms this5 with
                | None => None
                | Some (Throw x, this6, rest) => Some (Throw x, this6, rest)
                | Some (Ok _, this6, rest) =>
                    if isLeafNode graph this6 (inferenceState this6)
                    then Some (Ok tt, finishConversation this6, rest)
                    else Some (Ok tt, this6, rest)
                end
            end
        | None =>
            Some (Ok tt,
                  addTranscriptItem (retryPrompt (node (state result))) false this3,
                  randoms)
        end
    end.
Proof.
  intros Hne. unfold submitUtterance. simpl truthyStr.
  destruct (String.eqb_spec (currentUtterance this) "") as [|_]; [done|].
  reflexivity.
Qed.

(** The optional fail message and the prompt shown after a transition. *)
Definition shown (res : InferenceResult) (r : EdgeRule) : list TranscriptItem :=
  match r with
  | REPEATED_FAIL ruleData =>
      if truthyStr (failMessage ruleData)
      then [ {| utterance := default "" (failMessage ruleData); user := false |} ]
      else []
  | SEMANTIC_MATCH _ => []
  end ++ [ {| utterance := prompt (node (state res)); user := false |} ].

Lemma shown_system res r : Forall (fun i => user i = false) (shown res r).
Proof.
  unfold shown. apply Forall_app. split; [|by repeat constructor].
  destruct r as [d|rf]; [constructor|].
  destruct (truthyStr (failMessage rf)); by repeat constructor.
Qed.

End Submit.

(** X26.  What [submitUtterance] does with a non-empty utterance.  The
    input box is cleared and the utterance goes into the transcript,
    followed by system items only.  The initial state, the [Map]
    references and the other [Map] are left alone.  When the inference
    service raises, the handler raises the same exception with the wait
    indicator still on and the state as before; otherwise the indicator
    is off.  Without transition the retry prompt of the node is shown.
    After a transition that returns, the current node is not auto-advance,
    and the conversation is finished exactly when it was already finished
    or the node has no out-edge passing its conditions. *)
Theorem submitUtterance_effects svc graph randoms this r this' rest :
  currentUtterance this <> "" ->
  Forall unitInterval randoms ->
  submitUtterance svc graph randoms this = Some (r, this', rest) ->
  currentUtterance this' = ""
  /\ (exists items,
        transcript this' = transcript this ++ userItem this :: items
        /\ Forall (fun i => user i = false) items)
  /\ frame this this'
  /\ (loadingResults this' = true <-> exists x, asked svc graph this = Throw x)
  /\ (forall x, asked svc graph this = Throw x ->
        r = Throw x /\ this' = waiting this)
  /\ (forall res, asked svc graph this = Ok res -> edge res = None ->
        r = Ok tt
        /\ transcript this'
           = transcript this
               ++ [userItem this;
                   {| utterance := retryPrompt (node (state res)); user := false |}]
        /\ p_node (inferenceState this') = node (state res)
        /\ p_attemptNumber (inferenceState this') = attemptNumber (state res))
  /\ (forall res, asked svc graph this = Ok res -> is_Some (edge res) ->
        r = Ok tt ->
        truthyBool (autoAdvance (p_node (inferenceState this'))) = false
        /\ (dp_finished this' = true
            <-> dp_finished this = true
                \/ getOutEdges (p_node (inferenceState this')) graph
                               (Some (currentWorld this')) = [])).
Proof.
  intros Hne Hunit Hrun. rewrite (submitUtterance_unfold svc graph randoms this Hne) in Hrun.
  destruct (asked svc graph this) as [res|x] eqn:Hasked.
  2:{ injection Hrun as <- <- <-. split_and!; try done.
      - exists []. split; [done | constructor].
      - split; [eauto | done].
      - by intros x' [= <-]. }
  cbv zeta in Hrun.
  remember (adoptState res (setLoadingResults false (waiting this))) as this3 eqn:E3.
  assert (F3 : frame this this3).
  { rewrite E3. apply frame_trans with (setLoadingResults false (waiting this));
      [by split_and! | apply frame_adoptState]. }
  assert (H3 : loadingResults this3 = false /\ currentUtterance this3 = ""
               /\ transcript this3 = transcript this ++ [userItem this]
               /\ dp_finished this3 = dp_finished this
               /\ p_node (inferenceState this3) = node (state res)
               /\ p_attemptNumber (inferenceState this3) = attemptNumber (state res)).
  { rewrite E3.
    destruct (adoptState_fields res (setLoadingResults false (waiting this)))
      as (-> & -> & -> & -> & -> & ->). by split_and!. }
  destruct H3 as (L3 & C3 & T3 & D3 & N3 & A3). clear E3.
  assert (Hload : forall that : DialogPreview,
            loadingResults that = false ->
            loadingResults that = true <-> exists x, Ok res = Throw x).
  { intros that ->. split; [done | by intros [? ?]]. }
  destruct (edge res) as [e|] eqn:Hedge.
  2:{ injection Hrun as <- <- <-. split_and!.
      - simpl. by rewrite C3.
      - eexists. simpl. rewrite T3, <- app_assoc. split; [done|].
        by repeat constructor.
      - apply frame_trans with this3; [done | by split_and!].
      - by apply Hload.
      - by intros x ?.
      - intros res' [= <-] _. split_and!; try done.
        simpl. by rewrite T3, <- app_assoc.
      - intros res' [= <-] [? ?]. congruence. }
  destruct (rule res) as [rl|] eqn:Hrule.
  2:{ injection Hrun as <- <- <-. split_and!.
      - done.
      - exists []. split; [by rewrite T3 | constructor].
      - done.
      - by apply Hload.
      - by intros x ?.
      - intros res' [= <-] ?. congruence.
      - by intros res' _ _ ?. }
  remember (addTranscriptItem (prompt (node (state res))) false _) as this5 eqn:E5.
  assert (T5 : transcript this5 = transcript this ++ userItem this :: shown res rl).
  { rewrite E5. unfold shown. destruct rl as [d|rf]; simpl.
    - by rewrite T3, <- app_assoc.
    - destruct (truthyStr (failMessage rf)); simpl; rewrite T3, <- !app_assoc; done. }
  assert (F5 : frame this this5
               /\ loadingResults this5 = false /\ currentUtterance this5 = ""
               /\ dp_finished this5 = dp_finished this).
  { rewrite E5. destruct rl as [d|rf].
    - split_and!; try done;
        try (apply frame_trans with this3; [done | by split_and!]).
    - destruct (truthyStr (failMessage rf)); split_and!; try done;
        try (apply frame_trans with this3; [done | by split_and!]). }
  destruct F5 as (F5 & L5 & C5 & D5). clear E5.
  destruct (autoAdvanceAsNeeded graph randoms this5) as [[[r0 this6] rest0]|] eqn:Hadv;
    [|done].
  destruct (autoAdvance_frame graph randoms this5 r0 this6 rest0 Hadv)
    as (F6 & L6 & C6 & D6 & items & T6 & Hitems).
  destruct (autoAdvance_run graph randoms this5 r0 this6 rest0 Hunit Hadv)
    as (path & used & _ & _ & _ & _ & Hout).
  assert (Hitems' : Forall (fun i => user i = false) (shown res rl ++ items)).
  { apply Forall_app. split; [apply shown_system | done]. }
  assert (T6' : transcript this6
                = transcript this ++ userItem this :: (shown res rl ++ items)).
  { rewrite T6, T5, <- app_assoc. done. }
  assert (F : frame this this6) by (by apply frame_trans with this5).
  destruct r0 as [[]|x].
  2:{ injection Hrun as <- <- <-. split_and!.
      - congruence.
      - eauto.
      - done.
      - apply Hload. congruence.
      - by intros x' ?.
      - intros res' [= <-] ?. congruence.
      - by intros res' _ _ ?. }
  unfold isLeafNode in Hrun. fold (currentWorld this6) in Hrun.
  destruct (getOutEdges (p_node (inferenceState this6)) graph
              (Some (currentWorld this6))) as [|o os] eqn:Hleaf;
    injection Hrun as <- <- <-.
  - split_and!.
    + simpl. congruence.
    + eexists. split; [simpl; rewrite T6', <- app_assoc; reflexivity|].
      apply Forall_app. split; [done | by repeat constructor].
    + apply frame_trans with this6; [done | by split_and!].
    + apply Hload. simpl. congruence.
    + by intros x ?.
    + intros res' [= <-] ?. congruence.
    + intros res' _ _ _. split; [done|]. split; [intros _; right | done].
      exact Hleaf.
  - split_and!.
    + congruence.
    + eauto.
    + done.
    + apply Hload. congruence.
    + by intros x ?.
    + intros res' [= <-] ?. congruence.
    + intros res' _ _ _. split; [done|]. rewrite D6, D5, Hleaf. split; [by left|].
      intros [?|?]; done.
Qed.

Definition submitSample : DialogPreview :=
  setCurrentUtterance "yes" (opened (Sample.mkN "start")).

Definition submitted : DialogPreview :=
  Eval vm_compute in
    match submitUtterance (Sample.constScorer (3 # 4) 1) Sample.yesGraph []
                          submitSample with
    | Some (_, this', _) => this'
    | None => submitSample
    end.

Lemma submitUtterance_effects_witness :
  submitUtterance (Sample.constScorer (3 # 4) 1) Sample.yesGraph [] submitSample
  = Some (Ok tt, submitted, [])
  /\ currentUtterance submitted = ""
  /\ frame submitSample submitted.
Proof.
  split; [vm_compute; reflexivity|].
  destruct (submitUtterance_effects (Sample.constScorer (3 # 4) 1) Sample.yesGraph
              [] submitSample (Ok tt) submitted []) as (H1 & _ & H3 & _).
  - discriminate.
  - constructor.
  - vm_compute. reflexivity.
  - by split.
Defined.

Section Restart.

Context (graph : Graph).

Lemma frame_setCurrentUtterance u this : frame this (setCurrentUtterance u this).
Proof. by split_and!. Qed.

(** Whatever [submitUtterance] does, it keeps the frame. *)
Lemma submitUtterance_frame svc randoms this r this' rest :
  submitUtterance svc graph randoms this = Some (r, this', rest) ->
  frame this this'.
Proof.
  destruct (decide (currentUtterance this = "")) as [Hempty|Hne].
  { unfold submitUtterance. rewrite Hempty. simpl. intros [= <- <- <-].
    apply frame_refl. }
  rewrite (submitUtterance_unfold svc graph randoms this Hne).
  destruct (asked svc graph this) as [res|x]; [|by intros [= <- <- <-]].
  cbv zeta.
  remember (adoptState res (setLoadingResults false (waiting this))) as this3 eqn:E3.
  assert (F3 : frame this this3).
  { rewrite E3. apply frame_trans with (setLoadingResults false (waiting this));
      [by split_and! | apply frame_adoptState]. }
  clear E3. destruct (edge res) as [e|].
  2:{ intros [= <- <- <-]. apply frame_trans with this3; [done | by split_and!]. }
  destruct (rule res) as [rl|]; [|by intros [= <- <- <-]].
  remember (addTranscriptItem (prompt (node (state res))) false _) as this5 eqn:E5.
  assert (F5 : frame this this5).
  { apply frame_trans with this3; [done|]. rewrite E5. destruct rl as [d|rf].
    - by split_and!.
    - destruct (truthyStr (failMessage rf)); by split_and!. }
  clear E5.
  destruct (autoAdvanceAsNeeded graph randoms this5) as [[[r0 this6] rest0]|] eqn:Hadv;
    [|done].
  destruct (autoAdvance_frame graph randoms this5 r0 this6 rest0 Hadv) as (F6 & _).
  assert (F : frame this this6) by (by apply frame_trans with this5).
  destruct r0 as [[]|x]; [|by intros [= <- <- <-]].
  destruct (isLeafNode graph this6 (inferenceState this6)); intros [= <- <- <-];
    [|done].
  apply frame_trans with this6; [done | by split_and!].
Qed.

(** [restart] resumes from the node of the initial state and from the
    [Map] the initial state refers to, as that [Map] is now. *)
Lemma restart_run randoms this r this' rest :
  restart graph randoms this = Some (r, this', rest) ->
  p_world (inferenceState this') = p_world (initialInferenceState this')
  /\ initialInferenceState this' = initialInferenceState this
  /\ dp_finished this' = false
  /\ (exists items,
        transcript this'
        = {| utterance := prompt (p_node (initialInferenceState this));
             user := false |} :: items)
  /\ (Forall unitInterval randoms ->
      exists path,
        advances graph (p_node (initialInferenceState this))
                 (readMap this (p_world (initialInferenceState this))) path
                 (p_node (inferenceState this')) (currentWorld this')).
Proof.
  unfold restart. intros Hrun.
  destruct (autoAdvance_frame graph _ _ _ _ _ Hrun)
    as ((F1 & F2 & F3) & _ & _ & D & items & T & _).
  simpl in F1, F2, D, T. split_and!; try done.
  - by rewrite F1, F2.
  - by exists items.
  - intros Hunit.
    destruct (autoAdvance_run graph _ _ _ _ _ Hunit Hrun) as (path & _ & Hpath & _).
    by exists path.
Qed.

End Restart.

(** X27.  [restart] empties the transcript, shows the prompt of the
    initial node, clears the finished flag and leaves the initial state
    alone; from then on the current state and the initial state refer to
    the same [Map].  The conversation resumes, auto-advancing, in the
    world that [Map] holds at that moment. *)
Theorem restart_shares_map graph randoms this r this' rest :
  Forall unitInterval randoms ->
  restart graph randoms this = Some (r, this', rest) ->
  p_world (inferenceState this') = p_world (initialInferenceState this')
  /\ initialInferenceState this' = initialInferenceState this
  /\ dp_finished this' = false
  /\ (exists items,
        transcript this'
        = {| utterance := prompt (p_node (initialInferenceState this));
             user := false |} :: items)
  /\ exists path,
       advances graph (p_node (initialInferenceState this))
                (readMap this (p_world (initialInferenceState this))) path
                (p_node (inferenceState this')) (currentWorld this').
Proof.
  intros Hunit Hrun.
  destruct (restart_run graph randoms this r this' rest Hrun)
    as (H1 & H2 & H3 & H4 & H5).
  split_and!; try done. by apply H5.
Qed.

Definition restarted : DialogPreview :=
  Eval vm_compute in
    match restart Sample.yesGraph [] submitted with
    | Some (_, this', _) => this'
    | None => submitted
    end.

Lemma restart_shares_map_witness :
  restart Sample.yesGraph [] submitted = Some (Ok tt, restarted, [])
  /\ p_world (inferenceState restarted) = p_world (initialInferenceState restarted).
Proof.
  split; [vm_compute; reflexivity|].
  apply (restart_shares_map Sample.yesGraph [] submitted (Ok tt) restarted []).
  - constructor.
  - vm_compute. reflexivity.
Defined.

(** X28.  Once the conversation has been restarted, a later restart does
    not reset the world: after a restart and an utterance, restarting
    again resumes in the world the conversation has reached, mutations
    included. *)
Theorem later_restart_keeps_world svc graph u
    rs0 this0 r1 this1 rs1 r2 this2 rs2 r3 this3 rs3 :
  restart graph rs0 this0 = Some (r1, this1, rs1) ->
  submitUtterance svc graph rs1 (setCurrentUtterance u this1) = Some (r2, this2, rs2) ->
  restart graph rs2 this2 = Some (r3, this3, rs3) ->
  Forall unitInterval rs2 ->
  exists path,
    advances graph (p_node (initialInferenceState this0)) (currentWorld this2) path
             (p_node (inferenceState this3)) (currentWorld this3).
Proof.
  intros Hfirst Hsubmit Hsecond Hunit.
  destruct (restart_run graph rs0 this0 r1 this1 rs1 Hfirst) as (S1 & I1 & _).
  destruct (submitUtterance_frame graph svc rs1 _ r2 this2 rs2 Hsubmit)
    as (W2 & I2 & _).
  simpl in W2, I2.
  destruct (restart_run graph rs2 this2 r3 this3 rs3 Hsecond)
    as (_ & _ & _ & _ & Hpath).
  destruct (Hpath Hunit) as [path Hp]. exists path.
  assert (Hw : currentWorld this2
               = readMap this2 (p_world (initialInferenceState this2))).
  { unfold currentWorld. by rewrite W2, S1, I2. }
  rewrite Hw, <- I1, <- I2. exact Hp.
Qed.

(** A run on the sample graph: open at the start node, restart, answer
    'yes' (the edge taken adds k = 1), restart again. *)
Definition run1 : DialogPreview :=
  Eval vm_compute in
    match restart Sample.yesGraph [] (opened (Sample.mkN "start")) with
    | Some (_, this', _) => this'
    | None => opened (Sample.mkN "start")
    end.

Definition run2 : DialogPreview :=
  Eval vm_compute in
    match submitUtterance (Sample.constScorer (3 # 4) 1) Sample.yesGraph []
                          (setCurrentUtterance "yes" run1) with
    | Some (_, this', _) => this'
    | None => run1
    end.

Definition run3 : DialogPreview :=
  Eval vm_compute in
    match restart Sample.yesGraph [] run2 with
    | Some (_, this', _) => this'
    | None => run2
    end.

Lemma later_restart_keeps_world_witness :
  currentWorld run2 = {[ "k" := "1" ]}
  /\ exists path,
       advances Sample.yesGraph (p_node (initialInferenceState (opened (Sample.mkN "start"))))
                (currentWorld run2) path
                (p_node (inferenceState run3)) (currentWorld run3).
Proof.
  split; [vm_compute; reflexivity|].
  apply (later_restart_keeps_world (Sample.constScorer (3 # 4) 1) Sample.yesGraph
           "yes" [] (opened (Sample.mkN "start")) (Ok tt) run1 []
           (Ok tt) run2 [] (Ok tt) run3 []).
  - vm_compute. reflexivity.
  - vm_compute. reflexivity.
  - vm_compute. reflexivity.
  - constructor.
Defined.

(** X29.  The first restart after the preview was opened does reset the
    world: whatever the first prompt's auto-advance and an utterance did
    to the world, the conversation resumes at the opening node in the
    empty world. *)
Theorem first_restart_resets_world svc graph node u
    rs0 r0 this0 rs1 r1 this1 rs2 r2 this2 rs3 :
  autoAdvanceAsNeeded graph rs0 (addTranscriptItem (prompt node) false (opened node))
  = Some (r0, this0, rs1) ->
  submitUtterance svc graph rs1 (setCurrentUtterance u this0) = Some (r1, this1, rs2) ->
  restart graph rs2 this1 = Some (r2, this2, rs3) ->
  Forall unitInterval rs2 ->
  exists path,
    advances graph node ∅ path (p_node (inferenceState this2)) (currentWorld this2).
Proof.
  intros Hopen Hsubmit Hrestart Hunit.
  destruct (autoAdvance_frame graph _ _ _ _ _ Hopen) as ((W0 & I0 & M0) & _).
  destruct (submitUtterance_frame graph svc rs1 _ r1 this1 rs2 Hsubmit)
    as (W1 & I1 & M1).
  simpl in W0, I0, I1.
  assert (Hm : readMap this1 SecondMap = ∅).
  { rewrite (M1 SecondMap) by (simpl; rewrite W0; discriminate).
    transitivity (readMap this0 SecondMap); [reflexivity|].
    by rewrite (M0 SecondMap) by (simpl; discriminate). }
  destruct (restart_run graph rs2 this1 r2 this2 rs3 Hrestart)
    as (_ & _ & _ & _ & Hpath).
  destruct (Hpath Hunit) as [path Hp]. exists path.
  rewrite I1, I0 in Hp. simpl in Hp, Hm. by rewrite Hm in Hp.
Qed.

Definition first0 : DialogPreview :=
  addTranscriptItem "?" false (opened (Sample.mkN "start")).

Definition first1 : DialogPreview :=
  Eval vm_compute in
    match submitUtterance (Sample.constScorer (3 # 4) 1) Sample.yesGraph []
                          (setCurrentUtterance "yes" first0) with
    | Some (_, this', _) => this'
    | None => first0
    end.

Definition first2 : DialogPreview :=
  Eval vm_compute in
    match restart Sample.yesGraph [] first1 with
    | Some (_, this', _) => this'
    | None => first1
    end.

Lemma first_restart_resets_world_witness :
  currentWorld first1 = {[ "k" := "1" ]}
  /\ exists path,
       advances Sample.yesGraph (Sample.mkN "start") ∅ path
                (p_node (inferenceState first2)) (currentWorld first2).
Proof.
  split; [vm_compute; reflexivity|].
  apply (first_restart_resets_world (Sample.constScorer (3 # 4) 1) Sample.yesGraph
           (Sample.mkN "start") "yes"
           [] (Ok tt) first0 [] (Ok tt) first1 [] (Ok tt) first2 []).
  - vm_compute. reflexivity.
  - vm_compute. reflexivity.
  - vm_compute. reflexivity.
  - constructor.
Defined.

(** *** Finding the opening node *)

Lemma getNodeById_loop_head (ns : list Node) (nodeId : string) :
  getNodeById_loop ns nodeId
  = head (filter (fun n => String.eqb (id n) nodeId = true) ns).
Proof.
  induction ns as [|n ns IH]; simpl; [done|]. rewrite filter_cons.
  destruct (String.eqb (id n) nodeId) eqn:E.
  - by rewrite decide_True.
  - by rewrite decide_False by (by rewrite ?E).
Qed.

(** X30.  [getNodeById] returns the first node of the node list that
    carries the id, which for the start id is the node [dagLayout] starts
    from, and [null] exactly when no node carries the id. *)
Theorem getNodeById_first (graph : Graph) (nodeId : string) :
  getNodeById graph nodeId
  = head (filter (fun n => String.eqb (id n) nodeId = true) (nodes graph))
  /\ (getNodeById graph nodeId = None <-> nodeId ∉ nodeIds graph)
  /\ forall n, getNodeById graph nodeId = Some n ->
       id n = nodeId
       /\ exists i, nodes graph !! i = Some n
                    /\ forall j m, (j < i)%nat -> nodes graph !! j = Some m ->
                                   id m <> nodeId.
Proof.
  unfold getNodeById, nodeIds. split; [apply getNodeById_loop_head|].
  induction (nodes graph) as [|n ns [IH1 IH2]]; simpl.
  - split; [split; [intros _; apply not_elem_of_nil | done] | done].
  - destruct (String.eqb_spec (id n) nodeId) as [Heq|Hne].
    + split.
      * split; [done|]. intros Hnot. destruct Hnot. rewrite Heq. by left.
      * intros m [= <-]. split; [done|]. exists 0%nat. split; [done|].
        intros j m Hj. lia.
    + split.
      * rewrite IH1. rewrite not_elem_of_cons. split; [by split | by intros [_ ?]].
      * intros m Hm. destruct (IH2 m Hm) as (Hid & i & Hi & Hfirst).
        split; [done|]. exists (S i). split; [done|].
        intros [|j] m' Hj Hm'; simpl in Hm'.
        -- by injection Hm' as <-.
        -- apply (Hfirst j); [lia | done].
Qed.
